(** * JazzArchitect: the harmony pipeline, embedded and verified

    A shallow embedding of the generative core of JazzArchitect (pitch
    classes, chord symbols, the probabilistic grammar, the derivation
    engine, the three substitution passes, the guide-tone cost model and the
    voice-leading optimizer), followed by the properties proved about it.

    Conventions of the embedding.
    - C++ [int] values are [Z]; [/] and [%] on them are [Z.quot] and [Z.rem]
      (truncation toward zero).  Sums and products are taken in [Z]: no
      value the pipeline produces by itself comes near the 32-bit range,
      and a property that lets a semitone count, an octave or a key vary
      over the caller's [int]s carries the range ([fitsInt]) as a
      hypothesis.
    - [float] probabilities and weights are exact rationals [Q] in the
      pipeline.  The rounding of [PCFG::normalize] is studied apart, over
      binary32 ([GrammarRule32], [normalize32]).  Guide-tone costs are
      small integers stored in a [float]; they are kept as [Z], which is
      exact for them.
    - A [std::mt19937] is library code.  A random source is the stream of
      canonical variates in [0,1) that the engine delivers, one per call of
      a distribution; each source of the program is a separate stream that
      is threaded through the functions drawing from it. *)

From Stdlib Require Import ZArith QArith Qround Qminmax Lia Bool.
From Stdlib Require Import Ascii DecimalString Sorted.
From Stdlib Require Import SpecFloat Qabs Qpower Lqa.
From stdpp Require Import base list strings gmap.

Local Open Scope Z_scope.

(** ** Core/PitchClass.h *)

Definition in_octave (v : Z) : bool := (0 <=? v) && (v <? 12).

(** [class PitchClass]: a private [int value_] that only the constructor
    writes, hence always within 0..11. *)
Record PitchClass : Type := MkPitchClass {
  value : Z;
  value_in_octave : in_octave value = true
}.

(** [value_(value % 12)] followed by [if (value_ < 0) value_ += 12]. *)
Definition wrap12 (v : Z) : Z :=
  let r := Z.rem v 12 in if r <? 0 then r + 12 else r.

(** The constructor [PitchClass(int value)].  The second branch is never
    taken (lemma [value_mkPitch]); it lets the range proof compute. *)
Definition mkPitch (v : Z) : PitchClass :=
  match in_octave (wrap12 v) as b
        return (in_octave (wrap12 v) = b -> PitchClass) with
  | true => fun H => MkPitchClass (wrap12 v) H
  | false => fun _ => MkPitchClass 0 eq_refl
  end eq_refl.

Definition intervalTo (p other : PitchClass) : Z :=
  Z.rem (value other - value p + 12) 12.

(** [PitchClass(value_ + semitones)]: the sum is an [int] sum, taken here
    in [Z]; the two agree when [semitones + 11] is within the range of
    [int], as in every call the pipeline makes. *)
Definition transpose (p : PitchClass) (semitones : Z) : PitchClass :=
  mkPitch (value p + semitones).

Module Pitch.
Definition C := mkPitch 0.
Definition Db := mkPitch 1.
Definition D := mkPitch 2.
Definition Eb := mkPitch 3.
Definition E := mkPitch 4.
Definition F := mkPitch 5.
Definition Gb := mkPitch 6.
Definition G := mkPitch 7.
Definition Ab := mkPitch 8.
Definition A := mkPitch 9.
Definition Bb := mkPitch 10.
Definition B := mkPitch 11.
End Pitch.

(** ** Core/ChordQuality.h *)

Module ChordQuality.
Inductive t : Type :=
| MAJ7 | MIN7 | DOM7 | HDIM7 | DIM7 | AUG | MIN_MAJ7 | MAJ6 | MIN6
| SUS4 | SUS2.

Definition eqb (a b : t) : bool :=
  match a, b with
  | MAJ7, MAJ7 | MIN7, MIN7 | DOM7, DOM7 | HDIM7, HDIM7 | DIM7, DIM7
  | AUG, AUG | MIN_MAJ7, MIN_MAJ7 | MAJ6, MAJ6 | MIN6, MIN6
  | SUS4, SUS4 | SUS2, SUS2 => true
  | _, _ => false
  end.
End ChordQuality.

Definition qualityIntervals (q : ChordQuality.t) : list Z :=
  match q with
  | ChordQuality.MAJ7 => [0; 4; 7; 11]
  | ChordQuality.MIN7 => [0; 3; 7; 10]
  | ChordQuality.DOM7 => [0; 4; 7; 10]
  | ChordQuality.HDIM7 => [0; 3; 6; 10]
  | ChordQuality.DIM7 => [0; 3; 6; 9]
  | ChordQuality.AUG => [0; 4; 8]
  | ChordQuality.MIN_MAJ7 => [0; 3; 7; 11]
  | ChordQuality.MAJ6 => [0; 4; 7; 9]
  | ChordQuality.MIN6 => [0; 3; 7; 9]
  | ChordQuality.SUS4 => [0; 5; 7; 10]
  | ChordQuality.SUS2 => [0; 2; 7; 10]
  end.

(** ** Core/ChordSymbol.h, ChordSymbol.cpp *)

Record ChordSymbol : Type := MkChord {
  root : PitchClass;
  quality : ChordQuality.t;
  extensions : list Z;
  alterations : gmap Z Z;
  bass : option PitchClass
}.

(** The constructor [ChordSymbol(PitchClass root, ChordQuality quality)]:
    the remaining members are default-initialised. *)
Definition mkChord (r : PitchClass) (q : ChordQuality.t) : ChordSymbol :=
  MkChord r q [] ∅ None.

Definition third (c : ChordSymbol) : PitchClass :=
  let intervals := qualityIntervals (quality c) in
  let thirdInterval :=
    if (1 <? Z.of_nat (length intervals)) then nth 1 intervals 0 else 4 in
  transpose (root c) thirdInterval.

Definition seventh (c : ChordSymbol) : PitchClass :=
  let intervals := qualityIntervals (quality c) in
  if (Z.of_nat (length intervals) <? 4) then transpose (root c) 10
  else transpose (root c) (nth 3 intervals 0).

(** ** VoiceLeading/GuideTone.h *)

Definition minInterval (pc1 pc2 : PitchClass) : Z :=
  let forward := Z.rem (value pc2 - value pc1 + 12) 12 in
  let backward := Z.rem (value pc1 - value pc2 + 12) 12 in
  Z.min forward backward.

Definition voiceLeadingCost (chord1 chord2 : ChordSymbol) : Z :=
  let third1 := third chord1 in
  let seventh1 := seventh chord1 in
  let third2 := third chord2 in
  let seventh2 := seventh chord2 in
  let cost1 := minInterval third1 third2 + minInterval seventh1 seventh2 in
  let cost2 := minInterval third1 seventh2 + minInterval seventh1 third2 in
  Z.min cost1 cost2.

(** The loop [for i in 0 .. size-2: total += cost(chords[i], chords[i+1])];
    a progression of fewer than two chords costs 0. *)
Fixpoint progressionVoiceLeadingCost (chords : list ChordSymbol) : Z :=
  match chords with
  | c1 :: ((c2 :: _) as rest) =>
      voiceLeadingCost c1 c2 + progressionVoiceLeadingCost rest
  | _ => 0
  end.

(** ** Random sources *)

(** The canonical variates a generator will deliver, next one first. *)
Definition Rng : Type := nat -> Q.

Definition canonical (rng : Rng) : Q * Rng :=
  (rng O, fun n => rng (S n)).

Definition Qlt_bool (a b : Q) : bool :=
  match (a ?= b)%Q with Lt => true | _ => false end.

(** [std::uniform_real_distribution<float> dist(a, b); dist(rng)]. *)
Definition uniform_real (a b : Q) (rng : Rng) : Q * Rng :=
  let (u, rng') := canonical rng in ((u * (b - a) + a)%Q, rng').

(** [std::uniform_int_distribution<size_t> dist(0, n - 1); dist(rng)] for
    [n >= 1].  The distribution is library code: it consumes one variate
    and yields an index below [n], here the one the variate scales to. *)
Definition uniform_index (n : nat) (rng : Rng) : nat * Rng :=
  let (u, rng') := canonical rng in
  (Nat.min (Z.to_nat (Qfloor (u * inject_Z (Z.of_nat n)))) (n - 1), rng').

(** The private [shouldSubstitute] that the three substitution classes
    each define over a function-local [static std::mt19937]. *)
Definition shouldSubstitute (probability : Q) (rng : Rng) : bool * Rng :=
  let (u, rng') := uniform_real 0 1 rng in (Qlt_bool u probability, rng').

(** ** Substitution/TritoneSubstitution.h *)

Module TritoneSubstitution.
Definition isDominant (chord : ChordSymbol) : bool :=
  ChordQuality.eqb (quality chord) ChordQuality.DOM7.

Definition substitute (chord : ChordSymbol) : ChordSymbol :=
  if negb (isDominant chord) then chord
  else
    let newRoot := transpose (root chord) 6 in
    mkChord newRoot (quality chord).

Fixpoint apply (progression : list ChordSymbol) (probability : Q)
         (rng : Rng) : list ChordSymbol * Rng :=
  match progression with
  | [] => ([], rng)
  | chord :: rest =>
      if isDominant chord then
        let (fire, rng1) := shouldSubstitute probability rng in
        if fire then
          let resolvesDown :=
            match rest with
            | next :: _ =>
                let nextRoot := value (root next) in
                let curRoot := value (root chord) in
                let interval := Z.rem (nextRoot - curRoot + 12) 12 in
                (interval =? 5) || (interval =? 7)
            | [] => false
            end in
          let (out, rng2) := apply rest probability rng1 in
          ((if resolvesDown then substitute chord else chord) :: out, rng2)
        else
          let (out, rng2) := apply rest probability rng1 in
          (chord :: out, rng2)
      else
        let (out, rng1) := apply rest probability rng in
        (chord :: out, rng1)
  end.
End TritoneSubstitution.

(** ** VoiceLeading/VoiceLeadingOptimizer.h *)

Module VoiceLeadingOptimizer.
(** The inner [for (i = 0; i < current.size(); ++i)] loop, entered at
    index [i] with [todo] positions left: the first position whose
    tritone substitute strictly lowers the total cost is taken
    ([break]); [None] is a full scan without improvement. *)
Fixpoint scan (current : list ChordSymbol) (currentCost : Z)
         (i todo : nat) : option (list ChordSymbol * Z) :=
  match todo with
  | O => None
  | S todo' =>
      match current !! i with
      | Some chord =>
          if TritoneSubstitution.isDominant chord then
            let test := <[i := TritoneSubstitution.substitute chord]> current in
            let newCost := progressionVoiceLeadingCost test in
            if newCost <? currentCost then Some (test, newCost)
            else scan current currentCost (S i) todo'
          else scan current currentCost (S i) todo'
      | None => None
      end
  end.

(** The outer [for (iter = 0; iter < maxIterations; ++iter)] loop. *)
Fixpoint iterate (iters : nat) (current : list ChordSymbol)
         (currentCost : Z) : list ChordSymbol :=
  match iters with
  | O => current
  | S iters' =>
      match scan current currentCost 0 (length current) with
      | Some (test, newCost) => iterate iters' test newCost
      | None => current
      end
  end.

Definition optimize (chords : list ChordSymbol) (maxIterations : Z)
  : list ChordSymbol :=
  iterate (Z.to_nat maxIterations) chords
          (progressionVoiceLeadingCost chords).
End VoiceLeadingOptimizer.

(** ** Substitution/BackdoorSubstitution.h *)

Module BackdoorSubstitution.
Definition isDominant (chord : ChordSymbol) : bool :=
  ChordQuality.eqb (quality chord) ChordQuality.DOM7.

Definition isTonic (chord : ChordSymbol) : bool :=
  ChordQuality.eqb (quality chord) ChordQuality.MAJ7
  || ChordQuality.eqb (quality chord) ChordQuality.MAJ6.

Definition createBackdoor (tonicRoot : PitchClass) : ChordSymbol :=
  let backdoorRoot := transpose tonicRoot 10 in
  mkChord backdoorRoot ChordQuality.DOM7.

Definition canApplyBackdoor (chord nextChord : ChordSymbol) : bool :=
  if negb (isDominant chord) then false
  else
    let expectedVRoot := Z.rem (value (root nextChord) + 7) 12 in
    (value (root chord) =? expectedVRoot) && isTonic nextChord.

Fixpoint apply (progression : list ChordSymbol) (probability : Q)
         (rng : Rng) : list ChordSymbol * Rng :=
  match progression with
  | [] => ([], rng)
  | chord :: rest =>
      match rest with
      | nextChord :: _ =>
          if canApplyBackdoor chord nextChord then
            let (fire, rng1) := shouldSubstitute probability rng in
            let (out, rng2) := apply rest probability rng1 in
            ((if fire then createBackdoor (root nextChord) else chord)
               :: out, rng2)
          else
            let (out, rng1) := apply rest probability rng in
            (chord :: out, rng1)
      | [] => ([chord], rng)
      end
  end.
End BackdoorSubstitution.

(** ** Substitution/ColtraneSubstitution.h *)

Module ColtraneSubstitution.
Definition substituteIiVI (ii v i : ChordSymbol) : list ChordSymbol :=
  let tonicRoot := root i in
  let center2 := transpose tonicRoot 4 in
  let center3 := transpose tonicRoot 8 in
  [ ii;
    mkChord (transpose center2 7) ChordQuality.DOM7;
    mkChord center2 ChordQuality.MAJ7;
    mkChord (transpose center3 7) ChordQuality.DOM7;
    mkChord center3 ChordQuality.MAJ7;
    v;
    i ].

Definition isIiVI (c1 c2 c3 : ChordSymbol) : bool :=
  if negb (ChordQuality.eqb (quality c1) ChordQuality.MIN7) then false
  else if negb (ChordQuality.eqb (quality c2) ChordQuality.DOM7) then false
  else if negb (ChordQuality.eqb (quality c3) ChordQuality.MAJ7)
          && negb (ChordQuality.eqb (quality c3) ChordQuality.MAJ6)
       then false
  else
    let tonicRoot := value (root c3) in
    let expectedIi := Z.rem (tonicRoot + 2) 12 in
    let expectedV := Z.rem (tonicRoot + 7) 12 in
    (value (root c1) =? expectedIi) && (value (root c2) =? expectedV).

(** The loop over [i]; on a match the seven chords are appended and
    [i += 2] skips the original V and I. *)
Fixpoint apply (progression : list ChordSymbol) (probability : Q)
         (rng : Rng) : list ChordSymbol * Rng :=
  match progression with
  | [] => ([], rng)
  | chord :: rest =>
      match rest with
      | next1 :: next2 :: rest' =>
          let (fire, rng1) := shouldSubstitute probability rng in
          if fire && isIiVI chord next1 next2 then
            let (out, rng2) := apply rest' probability rng1 in
            (substituteIiVI chord next1 next2 ++ out, rng2)
          else
            let (out, rng2) := apply rest probability rng1 in
            (chord :: out, rng2)
      | _ =>
          let (out, rng1) := apply rest probability rng in
          (chord :: out, rng1)
      end
  end.
End ColtraneSubstitution.


(** ** Grammar/NonTerminal.h *)

Module NonTerminal.
Inductive t : Type := S | T | D | SD | PROL | PREP | PHRASE.

Definition eqb (a b : t) : bool :=
  match a, b with
  | S, S | T, T | D, D | SD, SD | PROL, PROL | PREP, PREP
  | PHRASE, PHRASE => true
  | _, _ => false
  end.
End NonTerminal.

Module RuleType.
Inductive t : Type :=
| PROLONGATION | PREPARATION | SUBSTITUTION | TERMINAL | STRUCTURAL.

Definition eqb (a b : t) : bool :=
  match a, b with
  | PROLONGATION, PROLONGATION | PREPARATION, PREPARATION
  | SUBSTITUTION, SUBSTITUTION | TERMINAL, TERMINAL
  | STRUCTURAL, STRUCTURAL => true
  | _, _ => false
  end.
End RuleType.

(** ** Grammar/GrammarRule.h *)

Record NTSymbol : Type := MkNTSymbol {
  nts_nt : NonTerminal.t;
  nts_key : option Z
}.

Record TerminalSymbol : Type := MkTerminalSymbol {
  term_degree : string;
  term_quality : string;
  term_keyRelative : bool
}.

(** [TerminalSymbol(deg, qual, relative = true)]. *)
Definition mkTerminal (deg qual : string) : TerminalSymbol :=
  MkTerminalSymbol deg qual true.

(** [using Symbol = std::variant<NTSymbol, TerminalSymbol>]. *)
Inductive Symbol : Type :=
| SymNT (nts : NTSymbol)
| SymT (term : TerminalSymbol).

Definition isTerminal (sym : Symbol) : bool :=
  match sym with SymT _ => true | SymNT _ => false end.

Record GrammarRule : Type := MkGrammarRule {
  rule_lhs : NonTerminal.t;
  rule_rhs : list Symbol;
  rule_prob : Q;
  rule_type : RuleType.t;
  rule_name : string
}.

(** The constructor clamps the probability into [0,1]. *)
Definition mkGrammarRule (lhs : NonTerminal.t) (rhs : list Symbol) (prob : Q)
           (type : RuleType.t) (name : string) : GrammarRule :=
  let p1 := if Qlt_bool prob 0 then 0%Q else prob in
  let p2 := if Qlt_bool 1 p1 then 1%Q else p1 in
  MkGrammarRule lhs rhs p2 type name.

(** [prob_ = std::max(0.0f, std::min(1.0f, p))]. *)
Definition setProb (r : GrammarRule) (p : Q) : GrammarRule :=
  MkGrammarRule (rule_lhs r) (rule_rhs r) (Qmax 0 (Qmin 1 p))
                (rule_type r) (rule_name r).

Definition degreeTable : list (string * Z) :=
  [ ("I", 0); ("bII", 1); ("II", 2); ("bIII", 3); ("III", 4);
    ("IV", 5); ("#IV", 6); ("V", 7); ("bVI", 8); ("VI", 9);
    ("bVII", 10); ("VII", 11);
    ("i", 0); ("ii", 2); ("iii", 4); ("iv", 5); ("v", 7); ("vi", 9);
    ("vii", 11);
    ("V/V", 2); ("V/ii", 9); ("V/IV", 0) ]%string.

Fixpoint assoc_find (k : string) (tbl : list (string * Z)) : option Z :=
  match tbl with
  | [] => None
  | (k', v) :: tbl' => if String.eqb k k' then Some v else assoc_find k tbl'
  end.

Definition degreeToSemitones (degree : string) : Z :=
  match assoc_find degree degreeTable with
  | Some v => v
  | None => 0
  end.

Definition stringToChordQuality (qual : string) : ChordQuality.t :=
  if String.eqb qual "maj7" then ChordQuality.MAJ7
  else if String.eqb qual "min7" then ChordQuality.MIN7
  else if String.eqb qual "7" then ChordQuality.DOM7
  else if String.eqb qual "m7b5" then ChordQuality.HDIM7
  else if String.eqb qual "dim7" then ChordQuality.DIM7
  else if String.eqb qual "maj6" then ChordQuality.MAJ6
  else if String.eqb qual "min6" then ChordQuality.MIN6
  else ChordQuality.MAJ7.

(** ** Grammar/PCFG.h, PCFG.cpp *)

(** [rules_] maps a non-terminal to its rule list; a missing key and an
    empty list are the same to every reader ([getRules] returns [{}]).
    Every rule object of the program is created by the five-argument
    [addRule] and is held by one list entry, so lists hold the rules
    themselves.  [rng_] is the grammar's own generator. *)
Record PCFG : Type := MkPCFG {
  startSymbol_ : NonTerminal.t;
  rules_ : NonTerminal.t -> list GrammarRule;
  rng_ : Rng
}.

(** [PCFG(startSymbol)]: no rules; [rng_] seeded from
    [std::random_device], here the stream [entropy]. *)
Definition newPCFG (startSymbol : NonTerminal.t) (entropy : Rng) : PCFG :=
  MkPCFG startSymbol (fun _ => []) entropy.

Definition addRule (g : PCFG) (lhs : NonTerminal.t) (rhs : list Symbol)
           (prob : Q) (type : RuleType.t) (name : string) : PCFG :=
  let rule := mkGrammarRule lhs rhs prob type name in
  MkPCFG (startSymbol_ g)
         (fun nt => if NonTerminal.eqb nt lhs then rules_ g nt ++ [rule]
                    else rules_ g nt)
         (rng_ g).

Definition getRules (g : PCFG) (nt : NonTerminal.t) : list GrammarRule :=
  rules_ g nt.

Definition totalProb (ruleList : list GrammarRule) : Q :=
  fold_left (fun total rule => (total + rule_prob rule)%Q) ruleList 0%Q.

Definition normalizeList (ruleList : list GrammarRule) : list GrammarRule :=
  let total := totalProb ruleList in
  if Qlt_bool 0 total
  then map (fun rule => setProb rule (rule_prob rule / total)%Q) ruleList
  else ruleList.

Definition normalize (g : PCFG) : PCFG :=
  MkPCFG (startSymbol_ g) (fun nt => normalizeList (rules_ g nt)) (rng_ g).

(** The cumulative-sum scan of [sampleRule]; [None] when no prefix sum
    reaches [r]. *)
Fixpoint pickCumulative (r cumsum : Q) (ruleList : list GrammarRule)
  : option GrammarRule :=
  match ruleList with
  | [] => None
  | rule :: rest =>
      let cumsum' := (cumsum + rule_prob rule)%Q in
      if Qle_bool r cumsum' then Some rule
      else pickCumulative r cumsum' rest
  end.

(** [sampleRule]: [None] is the null pointer. *)
Definition sampleRule (g : PCFG) (nt : NonTerminal.t)
  : option GrammarRule * PCFG :=
  let ruleList := getRules g nt in
  match ruleList with
  | [] => (None, g)
  | _ =>
      let total := totalProb ruleList in
      if Qeq_bool total 0 then
        let (idx, rng') := uniform_index (length ruleList) (rng_ g) in
        (ruleList !! idx, MkPCFG (startSymbol_ g) (rules_ g) rng')
      else
        let (r, rng') := uniform_real 0 total (rng_ g) in
        (match pickCumulative r 0 ruleList with
         | Some rule => Some rule
         | None => last ruleList
         end,
         MkPCFG (startSymbol_ g) (rules_ g) rng')
  end.

(** [rng_.seed(seed)].  A seed is named by the variate sequence the engine
    produces from it. *)
Definition setSeed (g : PCFG) (seed : Rng) : PCFG :=
  MkPCFG (startSymbol_ g) (rules_ g) seed.

Definition ntsym (n : NonTerminal.t) : Symbol := SymNT (MkNTSymbol n None).
Definition tmsym (deg qual : string) : Symbol := SymT (mkTerminal deg qual).

Definition createBaseGrammar (entropy : Rng) : PCFG :=
  let g := newPCFG NonTerminal.S entropy in
  let g := addRule g NonTerminal.S [ntsym NonTerminal.T]
             (3 # 10) RuleType.STRUCTURAL "single_phrase" in
  let g := addRule g NonTerminal.S
             [ntsym NonTerminal.T; ntsym NonTerminal.D; ntsym NonTerminal.T]
             (5 # 10) RuleType.STRUCTURAL "tdt_form" in
  let g := addRule g NonTerminal.S [ntsym NonTerminal.T; ntsym NonTerminal.T]
             (2 # 10) RuleType.STRUCTURAL "tt_form" in
  let g := addRule g NonTerminal.T [tmsym "I" "maj7"]
             (3 # 10) RuleType.TERMINAL "t_terminal" in
  let g := addRule g NonTerminal.T [ntsym NonTerminal.D; ntsym NonTerminal.T]
             (35 # 100) RuleType.PREPARATION "authentic_cadence" in
  let g := addRule g NonTerminal.T [ntsym NonTerminal.SD; ntsym NonTerminal.T]
             (15 # 100) RuleType.PREPARATION "plagal_cadence" in
  let g := addRule g NonTerminal.T [ntsym NonTerminal.T; ntsym NonTerminal.PROL]
             (1 # 10) RuleType.PROLONGATION "t_right_prolong" in
  let g := addRule g NonTerminal.T [ntsym NonTerminal.PROL; ntsym NonTerminal.T]
             (1 # 10) RuleType.PROLONGATION "t_left_prolong" in
  let g := addRule g NonTerminal.D [tmsym "V" "7"]
             (4 # 10) RuleType.TERMINAL "d_terminal" in
  let g := addRule g NonTerminal.D [ntsym NonTerminal.PREP; ntsym NonTerminal.D]
             (4 # 10) RuleType.PREPARATION "ii_v" in
  let g := addRule g NonTerminal.D [ntsym NonTerminal.D; ntsym NonTerminal.PROL]
             (1 # 10) RuleType.PROLONGATION "d_prolong" in
  let g := addRule g NonTerminal.D [tmsym "bII" "7"]
             (1 # 10) RuleType.SUBSTITUTION "tritone_sub" in
  let g := addRule g NonTerminal.SD [tmsym "IV" "maj7"]
             (5 # 10) RuleType.TERMINAL "sd_iv" in
  let g := addRule g NonTerminal.SD [tmsym "ii" "min7"]
             (3 # 10) RuleType.TERMINAL "sd_ii" in
  let g := addRule g NonTerminal.SD [tmsym "iv" "min7"]
             (2 # 10) RuleType.TERMINAL "sd_borrowed_iv" in
  let g := addRule g NonTerminal.PREP [tmsym "ii" "min7"]
             (5 # 10) RuleType.TERMINAL "prep_ii" in
  let g := addRule g NonTerminal.PREP [tmsym "IV" "maj7"]
             (2 # 10) RuleType.TERMINAL "prep_iv" in
  let g := addRule g NonTerminal.PREP [tmsym "V/V" "7"]
             (15 # 100) RuleType.TERMINAL "prep_secondary_dom" in
  let g := addRule g NonTerminal.PREP
             [ntsym NonTerminal.PREP; ntsym NonTerminal.PREP]
             (15 # 100) RuleType.PROLONGATION "prep_chain" in
  let g := addRule g NonTerminal.PROL [tmsym "iii" "min7"]
             (3 # 10) RuleType.TERMINAL "prol_iii" in
  let g := addRule g NonTerminal.PROL [tmsym "vi" "min7"]
             (4 # 10) RuleType.TERMINAL "prol_vi" in
  let g := addRule g NonTerminal.PROL [tmsym "I" "maj7"]
             (3 # 10) RuleType.TERMINAL "prol_i" in
  normalize g.

(** ** Grammar/Generator.h, Generator.cpp *)

Record GeneratorConfig : Type := MkGeneratorConfig {
  maxDepth : Z;
  minChords : Z;
  maxChords : Z;
  cfg_key : Z;
  cfg_seed : option Rng
}.

Definition defaultConfig : GeneratorConfig :=
  MkGeneratorConfig 6 4 32 0 None.

(** [struct DerivationNode]: symbol, key, owned children, rule used. *)
#[warnings="-register-all"]
Inductive DerivationNode : Type :=
| Node (symbol : Symbol) (key : Z) (children : list DerivationNode)
       (ruleUsed : option GrammarRule).

Fixpoint getTerminals (n : DerivationNode) : list (TerminalSymbol * Z) :=
  match n with
  | Node (SymT term) key _ _ => [(term, key)]
  | Node (SymNT _) _ children _ => flat_map getTerminals children
  end.

Record HarmonyGenerator : Type := MkHarmonyGenerator {
  grammar_ : PCFG;
  config_ : GeneratorConfig
}.

(** [HarmonyGenerator(PCFG grammar, GeneratorConfig config)]. *)
Definition newHarmonyGenerator (grammar : PCFG) (config : GeneratorConfig)
  : HarmonyGenerator :=
  match cfg_seed config with
  | Some seed => MkHarmonyGenerator (setSeed grammar seed) config
  | None => MkHarmonyGenerator grammar config
  end.

Definition getDefaultTerminal (n : NonTerminal.t) : TerminalSymbol :=
  match n with
  | NonTerminal.T => mkTerminal "I" "maj7"
  | NonTerminal.D => mkTerminal "V" "7"
  | NonTerminal.SD => mkTerminal "IV" "maj7"
  | NonTerminal.PREP => mkTerminal "ii" "min7"
  | NonTerminal.PROL => mkTerminal "vi" "min7"
  | NonTerminal.S | NonTerminal.PHRASE => mkTerminal "I" "maj7"
  end.

(** What [derive] reads and writes besides its arguments: the grammar (for
    its generator [rng_]) and the function-local
    [static std::mt19937 rng(std::random_device{}())] of the depth-limit
    branch. *)
Record DeriveState : Type := MkDeriveState {
  ds_grammar : PCFG;
  ds_static : Rng
}.

(** The key a right-hand-side symbol is derived under.  The sum
    [currentKey + degreeToSemitones(target)] is an [int] sum, taken here in
    [Z]; the two agree when [currentKey + 11] is within the range of
    [int]. *)
Definition childKeyOf (currentKey : Z) (rhsSym : Symbol) : Z :=
  match rhsSym with
  | SymNT childNts =>
      match nts_key childNts with
      | Some k => k
      | None => currentKey
      end
  | SymT term =>
      match String.index 0 "V/" (term_degree term) with
      | Some _ =>
          match String.index 0 "/" (term_degree term) with
          | Some slashPos =>
              let target :=
                String.substring (slashPos + 1)
                  (String.length (term_degree term) - (slashPos + 1))
                  (term_degree term) in
              Z.rem (currentKey + degreeToSemitones target) 12
          | None => currentKey
          end
      | None => currentKey
      end
  end.

Definition childSymOf (childKey : Z) (rhsSym : Symbol) : Symbol :=
  match rhsSym with
  | SymNT childNts => SymNT (MkNTSymbol (nts_nt childNts) (Some childKey))
  | SymT _ => rhsSym
  end.

(** The loop over [rule->getRhs()], with [rec] the recursive call at
    [depth + 1]. *)
Fixpoint deriveChildren
         (rec : Symbol -> Z -> DeriveState -> option (DerivationNode * DeriveState))
         (currentKey : Z) (rhs : list Symbol) (st : DeriveState)
  : option (list DerivationNode * DeriveState) :=
  match rhs with
  | [] => Some ([], st)
  | rhsSym :: rest =>
      let childKey := childKeyOf currentKey rhsSym in
      '(childNode, st1) ← rec (childSymOf childKey rhsSym) childKey st;
      '(nodes, st2) ← deriveChildren rec currentKey rest st1;
      Some (childNode :: nodes, st2)
  end.

Definition defaultNode (symbol : Symbol) (n : NonTerminal.t) (currentKey : Z)
  : DerivationNode :=
  Node symbol currentKey
       [Node (SymT (getDefaultTerminal n)) currentKey [] None] None.

(** [HarmonyGenerator::derive].  The recursion of the source is bounded
    only by the grammar; here it runs on [fuel], and [None] means the fuel
    ran out. *)
Fixpoint derive (fuel : nat) (cfg : GeneratorConfig) (symbol : Symbol)
         (depth key : Z) (st : DeriveState)
  : option (DerivationNode * DeriveState) :=
  match fuel with
  | O => None
  | S fuel' =>
      match symbol with
      | SymT _ => Some (Node symbol key [] None, st)
      | SymNT nts =>
          let n := nts_nt nts in
          let currentKey :=
            match nts_key nts with Some k => k | None => key end in
          let expand (rule : GrammarRule) (st' : DeriveState) :=
            '(children, st'') ←
              deriveChildren
                (fun sym k s => derive fuel' cfg sym (depth + 1) k s)
                currentKey (rule_rhs rule) st';
            Some (Node symbol currentKey children (Some rule), st'') in
          if maxDepth cfg <=? depth then
            let rules := getRules (ds_grammar st) n in
            let terminalRules :=
              filter (fun r => RuleType.eqb (rule_type r) RuleType.TERMINAL = true)
                     rules in
            match terminalRules with
            | [] => Some (defaultNode symbol n currentKey, st)
            | _ =>
                let (idx, rng') :=
                  uniform_index (length terminalRules) (ds_static st) in
                match terminalRules !! idx with
                | Some rule => expand rule (MkDeriveState (ds_grammar st) rng')
                | None => None
                end
            end
          else
            let (sampled, g') := sampleRule (ds_grammar st) n in
            match sampled with
            | Some rule => expand rule (MkDeriveState g' (ds_static st))
            | None =>
                Some (defaultNode symbol n currentKey,
                      MkDeriveState g' (ds_static st))
            end
      end
  end.

Definition terminalToChord (terminal : TerminalSymbol) (key : Z)
  : ChordSymbol :=
  let degree :=
    match String.index 0 "/" (term_degree terminal) with
    | Some _ => "V"%string
    | None => term_degree terminal
    end in
  let interval := degreeToSemitones degree in
  let rootPc := Z.rem (key + interval) 12 in
  let rootPc := if rootPc <? 0 then rootPc + 12 else rootPc in
  mkChord (mkPitch rootPc) (stringToChordQuality (term_quality terminal)).

Definition terminalsToChords (terminals : list (TerminalSymbol * Z))
  : list ChordSymbol :=
  map (fun '(term, key) => terminalToChord term key) terminals.

Definition setKey (gen : HarmonyGenerator) (key : Z) : HarmonyGenerator :=
  let k := Z.rem key 12 in
  let k := if k <? 0 then k + 12 else k in
  let c := config_ gen in
  MkHarmonyGenerator (grammar_ gen)
    (MkGeneratorConfig (maxDepth c) (minChords c) (maxChords c) k (cfg_seed c)).

Definition setMaxDepth (gen : HarmonyGenerator) (depth : Z)
  : HarmonyGenerator :=
  let c := config_ gen in
  MkHarmonyGenerator (grammar_ gen)
    (MkGeneratorConfig (Z.max 1 depth) (minChords c) (maxChords c)
                       (cfg_key c) (cfg_seed c)).

(** [HarmonyGenerator::setSeed]: "Set random seed for reproducibility". *)
Definition generatorSetSeed (gen : HarmonyGenerator) (seed : Rng)
  : HarmonyGenerator :=
  let c := config_ gen in
  MkHarmonyGenerator (setSeed (grammar_ gen) seed)
    (MkGeneratorConfig (maxDepth c) (minChords c) (maxChords c)
                       (cfg_key c) (Some seed)).

(** [generateWithTree] followed by [generate]'s projection: the chords,
    the generator with its advanced [rng_], and the advanced static
    generator of [derive].  [fuel] bounds the recursion of [derive]. *)
Definition generatorGenerate (fuel : nat) (gen : HarmonyGenerator)
           (static : Rng)
  : option (list ChordSymbol * HarmonyGenerator * Rng) :=
  let cfg := config_ gen in
  '(tree, st) ←
    derive fuel cfg
           (SymNT (MkNTSymbol (startSymbol_ (grammar_ gen)) (Some (cfg_key cfg))))
           0 (cfg_key cfg) (MkDeriveState (grammar_ gen) static);
  Some (terminalsToChords (getTerminals tree),
        MkHarmonyGenerator (ds_grammar st) cfg, ds_static st).

(** The convenience function [generateProgression(length, key, seed)]. *)
Definition generateProgression (fuel : nat) (length keyPitchClass : Z)
           (seed : option Rng) (entropy static : Rng)
  : option (list ChordSymbol * Rng) :=
  let config :=
    MkGeneratorConfig (Z.min 6 (Z.quot length 2 + 2)) length (length * 2)
                      (Z.rem keyPitchClass 12) seed in
  let generator := newHarmonyGenerator (createBaseGrammar entropy) config in
  '(chords, _, static') ← generatorGenerate fuel generator static;
  let n := Z.of_nat (List.length chords) in
  if length <? n then Some (take (Z.to_nat length) chords, static')
  else
    let tonic := mkChord (mkPitch (Z.rem keyPitchClass 12)) ChordQuality.MAJ7 in
    Some (chords ++ replicate (Z.to_nat (length - n)) tonic, static').

(** ** Style/StyleVector.h, StylePresets.h *)

Record StyleVector : Type := MkStyleVector {
  tritoneSubProb : Q;
  backdoorProb : Q;
  coltraneProb : Q;
  iiVPreference : Q;
  secondaryDomProb : Q;
  modalInterchange : Q;
  minorIvProb : Q;
  chromaticApproach : Q;
  diminishedApproach : Q;
  dominantChainDepth : Z;
  prolongationDepth : Z;
  rhythmDensity : Q;
  turnaroundProb : Q;
  extensionLevel : Q;
  alterationProb : Q
}.

Definition clamp01 (x : Q) : Q :=
  if Qlt_bool x 0 then 0%Q else if Qlt_bool 1 x then 1%Q else x.

Definition validate (s : StyleVector) : StyleVector :=
  MkStyleVector
    (clamp01 (tritoneSubProb s)) (clamp01 (backdoorProb s))
    (clamp01 (coltraneProb s)) (clamp01 (iiVPreference s))
    (clamp01 (secondaryDomProb s)) (clamp01 (modalInterchange s))
    (clamp01 (minorIvProb s)) (clamp01 (chromaticApproach s))
    (clamp01 (diminishedApproach s))
    (Z.max 1 (dominantChainDepth s)) (Z.max 0 (prolongationDepth s))
    (clamp01 (rhythmDensity s)) (clamp01 (turnaroundProb s))
    (clamp01 (extensionLevel s)) (clamp01 (alterationProb s)).

Module StylePresets.
Definition BEBOP : StyleVector :=
  MkStyleVector (3 # 10) (15 # 100) (5 # 100) (9 # 10) (4 # 10) (2 # 10)
                (15 # 100) (4 # 10) (2 # 10) 4 2 (8 # 10) (6 # 10)
                (5 # 10) (3 # 10).
End StylePresets.

(** ** Substitution/SubstitutionEngine.h *)

(** The function-local static generators of the post-processing stages:
    [StyleEngine::adjustLength] and the [shouldSubstitute] of each of the
    three substitution classes. *)
Record StaticRngs : Type := MkStaticRngs {
  derive_rng : Rng;
  adjustLength_rng : Rng;
  backdoor_rng : Rng;
  tritone_rng : Rng;
  coltrane_rng : Rng
}.

Module SubstitutionEngine.
Definition apply (progression : list ChordSymbol) (style : StyleVector)
           (w : StaticRngs) : list ChordSymbol * StaticRngs :=
  let result := progression in
  let '(result, bd) :=
    if Qlt_bool (2 # 10) (modalInterchange style) then
      BackdoorSubstitution.apply result (modalInterchange style * (3 # 10))%Q
                                 (backdoor_rng w)
    else (result, backdoor_rng w) in
  let '(result, tr) :=
    if Qlt_bool (1 # 10) (tritoneSubProb style) then
      TritoneSubstitution.apply result (tritoneSubProb style) (tritone_rng w)
    else (result, tritone_rng w) in
  let '(result, ct) :=
    if (4 <=? dominantChainDepth style)
       && Qlt_bool (4 # 10) (chromaticApproach style) then
      ColtraneSubstitution.apply result (chromaticApproach style * (15 # 100))%Q
                                 (coltrane_rng w)
    else (result, coltrane_rng w) in
  (result, MkStaticRngs (derive_rng w) (adjustLength_rng w) bd tr ct).
End SubstitutionEngine.

(** ** Style/StyleEngine.h, StyleEngine.cpp *)

(** [rule->setProb(p)] on every rule of [n] that [select]s: the pointers
    [getRules] hands out are the grammar's own rule objects. *)
Definition reweigh (g : PCFG) (n : NonTerminal.t)
           (f : GrammarRule -> GrammarRule) : PCFG :=
  MkPCFG (startSymbol_ g)
         (fun n' => if NonTerminal.eqb n' n then map f (rules_ g n')
                    else rules_ g n')
         (rng_ g).

Definition contains (needle hay : string) : bool :=
  match String.index 0 needle hay with Some _ => true | None => false end.

Definition styleToPCFG (style : StyleVector) (entropy : Rng) : PCFG :=
  let grammar := createBaseGrammar entropy in
  let grammar := reweigh grammar NonTerminal.D (fun rule =>
    if String.eqb (rule_name rule) "ii_v" then
      setProb rule ((4 # 10) * iiVPreference style)%Q
    else if String.eqb (rule_name rule) "d_terminal" then
      setProb rule ((4 # 10) * (1 - iiVPreference style * (3 # 10)))%Q
    else if String.eqb (rule_name rule) "tritone_sub" then
      setProb rule ((15 # 100) * tritoneSubProb style)%Q
    else rule) in
  let grammar := reweigh grammar NonTerminal.T (fun rule =>
    if contains "prolong" (rule_name rule) then
      setProb rule ((1 # 10) * (1 + inject_Z (prolongationDepth style) * (2 # 10)))%Q
    else if String.eqb (rule_name rule) "authentic_cadence" then
      setProb rule ((35 # 100) * iiVPreference style)%Q
    else if String.eqb (rule_name rule) "plagal_cadence" then
      setProb rule ((15 # 100) * (1 + modalInterchange style * (5 # 10)))%Q
    else rule) in
  let grammar := reweigh grammar NonTerminal.PREP (fun rule =>
    if String.eqb (rule_name rule) "prep_chain" then
      setProb rule ((15 # 100) * Qmin 1 (inject_Z (dominantChainDepth style) / 4))%Q
    else if String.eqb (rule_name rule) "prep_secondary_dom" then
      setProb rule ((15 # 100) * secondaryDomProb style)%Q
    else rule) in
  let grammar := reweigh grammar NonTerminal.SD (fun rule =>
    if String.eqb (rule_name rule) "sd_borrowed_iv" then
      setProb rule ((2 # 10) * (1 + modalInterchange style))%Q
    else rule) in
  normalize grammar.

Record StyleEngine : Type := MkStyleEngine {
  style_ : StyleVector;
  generator_ : HarmonyGenerator
}.

(** [updateGrammar]: a fresh grammar from the style and a fresh generator
    over a copy of it (default configuration, no seed). *)
Definition updateGrammar (style : StyleVector) (entropy : Rng) : StyleEngine :=
  MkStyleEngine style
    (newHarmonyGenerator (styleToPCFG style entropy) defaultConfig).

(** [StyleEngine(const StyleVector&)]. *)
Definition newStyleEngine (style : StyleVector) (entropy : Rng) : StyleEngine :=
  updateGrammar style entropy.

Definition setStyle (style : StyleVector) (entropy : Rng) : StyleEngine :=
  updateGrammar (validate style) entropy.

(** The padding loop of [adjustLength]; every pass appends at least one
    chord, so [target - size] passes are enough. *)
Fixpoint padLoop (passes : nat) (style : StyleVector) (target key : Z)
         (chords : list ChordSymbol) (rng : Rng)
  : list ChordSymbol * Rng :=
  match passes with
  | O => (chords, rng)
  | S passes' =>
      if Z.of_nat (length chords) <? target then
        let (u, rng1) := uniform_real 0 1 rng in
        if Qlt_bool u (turnaroundProb style)
           && (Z.of_nat (length chords) <? target - 1) then
          let iiRoot := transpose (mkPitch key) 2 in
          let vRoot := transpose (mkPitch key) 7 in
          let chords1 := chords ++ [mkChord iiRoot ChordQuality.MIN7] in
          let chords2 :=
            if Z.of_nat (length chords1) <? target
            then chords1 ++ [mkChord vRoot ChordQuality.DOM7]
            else chords1 in
          padLoop passes' style target key chords2 rng1
        else
          padLoop passes' style target key
                  (chords ++ [mkChord (mkPitch key) ChordQuality.MAJ7]) rng1
      else (chords, rng)
  end.

Definition adjustLength (style : StyleVector) (chords : list ChordSymbol)
           (target key : Z) (rng : Rng) : list ChordSymbol * Rng :=
  if target <=? Z.of_nat (length chords) then
    (take (Z.to_nat target) chords, rng)
  else
    let (chords', rng') :=
      padLoop (Z.to_nat (target - Z.of_nat (length chords)))
              style target key chords rng in
    if target <? Z.of_nat (length chords')
    then (take (Z.to_nat target) chords', rng')
    else (chords', rng').

(** [StyleEngine::generate(length, key)], on [fuel] for the derivation and
    over the static generators [w] of the stages it runs. *)
Definition generate (fuel : nat) (e : StyleEngine) (length key : Z)
           (w : StaticRngs)
  : option (list ChordSymbol * StyleEngine * StaticRngs) :=
  let gen := setKey (generator_ e) key in
  let gen := setMaxDepth gen (Z.min 6 (Z.quot length 2 + 2)) in
  '(chords, gen', dr) ← generatorGenerate fuel gen (derive_rng w);
  let (chords, ar) :=
    adjustLength (style_ e) chords length key (adjustLength_rng w) in
  let w1 := MkStaticRngs dr ar (backdoor_rng w) (tritone_rng w)
                         (coltrane_rng w) in
  let (chords, w2) := SubstitutionEngine.apply chords (style_ e) w1 in
  let chords :=
    if Qlt_bool (5 # 10) (extensionLevel (style_ e))
    then VoiceLeadingOptimizer.optimize chords 50
    else chords in
  let chords :=
    if length <? Z.of_nat (List.length chords)
    then take (Z.to_nat length) chords
    else chords in
  Some (chords, MkStyleEngine (style_ e) gen', w2).

(** ** Concrete chords, draws and inputs used by the examples *)

Definition Dm7 : ChordSymbol := mkChord Pitch.D ChordQuality.MIN7.
Definition G7 : ChordSymbol := mkChord Pitch.G ChordQuality.DOM7.
Definition Cmaj7 : ChordSymbol := mkChord Pitch.C ChordQuality.MAJ7.
Definition Bb7 : ChordSymbol := mkChord Pitch.Bb ChordQuality.DOM7.
Definition B7 : ChordSymbol := mkChord Pitch.B ChordQuality.DOM7.
Definition Emaj7 : ChordSymbol := mkChord Pitch.E ChordQuality.MAJ7.
Definition Eb7 : ChordSymbol := mkChord Pitch.Eb ChordQuality.DOM7.
Definition Abmaj7 : ChordSymbol := mkChord Pitch.Ab ChordQuality.MAJ7.

(** A source whose every draw is the constant [u]. *)
Definition constant_draws (u : Q) : Rng := fun _ => u.

(** The first pairing of [voiceLeadingCost] (third to third, seventh to
    seventh) and the voice-exchange pairing are unison. *)
Definition straight_unison (a b : ChordSymbol) : Prop :=
  minInterval (third a) (third b) = 0
  /\ minInterval (seventh a) (seventh b) = 0.

Definition exchange_unison (a b : ChordSymbol) : Prop :=
  minInterval (third a) (seventh b) = 0
  /\ minInterval (seventh a) (third b) = 0.

(** ** Well-formedness of the grammar a generator runs on *)

Definition allNonTerminals : list NonTerminal.t :=
  [ NonTerminal.S; NonTerminal.T; NonTerminal.D; NonTerminal.SD;
    NonTerminal.PROL; NonTerminal.PREP; NonTerminal.PHRASE ].

(** A rule of kind [TERMINAL] has only terminals on its right-hand side.
    Rules have no setter for kind or right-hand side, and
    [createBaseGrammar] is the only producer of rules, so this holds of
    every grammar a [StyleEngine] holds. *)
Definition terminal_rule_is_flat (r : GrammarRule) : bool :=
  negb (RuleType.eqb (rule_type r) RuleType.TERMINAL)
  || forallb isTerminal (rule_rhs r).

Definition flat_terminal_rules (g : PCFG) : bool :=
  forallb (fun n => forallb terminal_rule_is_flat (rules_ g n))
          allNonTerminals.

Definition StyleEngine_ok (e : StyleEngine) : bool :=
  flat_terminal_rules (grammar_ (generator_ e)).

(** The static generators of a run, all delivering the constant [u]. *)
Definition constant_statics (u : Q) : StaticRngs :=
  MkStaticRngs (constant_draws u) (constant_draws u) (constant_draws u)
               (constant_draws u) (constant_draws u).

(** A source delivering the listed draws, then 0 for ever. *)
Definition draws_of (l : list Q) : Rng := fun n => nth n l 0%Q.

Definition Fmaj7 : ChordSymbol := mkChord Pitch.F ChordQuality.MAJ7.
Definition Db7 : ChordSymbol := mkChord Pitch.Db ChordQuality.DOM7.

(** The variates of a seed under which the start symbol expands by
    "single_phrase" and the tonic by "plagal_cadence". *)
Definition plagal_seed : Rng := draws_of [1 # 10; 7 # 10].

(** A state of the static generator of [derive]: its next draws. *)
Definition derive_static_example : Rng := draws_of [0%Q; 1 # 2; 1 # 2].

(** * Further code of the cited files *)

(** ** Machine integers *)

(** The range of [int].  The integer arithmetic of the program is modelled
    in [Z]; a property that lets a semitone count, an octave or a key vary
    is stated for the values whose sums and products stay within this
    range, where the model and the machine arithmetic agree. *)
Definition INT_MIN : Z := -2147483648.
Definition INT_MAX : Z := 2147483647.

Definition fitsInt (z : Z) : Prop := INT_MIN <= z <= INT_MAX.

(** [z] is an [int] that can be added to any value of 0..11 (a pitch-class
    value, an entry of the degree table) within the range of [int]. *)
Definition semitonesFit (z : Z) : Prop := fitsInt z /\ fitsInt (z + 11).

(** [(baseOctave + 1) * 12 + root + interval] stays within the range of
    [int] for every root and interval (each at most 11). *)
Definition octaveFits (baseOctave : Z) : Prop :=
  fitsInt ((baseOctave + 1) * 12) /\ fitsInt ((baseOctave + 1) * 12 + 22).

(** ** Core/PitchClass.h: note names *)

Definition nameMap : list (string * Z) :=
  [ ("C", 0); ("B#", 0); ("C#", 1); ("Db", 1); ("D", 2); ("D#", 3);
    ("Eb", 3); ("E", 4); ("Fb", 4); ("F", 5); ("E#", 5); ("F#", 6);
    ("Gb", 6); ("G", 7); ("G#", 8); ("Ab", 8); ("A", 9); ("A#", 10);
    ("Bb", 10); ("B", 11); ("Cb", 11) ]%string.

(** [PitchClass::fromName]: the first entry of the table with that name,
    C when there is none. *)
Definition fromName (name : string) : PitchClass :=
  match assoc_find name nameMap with
  | Some v => mkPitch v
  | None => mkPitch 0
  end.

Definition sharpNames : list string :=
  [ "C"; "C#"; "D"; "D#"; "E"; "F"; "F#"; "G"; "G#"; "A"; "A#"; "B" ]%string.

Definition flatNames : list string :=
  [ "C"; "Db"; "D"; "Eb"; "E"; "F"; "Gb"; "G"; "Ab"; "A"; "Bb"; "B" ]%string.

(** [PitchClass::name(preferFlat)]. *)
Definition name (p : PitchClass) (preferFlat : bool) : string :=
  nth (Z.to_nat (value p)) (if preferFlat then flatNames else sharpNames)
      EmptyString.

(** ** Core/ChordQuality.h: display strings *)

Definition qualityToString (q : ChordQuality.t) : string :=
  match q with
  | ChordQuality.MAJ7 => "maj7"
  | ChordQuality.MIN7 => "m7"
  | ChordQuality.DOM7 => "7"
  | ChordQuality.HDIM7 => "m7b5"
  | ChordQuality.DIM7 => "dim7"
  | ChordQuality.AUG => "aug"
  | ChordQuality.MIN_MAJ7 => "mMaj7"
  | ChordQuality.MAJ6 => "6"
  | ChordQuality.MIN6 => "m6"
  | ChordQuality.SUS4 => "sus4"
  | ChordQuality.SUS2 => "sus2"
  end.

(** ** Core/ChordSymbol.cpp: the remaining members *)

(** [ChordSymbol()]. *)
Definition defaultChord : ChordSymbol := mkChord (mkPitch 0) ChordQuality.MAJ7.

Definition fifth (c : ChordSymbol) : PitchClass :=
  let intervals := qualityIntervals (quality c) in
  let fifthInterval :=
    if (2 <? Z.of_nat (length intervals)) then nth 2 intervals 0 else 7 in
  let fifthInterval :=
    match alterations c !! 5 with
    | Some alt => fifthInterval + alt
    | None => fifthInterval
    end in
  transpose (root c) fifthInterval.

(** The extension loop of [getPitchClasses]; a degree other than 9, 11
    and 13 is skipped ([continue]). *)
Definition extensionPitch (c : ChordSymbol) (ext : Z) : option PitchClass :=
  let alt := match alterations c !! ext with Some a => a | None => 0 end in
  if ext =? 9 then Some (transpose (root c) (2 + alt))
  else if ext =? 11 then Some (transpose (root c) (5 + alt))
  else if ext =? 13 then Some (transpose (root c) (9 + alt))
  else None.

Definition getPitchClasses (c : ChordSymbol) : list PitchClass :=
  map (transpose (root c)) (qualityIntervals (quality c))
  ++ omap (extensionPitch c) (extensions c).

(** [(baseOctave + 1) * 12 + root_.value()] and [baseMidi + interval] are
    [int] arithmetic, taken here in [Z]; the two agree for the octaves of
    [octaveFits]. *)
Definition getMIDINotes (c : ChordSymbol) (baseOctave : Z) : list Z :=
  let baseMidi := (baseOctave + 1) * 12 + value (root c) in
  map (fun interval => baseMidi + interval) (qualityIntervals (quality c)).

(** [ChordSymbol::transpose]: root and slash bass move, the rest is
    copied.  The range of [semitones] is that of [transpose]. *)
Definition transposeChord (c : ChordSymbol) (semitones : Z) : ChordSymbol :=
  MkChord (transpose (root c) semitones) (quality c) (extensions c)
          (alterations c)
          (match bass c with
           | Some b => Some (transpose b semitones)
           | None => None
           end).

(** [ChordSymbol::tritoneSubstitute]: only the root moves. *)
Definition tritoneSubstitute (c : ChordSymbol) : ChordSymbol :=
  MkChord (transpose (root c) 6) (quality c) (extensions c) (alterations c)
          (bass c).

(** [std::to_string(int)]. *)
Definition to_string (z : Z) : string := NilZero.string_of_int (Z.to_int z).

(** The entries of a [std::map<int,int>] in iteration order, which is by
    ascending key. *)
Fixpoint insertByKey (e : Z * Z) (l : list (Z * Z)) : list (Z * Z) :=
  match l with
  | [] => [e]
  | e' :: l' => if fst e <=? fst e' then e :: l else e' :: insertByKey e l'
  end.

Definition mapEntries (m : gmap Z Z) : list (Z * Z) :=
  foldr insertByKey [] (map_to_list m).

Definition toString (c : ChordSymbol) : string :=
  let result := String.append (name (root c) false)
                              (qualityToString (quality c)) in
  let result :=
    fold_left
      (fun acc '(degree, alt) =>
         let acc :=
           if alt <? 0 then String.append acc "b"
           else if 0 <? alt then String.append acc "#"
           else acc in
         String.append acc (to_string degree))
      (mapEntries (alterations c)) result in
  let result :=
    fold_left
      (fun acc ext =>
         match alterations c !! ext with
         | None =>
             String.append acc
               (String.append "(" (String.append (to_string ext) ")"))
         | Some _ => acc
         end)
      (extensions c) result in
  match bass c with
  | Some b =>
      if negb (value b =? value (root c))
      then String.append result (String.append "/" (name b false))
      else result
  | None => result
  end.

(** The regular expression [^([A-G][#b]?)] of [fromString]: the matched
    root name, if the text starts with one. *)
Definition matchRoot (symbol : string) : option string :=
  match symbol with
  | String c rest =>
      if Ascii.leb "A"%char c && Ascii.leb c "G"%char then
        match rest with
        | String c' _ =>
            if Ascii.eqb c' "#"%char || Ascii.eqb c' "b"%char
            then Some (String c (String c' EmptyString))
            else Some (String c EmptyString)
        | EmptyString => Some (String c EmptyString)
        end
      else None
  | EmptyString => None
  end.

Definition qualityPatterns : list (string * ChordQuality.t) :=
  [ ("maj7", ChordQuality.MAJ7); ("Maj7", ChordQuality.MAJ7);
    ("M7", ChordQuality.MAJ7); ("mMaj7", ChordQuality.MIN_MAJ7);
    ("m7b5", ChordQuality.HDIM7); ("m7-5", ChordQuality.HDIM7);
    ("dim7", ChordQuality.DIM7); ("m7", ChordQuality.MIN7);
    ("min7", ChordQuality.MIN7); ("-7", ChordQuality.MIN7);
    ("m6", ChordQuality.MIN6); ("6", ChordQuality.MAJ6);
    ("aug", ChordQuality.AUG); ("+", ChordQuality.AUG);
    ("sus4", ChordQuality.SUS4); ("sus2", ChordQuality.SUS2);
    ("7", ChordQuality.DOM7) ]%string.

(** The loop over the patterns: the first one the text starts with
    ([remainder.find(p.pattern) == 0]) gives the quality and is removed;
    without one the quality stays [DOM7]. *)
Fixpoint matchQuality (patterns : list (string * ChordQuality.t))
         (remainder : string) : ChordQuality.t * string :=
  match patterns with
  | [] => (ChordQuality.DOM7, remainder)
  | (pattern, q) :: patterns' =>
      if String.prefix pattern remainder
      then (q, String.substring (String.length pattern)
                                (String.length remainder - String.length pattern)
                                remainder)
      else matchQuality patterns' remainder
  end.

(** The degree alternative [(9|11|13)] at the start of a text: the degree
    and the number of characters it takes. *)
Definition matchDegree (s : string) : option (Z * nat) :=
  if String.prefix "9" s then Some (9, 1%nat)
  else if String.prefix "11" s then Some (11, 2%nat)
  else if String.prefix "13" s then Some (13, 2%nat)
  else None.

(** One match of [([b#]?)(9|11|13)] at the start of a text: the
    alteration sign (0 for none), the degree and the length. *)
Definition matchExtension (s : string) : option (Z * Z * nat) :=
  match s with
  | String c rest =>
      let signed :=
        if Ascii.eqb c "b"%char then
          match matchDegree rest with
          | Some (d, n) => Some (-1, d, S n)
          | None => None
          end
        else if Ascii.eqb c "#"%char then
          match matchDegree rest with
          | Some (d, n) => Some (1, d, S n)
          | None => None
          end
        else None in
      match signed with
      | Some m => Some m
      | None =>
          match matchDegree s with
          | Some (d, n) => Some (0, d, n)
          | None => None
          end
      end
  | EmptyString => None
  end.

(** The [std::sregex_iterator] loop: the successive non-overlapping
    matches from left to right; [skip] characters of the last match are
    still to be passed over. *)
Fixpoint scanExtensions (skip : nat) (s : string) : list (Z * Z) :=
  match s with
  | EmptyString => []
  | String _ rest =>
      match skip with
      | S skip' => scanExtensions skip' rest
      | O =>
          match matchExtension s with
          | Some (alt, d, n) => (alt, d) :: scanExtensions (n - 1) rest
          | None => scanExtensions 0 rest
          end
      end
  end.

Definition setAlteration (c : ChordSymbol) (degree alteration : Z)
  : ChordSymbol :=
  MkChord (root c) (quality c) (extensions c)
          (<[degree := alteration]> (alterations c)) (bass c).

Definition addExtension (c : ChordSymbol) (ext : Z) : ChordSymbol :=
  MkChord (root c) (quality c) (extensions c ++ [ext]) (alterations c)
          (bass c).

Definition fromString (symbol : string) : ChordSymbol :=
  match matchRoot symbol with
  | None => defaultChord
  | Some rootStr =>
      let root := fromName rootStr in
      let remainder :=
        String.substring (String.length rootStr)
                         (String.length symbol - String.length rootStr)
                         symbol in
      let '(bass, remainder) :=
        match String.index 0 "/" remainder with
        | Some slashPos =>
            (Some (fromName
                     (String.substring (slashPos + 1)
                        (String.length remainder - (slashPos + 1))
                        remainder)),
             String.substring 0 slashPos remainder)
        | None => (None, remainder)
        end in
      let '(quality, remainder) := matchQuality qualityPatterns remainder in
      let chord := MkChord root quality [] ∅ bass in
      let chord :=
        fold_left
          (fun ch '(alt, degree) =>
             let ch := addExtension ch degree in
             if alt =? 0 then ch
             else setAlteration ch degree (if alt =? -1 then -1 else 1))
          (scanExtensions 0 remainder) chord in
      if contains "b5" remainder then setAlteration chord 5 (-1)
      else if contains "#5" remainder then setAlteration chord 5 1
      else chord
  end.

(** ** VoiceLeading/GuideTone.h: voicing choice *)

(** [findSmoothestVoicing]: the chord's guide tones as (third, seventh) or
    exchanged, whichever moves less from the previous pair. *)
Definition findSmoothestVoicing (chord : ChordSymbol)
           (prevGuideTones : PitchClass * PitchClass)
  : PitchClass * PitchClass :=
  let third := third chord in
  let seventh := seventh chord in
  let prev3 := fst prevGuideTones in
  let prev7 := snd prevGuideTones in
  let cost1 := minInterval prev3 third + minInterval prev7 seventh in
  let cost2 := minInterval prev3 seventh + minInterval prev7 third in
  if cost1 <=? cost2 then (third, seventh) else (seventh, third).

Definition isSmoothProgression (chord1 chord2 : ChordSymbol) : bool :=
  voiceLeadingCost chord1 chord2 <=? 2.

(** The motion between two pairs of voices, voice by voice. *)
Definition pairMotion (from to : PitchClass * PitchClass) : Z :=
  minInterval (fst from) (fst to) + minInterval (snd from) (snd to).

(** The twelve values of a pitch class, and the circular distance of
    [minInterval] on values. *)
Definition octaveValues : list Z := [0; 1; 2; 3; 4; 5; 6; 7; 8; 9; 10; 11].

Definition circularDistance (a b : Z) : Z :=
  Z.min (Z.rem (b - a + 12) 12) (Z.rem (a - b + 12) 12).

(** The qualities, for statements over all of them. *)
Definition allQualities : list ChordQuality.t :=
  [ ChordQuality.MAJ7; ChordQuality.MIN7; ChordQuality.DOM7;
    ChordQuality.HDIM7; ChordQuality.DIM7; ChordQuality.AUG;
    ChordQuality.MIN_MAJ7; ChordQuality.MAJ6; ChordQuality.MIN6;
    ChordQuality.SUS4; ChordQuality.SUS2 ].

(** A chord with nothing but root, quality and possibly a slash bass, from
    the values of its pitch classes. *)
Definition slashChord (r : Z) (q : ChordQuality.t) (b : option Z)
  : ChordSymbol :=
  MkChord (mkPitch r) q [] ∅
          (match b with Some v => Some (mkPitch v) | None => None end).

(** Whether a text reads back ([fromString]) as that chord. *)
Definition readsBackAs (r : Z) (q : ChordQuality.t) (b : option Z)
           (text : string) : bool :=
  let c := fromString text in
  (value (root c) =? r) && ChordQuality.eqb (quality c) q
  && match extensions c with [] => true | _ => false end
  && match map_to_list (alterations c) with [] => true | _ => false end
  && match bass c, b with
     | Some x, Some v => value x =? v
     | None, None => true
     | _, _ => false
     end.

(** The slash basses a chord on [r] can show: none, or any other pitch
    class. *)
Definition shownBasses (r : Z) : list (option Z) :=
  None :: map Some (List.filter (fun v => negb (v =? r)) octaveValues).

(** ** MIDI/MIDIImporter.h: chord recognition and note clustering *)

(** The chord templates of [recognizeChord]: quality, intervals from the
    root, preference score. *)
Definition chordTemplates : list (ChordQuality.t * list Z * Z) :=
  [ (ChordQuality.MAJ7, [0; 4; 7; 11], 10);
    (ChordQuality.MIN7, [0; 3; 7; 10], 10);
    (ChordQuality.DOM7, [0; 4; 7; 10], 12);
    (ChordQuality.HDIM7, [0; 3; 6; 10], 8);
    (ChordQuality.DIM7, [0; 3; 6; 9], 6);
    (ChordQuality.MIN_MAJ7, [0; 3; 7; 11], 5);
    (ChordQuality.AUG, [0; 4; 8], 4);
    (ChordQuality.MAJ6, [0; 4; 7; 9], 7);
    (ChordQuality.MIN6, [0; 3; 7; 9], 7);
    (ChordQuality.SUS4, [0; 5; 7; 10], 6);
    (ChordQuality.SUS2, [0; 2; 7; 10], 6) ].

(** The body of the loop over the templates, for one candidate root:
    [best] is (bestRoot, bestQuality, bestScore). *)
Definition tryTemplate (intervals : gset Z) (root bassPC : Z)
           (best : Z * ChordQuality.t * Z)
           (tmpl : ChordQuality.t * list Z * Z)
  : Z * ChordQuality.t * Z :=
  let '(tmplQuality, tmplIntervals, tmplScore) := tmpl in
  let matchCount :=
    Z.of_nat (length (List.filter (fun interval => bool_decide (interval ∈ intervals))
                                  tmplIntervals)) in
  let score := matchCount * 10 + tmplScore in
  let score := if root =? bassPC then score + 5 else score in
  let size := Z.of_nat (length tmplIntervals) in
  if (4 <=? size) && (3 <=? matchCount) && (snd best <? score)
  then (root, tmplQuality, score)
  else if (size =? 3) && (matchCount =? 3) && (snd best <? score)
  then (root, tmplQuality, score)
  else best.

(** The body of the loop over the twelve candidate roots. *)
Definition tryRoot (pitchClasses : gset Z) (bassPC : Z)
           (best : Z * ChordQuality.t * Z) (root : Z)
  : Z * ChordQuality.t * Z :=
  let intervals : gset Z :=
    set_map (fun pc => Z.rem (pc - root + 12) 12) pitchClasses in
  fold_left (tryTemplate intervals root bassPC) chordTemplates best.

(** The search of [recognizeChord], which reads the notes only through
    their pitch-class set and the pitch class of the lowest one. *)
Definition recognizeFrom (pitchClasses : gset Z) (bassPC : Z) : ChordSymbol :=
  let '(bestRoot, bestQuality, _) :=
    fold_left (tryRoot pitchClasses bassPC) octaveValues
              (bassPC, ChordQuality.DOM7, -1) in
  mkChord (mkPitch bestRoot) bestQuality.

Definition recognizeChord (midiNotes : list Z) : ChordSymbol :=
  match midiNotes with
  | [] => mkChord (mkPitch 0) ChordQuality.MAJ7
  | first :: rest =>
      let pitchClasses : gset Z :=
        list_to_set (map (fun note => Z.rem note 12) midiNotes) in
      let lowestNote := fold_left Z.min rest first in
      let bassPC := Z.rem lowestNote 12 in
      recognizeFrom pitchClasses bassPC
  end.

Record NoteEvent : Type := MkNoteEvent {
  midiNote : Z;
  startTick : Q;
  endTick : Q
}.

Record NoteCluster : Type := MkNoteCluster {
  cluster_notes : list Z;
  cluster_startTick : Q;
  cluster_endTick : Q
}.

(** The loop of [clusterNotes] from the second note on: [current] is the
    cluster being filled, [clusters] the ones closed so far. *)
Fixpoint clusterLoop (notes : list NoteEvent) (toleranceTicks : Q)
         (current : NoteCluster) (clusters : list NoteCluster)
  : list NoteCluster :=
  match notes with
  | [] =>
      match cluster_notes current with
      | [] => clusters
      | _ => clusters ++ [current]
      end
  | note :: rest =>
      let timeDiff := (startTick note - cluster_startTick current)%Q in
      if Qle_bool timeDiff toleranceTicks then
        clusterLoop rest toleranceTicks
          (MkNoteCluster
             (cluster_notes current ++ [midiNote note])
             (cluster_startTick current)
             (if Qlt_bool (cluster_endTick current) (endTick note)
              then endTick note else cluster_endTick current))
          clusters
      else
        clusterLoop rest toleranceTicks
          (MkNoteCluster [midiNote note] (startTick note) (endTick note))
          (clusters ++ [current])
  end.

Definition clusterNotes (notes : list NoteEvent) (toleranceTicks : Q)
  : list NoteCluster :=
  match notes with
  | [] => []
  | first :: rest =>
      clusterLoop rest toleranceTicks
        (MkNoteCluster [midiNote first] (startTick first) (endTick first)) []
  end.

(** Whether the voicing [getMIDINotes] gives a chord on [r] of quality [q]
    in octave -1 is recognised as that chord. *)
Definition recognisedBack (r : Z) (q : ChordQuality.t) : bool :=
  let c := recognizeChord (getMIDINotes (mkChord (mkPitch r) q) (-1)) in
  (value (root c) =? r) && ChordQuality.eqb (quality c) q.

(** ** Substitution/ColtraneSubstitution.h: the full cycle *)

(** [ColtraneSubstitution::generateColtrane]. *)
Definition generateColtrane (tonicRoot : PitchClass) : list ChordSymbol :=
  let center1 := tonicRoot in
  let center2 := transpose tonicRoot 4 in
  let center3 := transpose tonicRoot 8 in
  [ mkChord (transpose center2 7) ChordQuality.DOM7;
    mkChord center2 ChordQuality.MAJ7;
    mkChord (transpose center3 7) ChordQuality.DOM7;
    mkChord center3 ChordQuality.MAJ7;
    mkChord (transpose center1 7) ChordQuality.DOM7;
    mkChord center1 ChordQuality.MAJ7 ].

(** ** Vocabulary for the statements about the passes *)

(** Each chord of a progression with the chord that follows it. *)
Fixpoint withNext (l : list ChordSymbol)
  : list (ChordSymbol * option ChordSymbol) :=
  match l with
  | [] => []
  | c :: rest => (c, head rest) :: withNext rest
  end.

(** Some three consecutive chords form a ii-V-I. *)
Fixpoint hasIiVIWindow (l : list ChordSymbol) : bool :=
  match l with
  | c1 :: rest =>
      match rest with
      | c2 :: c3 :: _ =>
          ColtraneSubstitution.isIiVI c1 c2 c3 || hasIiVIWindow rest
      | _ => false
      end
  | [] => false
  end.

(** Some chord is the V of the tonic chord that follows it. *)
Fixpoint hasBackdoorSite (l : list ChordSymbol) : bool :=
  match l with
  | c :: rest =>
      match rest with
      | next :: _ =>
          BackdoorSubstitution.canApplyBackdoor c next || hasBackdoorSite rest
      | [] => false
      end
  | [] => false
  end.

Definition C7 : ChordSymbol := mkChord Pitch.C ChordQuality.DOM7.

(** G7/B. *)
Definition G7overB : ChordSymbol := slashChord 7 ChordQuality.DOM7 (Some 11).

(** ** Grammar/PCFG.cpp: rule count *)

(** [PCFG::getRuleCount]: the sizes of all rule lists, added up. *)
Definition getRuleCount (g : PCFG) : nat :=
  fold_left (fun count n => (count + length (rules_ g n))%nat)
            allNonTerminals O.

(** What a rule is apart from its weight. *)
Definition ruleShape (r : GrammarRule)
  : NonTerminal.t * list Symbol * RuleType.t * string :=
  (rule_lhs r, rule_rhs r, rule_type r, rule_name r).

(** The degree label [terminalToChord] looks up. *)
Definition lookedUpDegree (t : TerminalSymbol) : string :=
  match String.index 0 "/" (term_degree t) with
  | Some _ => "V"%string
  | None => term_degree t
  end.

Definition knownQualities : list string :=
  [ "maj7"; "min7"; "7"; "m7b5"; "dim7"; "maj6"; "min6" ]%string.

(** The target label [derive] looks up for a terminal it takes for a
    secondary dominant. *)
Definition lookedUpTarget (t : TerminalSymbol) : option string :=
  match String.index 0 "V/" (term_degree t) with
  | Some _ =>
      match String.index 0 "/" (term_degree t) with
      | Some slashPos =>
          Some (String.substring (slashPos + 1)
                  (String.length (term_degree t) - (slashPos + 1))
                  (term_degree t))
      | None => None
      end
  | None => None
  end.

(** The three lookups made for a terminal all find their key: the degree
    and the quality label in [terminalToChord], and the target of a
    secondary dominant in [derive]. *)
Definition terminalKnown (t : TerminalSymbol) : bool :=
  match assoc_find (lookedUpDegree t) degreeTable with
  | Some _ => true
  | None => false
  end
  && existsb (String.eqb (term_quality t)) knownQualities
  && match lookedUpTarget t with
     | Some target =>
         match assoc_find target degreeTable with
         | Some _ => true
         | None => false
         end
     | None => true
     end.

Definition symbolKnown (sym : Symbol) : bool :=
  match sym with
  | SymT t => terminalKnown t
  | SymNT _ => true
  end.

(** The secondary dominants of the degree table. *)
Definition secondaryDominants : list string :=
  [ "V/V"; "V/ii"; "V/IV" ]%string.

(** ** Grammar/Generator.h: tree depth *)

(** [DerivationNode::depth]. *)
Fixpoint nodeDepth (n : DerivationNode) : Z :=
  match n with
  | Node _ _ children _ =>
      match children with
      | [] => 0
      | _ => 1 + fold_left Z.max (map nodeDepth children) 0
      end
  end.

(** No rule has an empty right-hand side. *)
Definition nonempty_rhs (g : PCFG) : bool :=
  forallb (fun n =>
             forallb (fun r => match rule_rhs r with [] => false | _ => true end)
                     (rules_ g n))
          allNonTerminals.

(** Every terminal on a right-hand side is found by both lookups. *)
Definition known_terminals (g : PCFG) : bool :=
  forallb (fun n =>
             forallb (fun r => forallb symbolKnown (rule_rhs r)) (rules_ g n))
          allNonTerminals.

(** What the leaves of a tree promise about the chords read off it. *)
Definition leavesKnown (node : DerivationNode) : Prop :=
  Forall (fun leaf => terminalKnown (fst leaf) = true) (getTerminals node).

(** [HarmonyGenerator::generateWithTree]: the chords read off the leaves of
    the derivation tree, and the tree. *)
Definition generateWithTree (fuel : nat) (gen : HarmonyGenerator)
           (static : Rng)
  : option (list ChordSymbol * DerivationNode * HarmonyGenerator * Rng) :=
  let cfg := config_ gen in
  '(tree, st) ←
    derive fuel cfg
           (SymNT (MkNTSymbol (startSymbol_ (grammar_ gen)) (Some (cfg_key cfg))))
           0 (cfg_key cfg) (MkDeriveState (grammar_ gen) static);
  Some (terminalsToChords (getTerminals tree), tree,
        MkHarmonyGenerator (ds_grammar st) cfg, ds_static st).

(** ** VoiceLeading/VoiceLeadingOptimizer.h: passing chords *)

(** [std::min_element] with the comparison [a.second < b.second]: the
    first candidate of least cost. *)
Definition minElement (candidates : list (ChordSymbol * Z))
  : option (ChordSymbol * Z) :=
  match candidates with
  | [] => None
  | first :: others =>
      Some (fold_left (fun best x => if snd x <? snd best then x else best)
                      others first)
  end.

(** [VoiceLeadingOptimizer::suggestConnectingChord]; [key] is not read. *)
Definition suggestConnectingChord (chord1 chord2 : ChordSymbol)
           (key : PitchClass) : option ChordSymbol :=
  let directCost := voiceLeadingCost chord1 chord2 in
  if directCost <=? 2 then None
  else
    let candidates : list (ChordSymbol * Z) := [] in
    let dimRoot := transpose (root chord1) 1 in
    let dim := mkChord dimRoot ChordQuality.DIM7 in
    let costViaDim := voiceLeadingCost chord1 dim + voiceLeadingCost dim chord2 in
    let candidates :=
      if costViaDim <? directCost then candidates ++ [(dim, costViaDim)]
      else candidates in
    let vRoot := transpose (root chord2) 7 in
    let secDom := mkChord vRoot ChordQuality.DOM7 in
    let costViaV :=
      voiceLeadingCost chord1 secDom + voiceLeadingCost secDom chord2 in
    let candidates :=
      if costViaV <? directCost then candidates ++ [(secDom, costViaV)]
      else candidates in
    let iiRoot := transpose (root chord2) 2 in
    let ii := mkChord iiRoot ChordQuality.MIN7 in
    let costViaII := voiceLeadingCost chord1 ii + voiceLeadingCost ii chord2 in
    let candidates :=
      if costViaII <? directCost then candidates ++ [(ii, costViaII)]
      else candidates in
    match minElement candidates with
    | None => None
    | Some best => Some (fst best)
    end.

(** The loop of [insertPassingChords] from index [i] on, [prev] being
    [chords[i - 1]] and [rest] the chords from [chords[i]]. *)
Fixpoint insertLoop (prev : ChordSymbol) (rest : list ChordSymbol)
         (key : PitchClass) (result : list ChordSymbol) : list ChordSymbol :=
  match rest with
  | [] => result
  | curr :: rest' =>
      let result :=
        match suggestConnectingChord prev curr key with
        | Some passing => result ++ [passing]
        | None => result
        end in
      insertLoop curr rest' key (result ++ [curr])
  end.

(** [VoiceLeadingOptimizer::insertPassingChords]. *)
Definition insertPassingChords (chords : list ChordSymbol) (key : PitchClass)
  : list ChordSymbol :=
  match chords with
  | first :: ((_ :: _) as rest) => insertLoop first rest key [first]
  | _ => chords
  end.

(** ** Binary32 arithmetic

    [float] is IEEE 754 binary32 with round to nearest, ties to even:
    [SFadd 24 128] and [SFdiv 24 128] of the Standard Library.  The value of
    a number is read in [Q]. *)

Definition pow2 (e : Z) : Q := (2 ^ e)%Q.

Definition F2Q (m e : Z) : Q := (inject_Z m * pow2 e)%Q.

Definition B2Q (x : spec_float) : Q :=
  match x with
  | S754_finite s m e => F2Q (cond_Zopp s (Zpos m)) e
  | _ => 0%Q
  end.



Definition fexp32 (e : Z) : Z := fexp 24 128 e.

(** A non-negative binary32 number: a zero, or a finite positive float in
    canonical form. *)
Definition good (x : spec_float) : Prop :=
  match x with
  | S754_zero _ => True
  | S754_finite false m e => bounded 24 128 m e = true
  | _ => False
  end.


Definition u32 : Q := 1 # 16777216.


Definition f32_zero : spec_float := S754_zero false.
Definition f32_one : spec_float := S754_finite false 8388608 (-23).

(** [std::max(a, b)] is [(a < b) ? b : a], [std::min(a, b)] is
    [(b < a) ? b : a]. *)
Definition f32_max (a b : spec_float) : spec_float :=
  if SFltb a b then b else a.
Definition f32_min (a b : spec_float) : spec_float :=
  if SFltb b a then b else a.

(** [std::max(0.0f, std::min(1.0f, p))]. *)
Definition clamp32 (p : spec_float) : spec_float :=
  f32_max f32_zero (f32_min f32_one p).

Definition weight_ok (w : spec_float) : Prop := good w /\ (B2Q w <= 1)%Q.


Definition sumQ (l : list Q) : Q := fold_right Qplus 0%Q l.





(** ** Grammar/GrammarRule.h, PCFG.cpp: the weights as binary32

    The rule class and the weight-handling members of [PCFG] once more, with
    the weight a [float] as in the source. *)

Record GrammarRule32 : Type := MkGrammarRule32 {
  rule32_lhs : NonTerminal.t;
  rule32_rhs : list Symbol;
  rule32_prob : spec_float;
  rule32_type : RuleType.t;
  rule32_name : string
}.

(** [if (prob_ < 0.0f) prob_ = 0.0f; if (prob_ > 1.0f) prob_ = 1.0f;]
    A NaN passes both tests and is stored. *)
Definition mkGrammarRule32 (lhs : NonTerminal.t) (rhs : list Symbol)
           (prob : spec_float) (type : RuleType.t) (name : string)
  : GrammarRule32 :=
  let p1 := if SFltb prob f32_zero then f32_zero else prob in
  let p2 := if SFltb f32_one p1 then f32_one else p1 in
  MkGrammarRule32 lhs rhs p2 type name.

(** [prob_ = std::max(0.0f, std::min(1.0f, p))]. *)
Definition setProb32 (r : GrammarRule32) (p : spec_float) : GrammarRule32 :=
  MkGrammarRule32 (rule32_lhs r) (rule32_rhs r) (clamp32 p)
                  (rule32_type r) (rule32_name r).


Record PCFG32 : Type := MkPCFG32 {
  startSymbol32_ : NonTerminal.t;
  rules32_ : NonTerminal.t -> list GrammarRule32;
  rng32_ : Rng
}.

Definition newPCFG32 (startSymbol : NonTerminal.t) (entropy : Rng) : PCFG32 :=
  MkPCFG32 startSymbol (fun _ => []) entropy.

Definition addRule32 (g : PCFG32) (lhs : NonTerminal.t) (rhs : list Symbol)
           (prob : spec_float) (type : RuleType.t) (name : string) : PCFG32 :=
  let rule := mkGrammarRule32 lhs rhs prob type name in
  MkPCFG32 (startSymbol32_ g)
           (fun nt => if NonTerminal.eqb nt lhs then rules32_ g nt ++ [rule]
                      else rules32_ g nt)
           (rng32_ g).

Definition getRules32 (g : PCFG32) (nt : NonTerminal.t) : list GrammarRule32 :=
  rules32_ g nt.

(** [float total = 0.0f; for (rule : ruleList) total += rule->getProb();] *)
Definition totalProb32 (ruleList : list GrammarRule32) : spec_float :=
  fold_left (fun total rule => SFadd 24 128 total (rule32_prob rule))
            ruleList f32_zero.

(** The body of the loop of [PCFG::normalize] for one non-terminal. *)
Definition normalizeList32 (ruleList : list GrammarRule32)
  : list GrammarRule32 :=
  let total := totalProb32 ruleList in
  if SFltb f32_zero total
  then map (fun rule => setProb32 rule (SFdiv 24 128 (rule32_prob rule) total))
           ruleList
  else ruleList.

Definition normalize32 (g : PCFG32) : PCFG32 :=
  MkPCFG32 (startSymbol32_ g) (fun nt => normalizeList32 (rules32_ g nt))
           (rng32_ g).

(** The exact sum of the weights of a rule list. *)
Definition weightSum (ruleList : list GrammarRule32) : Q :=
  sumQ (map (fun rule => B2Q (rule32_prob rule)) ruleList).

(** [0.1f], and a grammar of three rules of that weight. *)
Definition f32_tenth : spec_float := S754_finite false 13421773 (-27).

Definition threeRules32 : PCFG32 :=
  let g0 := newPCFG32 NonTerminal.T (constant_draws 0) in
  let g1 := addRule32 g0 NonTerminal.T [] f32_tenth RuleType.STRUCTURAL "a" in
  let g2 := addRule32 g1 NonTerminal.T [] f32_tenth RuleType.STRUCTURAL "b" in
  addRule32 g2 NonTerminal.T [] f32_tenth RuleType.STRUCTURAL "c".

(** * Properties *)

(** ** Pitch classes *)

Lemma value_range (p : PitchClass) : 0 <= value p < 12.
Proof.
  destruct p as [v Hv]; simpl. unfold in_octave in Hv.
  apply andb_prop in Hv as [H1 H2].
  apply Z.leb_le in H1. apply Z.ltb_lt in H2. lia.
Qed.

Lemma wrap12_range (v : Z) : 0 <= wrap12 v < 12.
Proof.
  unfold wrap12.
  pose proof (Z.rem_bound_abs v 12 ltac:(lia)) as Hb.
  destruct (Z.ltb_spec (Z.rem v 12) 0); lia.
Qed.

Lemma wrap12_in_octave (v : Z) : in_octave (wrap12 v) = true.
Proof.
  pose proof (wrap12_range v). unfold in_octave.
  apply andb_true_intro; split; [apply Z.leb_le | apply Z.ltb_lt]; lia.
Qed.

Lemma value_mkPitch (v : Z) : value (mkPitch v) = wrap12 v.
Proof.
  unfold mkPitch.
  generalize (eq_refl (in_octave (wrap12 v))).
  generalize (in_octave (wrap12 v)) at 2 3.
  intros b; destruct b; intros H; [reflexivity|].
  rewrite wrap12_in_octave in H. discriminate.
Qed.

Lemma PitchClass_eq (a b : PitchClass) : value a = value b -> a = b.
Proof.
  destruct a as [va Ha], b as [vb Hb]; simpl; intros ->.
  f_equal. apply (proof_irrel Ha Hb).
Qed.

Lemma wrap12_small (v : Z) : 0 <= v < 12 -> wrap12 v = v.
Proof.
  intros H. unfold wrap12. rewrite Z.rem_small by lia.
  destruct (Z.ltb_spec v 0); lia.
Qed.

(** Case analysis on the twelve values of a pitch class. *)
Lemma value_cases (p : PitchClass) :
  value p = 0 \/ value p = 1 \/ value p = 2 \/ value p = 3 \/ value p = 4
  \/ value p = 5 \/ value p = 6 \/ value p = 7 \/ value p = 8
  \/ value p = 9 \/ value p = 10 \/ value p = 11.
Proof. pose proof (value_range p). lia. Qed.

Ltac by_pitch p :=
  let H := fresh "Hv" in
  pose proof (value_cases p) as H;
  repeat (destruct H as [H | H]); rewrite H; try reflexivity.

Lemma value_transpose (p : PitchClass) (n : Z) :
  value (transpose p n) = wrap12 (value p + n).
Proof. apply value_mkPitch. Qed.

Lemma transpose_tritone_twice (p : PitchClass) :
  transpose (transpose p 6) 6 = p.
Proof.
  apply PitchClass_eq. rewrite !value_transpose. by_pitch p.
Qed.

(** ** Tritone substitution of a single chord *)

Lemma isDominant_true (c : ChordSymbol) :
  TritoneSubstitution.isDominant c = true <-> quality c = ChordQuality.DOM7.
Proof.
  unfold TritoneSubstitution.isDominant.
  destruct (quality c); simpl; split; congruence.
Qed.

Lemma substitute_dominant (c : ChordSymbol) :
  quality c = ChordQuality.DOM7 ->
  TritoneSubstitution.substitute c
  = mkChord (transpose (root c) 6) ChordQuality.DOM7.
Proof.
  intros Hq. unfold TritoneSubstitution.substitute.
  apply isDominant_true in Hq as Hd. rewrite Hd, Hq. reflexivity.
Qed.

(** C6. For every dominant-seventh chord, applying
    [TritoneSubstitution::substitute] twice gives a chord with the root and
    the quality of the original: transposing the root by 6 twice is the
    identity modulo 12. *)
Theorem tritone_substitute_involution (c : ChordSymbol) :
  quality c = ChordQuality.DOM7 ->
  let c2 := TritoneSubstitution.substitute (TritoneSubstitution.substitute c) in
  root c2 = root c /\ quality c2 = quality c.
Proof.
  intros Hq. simpl.
  rewrite (substitute_dominant c Hq).
  rewrite substitute_dominant by reflexivity. simpl.
  rewrite transpose_tritone_twice. auto.
Qed.

Lemma tritone_substitute_involution_G7 :
  quality G7 = ChordQuality.DOM7
  /\ root (TritoneSubstitution.substitute (TritoneSubstitution.substitute G7))
     = root G7
  /\ quality (TritoneSubstitution.substitute (TritoneSubstitution.substitute G7))
     = quality G7.
Proof.
  split; [reflexivity | apply (tritone_substitute_involution G7); reflexivity].
Defined.

(** ** Guide-tone cost *)

Lemma minInterval_nonneg (p q : PitchClass) : 0 <= minInterval p q.
Proof.
  pose proof (value_range p). pose proof (value_range q).
  unfold minInterval. apply Z.min_glb; apply Z.rem_nonneg; lia.
Qed.

Lemma minInterval_le_6 (p q : PitchClass) : minInterval p q <= 6.
Proof.
  unfold minInterval. by_pitch p; by_pitch q; vm_compute; discriminate.
Qed.

Lemma minInterval_zero (p q : PitchClass) : minInterval p q = 0 <-> p = q.
Proof.
  split.
  - intros H. apply PitchClass_eq. revert H. unfold minInterval.
    pose proof (value_cases p) as Hp. pose proof (value_cases q) as Hq.
    repeat (destruct Hp as [Hp | Hp]); repeat (destruct Hq as [Hq | Hq]);
      rewrite Hp, Hq; vm_compute; congruence.
  - intros ->. unfold minInterval. by_pitch q.
Qed.

(** C4, as the code has it. [voiceLeadingCost] is never negative, and it is
    0 exactly when at least one of the two pairings is unison: the straight
    one (third to third, seventh to seventh) or the voice exchange (third to
    seventh, seventh to third).  The cost is the lesser of the two pairing
    costs, so one unison pairing is enough. *)
Theorem voiceLeadingCost_floor (a b : ChordSymbol) :
  0 <= voiceLeadingCost a b
  /\ (voiceLeadingCost a b = 0 <-> straight_unison a b \/ exchange_unison a b).
Proof.
  unfold voiceLeadingCost, straight_unison, exchange_unison.
  pose proof (minInterval_nonneg (third a) (third b)).
  pose proof (minInterval_nonneg (seventh a) (seventh b)).
  pose proof (minInterval_nonneg (third a) (seventh b)).
  pose proof (minInterval_nonneg (seventh a) (third b)).
  lia.
Qed.

(** C4, as stated, fails: a chord followed by itself costs 0 although its
    voice-exchange pairing is not unison (from the third E of Cmaj7 to its
    seventh B is 5 semitones), so not all four distances are 0. *)
Lemma voiceLeadingCost_zero_not_both_unison :
  voiceLeadingCost Cmaj7 Cmaj7 = 0
  /\ ~ (straight_unison Cmaj7 Cmaj7 /\ exchange_unison Cmaj7 Cmaj7).
Proof.
  split; [reflexivity|].
  intros [_ [H _]]. vm_compute in H. discriminate.
Qed.

(** ** The voice-leading optimizer *)

Section Optimizer.
Import VoiceLeadingOptimizer.

(** An accepted move carries its own cost, which is strictly lower. *)
Lemma scan_improves (current : list ChordSymbol) (currentCost : Z) :
  forall todo i test newCost,
    scan current currentCost i todo = Some (test, newCost) ->
    newCost = progressionVoiceLeadingCost test /\ newCost < currentCost.
Proof.
  induction todo as [|todo IH]; intros i test newCost; simpl; [discriminate|].
  destruct (current !! i) as [chord|]; [|discriminate].
  destruct (TritoneSubstitution.isDominant chord); [|apply IH].
  destruct (Z.ltb_spec
              (progressionVoiceLeadingCost
                 (<[i:=TritoneSubstitution.substitute chord]> current))
              currentCost) as [Hlt|Hge]; [|apply IH].
  intros [= <- <-]. auto.
Qed.

Lemma iterate_cost_le (iters : nat) :
  forall current,
    progressionVoiceLeadingCost
      (iterate iters current (progressionVoiceLeadingCost current))
    <= progressionVoiceLeadingCost current.
Proof.
  induction iters as [|iters IH]; intros current; simpl; [lia|].
  destruct (scan current (progressionVoiceLeadingCost current) 0
                 (length current)) as [[test newCost]|] eqn:Hscan; [|lia].
  apply scan_improves in Hscan as [-> Hlt].
  specialize (IH test). lia.
Qed.

(** C5. For every progression and every iteration bound, the total
    voice-leading cost of what [VoiceLeadingOptimizer::optimize] returns is at
    most the total cost of its input. *)
Theorem optimize_cost_monotone (chords : list ChordSymbol) (maxIterations : Z) :
  progressionVoiceLeadingCost (optimize chords maxIterations)
  <= progressionVoiceLeadingCost chords.
Proof. unfold optimize. apply iterate_cost_le. Qed.

(** The tritone substitute of a dominant seventh has the guide tones of the
    original, exchanged. *)
Lemma substitute_guide_tones (c : ChordSymbol) :
  TritoneSubstitution.isDominant c = true ->
  third (TritoneSubstitution.substitute c) = seventh c
  /\ seventh (TritoneSubstitution.substitute c) = third c.
Proof.
  intros Hd. apply isDominant_true in Hd as Hq.
  rewrite (substitute_dominant c Hq).
  unfold third, seventh; simpl; rewrite Hq; simpl.
  split; apply PitchClass_eq; rewrite !value_transpose; by_pitch (root c).
Qed.

Lemma cost_substitute_r (x c : ChordSymbol) :
  TritoneSubstitution.isDominant c = true ->
  voiceLeadingCost x (TritoneSubstitution.substitute c) = voiceLeadingCost x c.
Proof.
  intros Hd. destruct (substitute_guide_tones c Hd) as [Ht Hs].
  unfold voiceLeadingCost. rewrite Ht, Hs. lia.
Qed.

Lemma cost_substitute_l (c y : ChordSymbol) :
  TritoneSubstitution.isDominant c = true ->
  voiceLeadingCost (TritoneSubstitution.substitute c) y = voiceLeadingCost c y.
Proof.
  intros Hd. destruct (substitute_guide_tones c Hd) as [Ht Hs].
  unfold voiceLeadingCost. rewrite Ht, Hs. lia.
Qed.

(** Hence the move the optimizer tries never changes the total cost. *)
Lemma cost_insert_substitute (l : list ChordSymbol) :
  forall i c,
    l !! i = Some c ->
    TritoneSubstitution.isDominant c = true ->
    progressionVoiceLeadingCost (<[i:=TritoneSubstitution.substitute c]> l)
    = progressionVoiceLeadingCost l.
Proof.
  induction l as [|c1 rest IH]; intros i c Hl Hd; [discriminate|].
  destruct i as [|j]; simpl in Hl.
  - injection Hl as ->. simpl.
    destruct rest as [|c2 rest']; [reflexivity|].
    rewrite cost_substitute_l by assumption. reflexivity.
  - specialize (IH j c Hl Hd).
    destruct rest as [|c2 rest']; [discriminate|].
    destruct j as [|j']; simpl in Hl.
    + injection Hl as ->.
      change (<[1%nat:=TritoneSubstitution.substitute c]> (c1 :: c :: rest'))
        with (c1 :: <[0%nat:=TritoneSubstitution.substitute c]> (c :: rest')).
      change (progressionVoiceLeadingCost
                (c1 :: <[0%nat:=TritoneSubstitution.substitute c]> (c :: rest')))
        with (voiceLeadingCost c1 (TritoneSubstitution.substitute c)
              + progressionVoiceLeadingCost
                  (<[0%nat:=TritoneSubstitution.substitute c]> (c :: rest'))).
      rewrite IH, cost_substitute_r by assumption. reflexivity.
    + change (<[S (S j'):=TritoneSubstitution.substitute c]> (c1 :: c2 :: rest'))
        with (c1 :: c2 :: <[j':=TritoneSubstitution.substitute c]> rest').
      change (<[S j':=TritoneSubstitution.substitute c]> (c2 :: rest'))
        with (c2 :: <[j':=TritoneSubstitution.substitute c]> rest') in IH.
      change (progressionVoiceLeadingCost
                (c1 :: c2 :: <[j':=TritoneSubstitution.substitute c]> rest'))
        with (voiceLeadingCost c1 c2
              + progressionVoiceLeadingCost
                  (c2 :: <[j':=TritoneSubstitution.substitute c]> rest')).
      rewrite IH. reflexivity.
Qed.

Lemma scan_finds_nothing (current : list ChordSymbol) :
  forall todo i,
    scan current (progressionVoiceLeadingCost current) i todo = None.
Proof.
  induction todo as [|todo IH]; intros i; simpl; [reflexivity|].
  destruct (current !! i) as [chord|] eqn:Hl; [|reflexivity].
  destruct (TritoneSubstitution.isDominant chord) eqn:Hd; [|apply IH].
  rewrite (cost_insert_substitute current i chord Hl Hd).
  rewrite Z.ltb_irrefl. apply IH.
Qed.

(** With this cost model the search never finds an improving move. *)
Lemma optimize_unchanged (chords : list ChordSymbol) (maxIterations : Z) :
  optimize chords maxIterations = chords.
Proof.
  unfold optimize. destruct (Z.to_nat maxIterations); simpl; [reflexivity|].
  rewrite scan_finds_nothing. reflexivity.
Qed.

(** C10. [VoiceLeadingOptimizer::optimize] keeps the length of the
    progression, and position by position the output chord is the input
    chord, or, only where the input chord is a dominant seventh, its tritone
    substitute; chords of other qualities are never modified. *)
Theorem optimize_frame (chords : list ChordSymbol) (maxIterations : Z) :
  length (optimize chords maxIterations) = length chords
  /\ Forall2 (fun c c' =>
                c' = c
                \/ (quality c = ChordQuality.DOM7
                    /\ c' = TritoneSubstitution.substitute c))
             chords (optimize chords maxIterations).
Proof.
  rewrite optimize_unchanged. split; [reflexivity|].
  induction chords; constructor; auto.
Qed.

End Optimizer.

(** ** Substitution passes *)

Lemma Qlt_bool_true (a b : Q) : Qlt_bool a b = true <-> (a < b)%Q.
Proof.
  unfold Qlt_bool. rewrite Qlt_alt.
  destruct (a ?= b)%Q; split; congruence.
Qed.

(** A draw from [0,1) is below a probability of 1. *)
Lemma shouldSubstitute_certain (rng : Rng) :
  (rng O < 1)%Q ->
  shouldSubstitute 1 rng = (true, fun n => rng (S n)).
Proof.
  intros Hlt. unfold shouldSubstitute, uniform_real, canonical.
  f_equal. apply Qlt_bool_true.
  assert (Heq : (rng O * (1 - 0) + 0 == rng O)%Q) by ring.
  rewrite Heq. exact Hlt.
Qed.

(** C3, as the code has it. With a firing probability of 1, Coltrane
    substitution turns the window [Dm7, G7, Cmaj7] into seven chords: the
    original ii, then V7/III, III, V7/bVI, bVI, then the original V and I.
    The original Dm7 is first and the original Cmaj7 is last. *)
Theorem coltrane_expands_ii_V_I (rng : Rng) :
  (rng O < 1)%Q ->
  let out := fst (ColtraneSubstitution.apply [Dm7; G7; Cmaj7] 1 rng) in
  out = [Dm7; B7; Emaj7; Eb7; Abmaj7; G7; Cmaj7]
  /\ length out = 7%nat
  /\ head out = Some Dm7
  /\ last out = Some Cmaj7.
Proof.
  intros Hlt. cbn [ColtraneSubstitution.apply].
  rewrite (shouldSubstitute_certain rng Hlt).
  repeat split; reflexivity.
Qed.

Lemma coltrane_expands_ii_V_I_zero_draws :
  (constant_draws 0 O < 1)%Q
  /\ fst (ColtraneSubstitution.apply [Dm7; G7; Cmaj7] 1 (constant_draws 0))
     = [Dm7; B7; Emaj7; Eb7; Abmaj7; G7; Cmaj7].
Proof.
  split; [reflexivity|].
  apply (coltrane_expands_ii_V_I (constant_draws 0)). reflexivity.
Defined.

(** C3, as stated, fails: with probability 1 and a draw of 0 the window
    [Dm7, G7, Cmaj7] becomes seven chords, not six. *)
Lemma coltrane_window_is_not_six :
  length (fst (ColtraneSubstitution.apply [Dm7; G7; Cmaj7] 1 (constant_draws 0)))
  <> 6%nat.
Proof. vm_compute. discriminate. Qed.

(** C8. With a firing probability of 1, backdoor substitution turns the
    window [G7, Cmaj7] into [Bb7, Cmaj7]: the dominant is replaced by the
    dominant seventh rooted ten semitones above C, and the following Cmaj7
    is unchanged. *)
Theorem backdoor_replaces_V_of_I (rng : Rng) :
  (rng O < 1)%Q ->
  let out := fst (BackdoorSubstitution.apply [G7; Cmaj7] 1 rng) in
  out = [mkChord (transpose (root Cmaj7) 10) ChordQuality.DOM7; Cmaj7]
  /\ out = [Bb7; Cmaj7].
Proof.
  intros Hlt. cbn [BackdoorSubstitution.apply].
  change (BackdoorSubstitution.canApplyBackdoor G7 Cmaj7) with true.
  cbv iota. rewrite (shouldSubstitute_certain rng Hlt).
  split; reflexivity.
Qed.

Lemma backdoor_replaces_V_of_I_zero_draws :
  (constant_draws 0 O < 1)%Q
  /\ fst (BackdoorSubstitution.apply [G7; Cmaj7] 1 (constant_draws 0))
     = [Bb7; Cmaj7].
Proof.
  split; [reflexivity|].
  apply (backdoor_replaces_V_of_I (constant_draws 0)). reflexivity.
Defined.

(** ** Derivation *)

(** C9. Derivation does not fail on grammar exhaustion: for a non-terminal
    the grammar has no rules for, at any depth, [derive] returns (with any
    positive fuel, drawing nothing) a node whose single child is the leaf of
    the built-in default terminal of that non-terminal, under the resolved
    key; the node yields exactly one chord.  The defaults of Tonic and
    Dominant are "I" major-seventh and "V" dominant-seventh. *)
Theorem derive_exhausted_default (fuel : nat) (cfg : GeneratorConfig)
        (nts : NTSymbol) (depth key : Z) (st : DeriveState) :
  getRules (ds_grammar st) (nts_nt nts) = [] ->
  let currentKey := match nts_key nts with Some k => k | None => key end in
  let leaf := Node (SymT (getDefaultTerminal (nts_nt nts))) currentKey [] None in
  let node := Node (SymNT nts) currentKey [leaf] None in
  derive (S fuel) cfg (SymNT nts) depth key st = Some (node, st)
  /\ terminalsToChords (getTerminals node)
     = [terminalToChord (getDefaultTerminal (nts_nt nts)) currentKey]
  /\ getDefaultTerminal NonTerminal.T = mkTerminal "I" "maj7"
  /\ getDefaultTerminal NonTerminal.D = mkTerminal "V" "7".
Proof.
  intros Hnone. destruct st as [g static]. simpl in Hnone. simpl.
  split; [|repeat split; reflexivity].
  destruct (maxDepth cfg <=? depth).
  - rewrite Hnone. reflexivity.
  - unfold sampleRule. rewrite Hnone. reflexivity.
Qed.

Lemma derive_exhausted_default_phrase :
  getRules (createBaseGrammar (constant_draws 0)) NonTerminal.PHRASE = []
  /\ derive 1 defaultConfig (SymNT (MkNTSymbol NonTerminal.PHRASE None)) 0 0
            (MkDeriveState (createBaseGrammar (constant_draws 0))
                           (constant_draws 0))
     = Some (Node (SymNT (MkNTSymbol NonTerminal.PHRASE None)) 0
                  [Node (SymT (mkTerminal "I" "maj7")) 0 [] None] None,
             MkDeriveState (createBaseGrammar (constant_draws 0))
                           (constant_draws 0)).
Proof.
  split; [reflexivity|].
  apply (derive_exhausted_default 0 defaultConfig
           (MkNTSymbol NonTerminal.PHRASE None) 0 0
           (MkDeriveState (createBaseGrammar (constant_draws 0))
                          (constant_draws 0))).
  reflexivity.
Defined.

(** The same default is used at the depth limit when the non-terminal has
    rules but none of kind [TERMINAL] (the start symbol, for one). *)
Lemma derive_depth_limit_default (fuel : nat) (cfg : GeneratorConfig)
      (nts : NTSymbol) (depth key : Z) (st : DeriveState) :
  (maxDepth cfg <=? depth)%Z = true ->
  filter (fun r => RuleType.eqb (rule_type r) RuleType.TERMINAL = true)
         (getRules (ds_grammar st) (nts_nt nts)) = [] ->
  derive (S fuel) cfg (SymNT nts) depth key st
  = Some (defaultNode (SymNT nts) (nts_nt nts)
                      (match nts_key nts with Some k => k | None => key end),
          st).
Proof.
  intros Hdeep Hnone. cbn [derive]. cbv zeta.
  rewrite Hdeep, Hnone. reflexivity.
Qed.

(** ** Lengths through the post-processing stages *)

Lemma backdoor_apply_length (probability : Q) :
  forall progression rng,
    length (fst (BackdoorSubstitution.apply progression probability rng))
    = length progression.
Proof.
  induction progression as [|chord rest IH]; intros rng; [reflexivity|].
  cbn [BackdoorSubstitution.apply].
  destruct rest as [|nextChord rest']; [reflexivity|].
  destruct (BackdoorSubstitution.canApplyBackdoor chord nextChord).
  - destruct (shouldSubstitute probability rng) as [fire rng1].
    specialize (IH rng1).
    destruct (BackdoorSubstitution.apply (nextChord :: rest') probability rng1).
    simpl in *. congruence.
  - specialize (IH rng).
    destruct (BackdoorSubstitution.apply (nextChord :: rest') probability rng).
    simpl in *. congruence.
Qed.

Lemma tritone_apply_length (probability : Q) :
  forall progression rng,
    length (fst (TritoneSubstitution.apply progression probability rng))
    = length progression.
Proof.
  induction progression as [|chord rest IH]; intros rng; [reflexivity|].
  cbn [TritoneSubstitution.apply].
  destruct (TritoneSubstitution.isDominant chord).
  - destruct (shouldSubstitute probability rng) as [fire rng1].
    specialize (IH rng1).
    destruct fire;
      destruct (TritoneSubstitution.apply rest probability rng1);
      simpl in *; congruence.
  - specialize (IH rng).
    destruct (TritoneSubstitution.apply rest probability rng).
    simpl in *. congruence.
Qed.

(** Coltrane substitution only ever lengthens: a match replaces three
    chords by seven. *)
Lemma coltrane_apply_length (probability : Q) :
  forall n progression rng,
    (length progression <= n)%nat ->
    (length progression
     <= length (fst (ColtraneSubstitution.apply progression probability rng)))%nat.
Proof.
  induction n as [|n IH]; intros progression rng Hn.
  - destruct progression; [simpl; lia | simpl in Hn; lia].
  - destruct progression as [|chord rest]; [simpl; lia|].
    cbn [ColtraneSubstitution.apply].
    destruct rest as [|next1 [|next2 rest']].
    + simpl. lia.
    + pose proof (IH [next1] rng ltac:(simpl in *; lia)) as H1.
      destruct (ColtraneSubstitution.apply [next1] probability rng).
      simpl in *. lia.
    + destruct (shouldSubstitute probability rng) as [fire rng1].
      destruct (fire && ColtraneSubstitution.isIiVI chord next1 next2).
      * pose proof (IH rest' rng1 ltac:(simpl in *; lia)) as H1.
        destruct (ColtraneSubstitution.apply rest' probability rng1).
        simpl in *. lia.
      * pose proof (IH (next1 :: next2 :: rest') rng1 ltac:(simpl in *; lia))
          as H1.
        destruct (ColtraneSubstitution.apply (next1 :: next2 :: rest')
                                             probability rng1).
        simpl in *. lia.
Qed.

Lemma substitution_engine_length (progression : list ChordSymbol)
      (style : StyleVector) (w : StaticRngs) :
  (length progression
   <= length (fst (SubstitutionEngine.apply progression style w)))%nat.
Proof.
  unfold SubstitutionEngine.apply.
  destruct (if Qlt_bool (2 # 10) (modalInterchange style)
            then BackdoorSubstitution.apply progression
                   (modalInterchange style * (3 # 10))%Q (backdoor_rng w)
            else (progression, backdoor_rng w)) as [r1 bd] eqn:E1.
  assert (H1 : length r1 = length progression).
  { destruct (Qlt_bool (2 # 10) (modalInterchange style)).
    - rewrite <- (backdoor_apply_length
                    (modalInterchange style * (3 # 10))%Q progression
                    (backdoor_rng w)).
      rewrite E1. reflexivity.
    - injection E1 as <- _. reflexivity. }
  destruct (if Qlt_bool (1 # 10) (tritoneSubProb style)
            then TritoneSubstitution.apply r1 (tritoneSubProb style)
                                           (tritone_rng w)
            else (r1, tritone_rng w)) as [r2 tr] eqn:E2.
  assert (H2 : length r2 = length r1).
  { destruct (Qlt_bool (1 # 10) (tritoneSubProb style)).
    - rewrite <- (tritone_apply_length (tritoneSubProb style) r1
                                       (tritone_rng w)).
      rewrite E2. reflexivity.
    - injection E2 as <- _. reflexivity. }
  destruct (if (4 <=? dominantChainDepth style)
               && Qlt_bool (4 # 10) (chromaticApproach style)
            then ColtraneSubstitution.apply r2
                   (chromaticApproach style * (15 # 100))%Q (coltrane_rng w)
            else (r2, coltrane_rng w)) as [r3 ct] eqn:E3.
  assert (H3 : (length r2 <= length r3)%nat).
  { destruct ((4 <=? dominantChainDepth style)
              && Qlt_bool (4 # 10) (chromaticApproach style)).
    - pose proof (coltrane_apply_length
                    (chromaticApproach style * (15 # 100))%Q
                    (length r2) r2 (coltrane_rng w) (Nat.le_refl _)) as H.
      rewrite E3 in H. exact H.
    - injection E3 as <- _. lia. }
  simpl. lia.
Qed.

Lemma padLoop_length (style : StyleVector) (target key : Z) :
  forall passes chords rng,
    Z.of_nat (length chords) <= target ->
    target - Z.of_nat (length chords) <= Z.of_nat passes ->
    Z.of_nat (length (fst (padLoop passes style target key chords rng)))
    = target.
Proof.
  induction passes as [|passes IH]; intros chords rng Hle Hpasses.
  - simpl. lia.
  - cbn [padLoop].
    destruct (Z.ltb_spec (Z.of_nat (length chords)) target) as [Hlt|Hge];
      [|simpl; lia].
    destruct (uniform_real 0 1 rng) as [u rng1].
    destruct (Qlt_bool u (turnaroundProb style)
              && (Z.of_nat (length chords) <? target - 1)) eqn:Hturn.
    + apply andb_prop in Hturn as [_ Hroom]. apply Z.ltb_lt in Hroom.
      rewrite length_app. cbn [length].
      destruct (Z.ltb_spec (Z.of_nat (length chords + 1)) target); [|lia].
      apply IH; rewrite !length_app; cbn [length]; lia.
    + apply IH; rewrite length_app; cbn [length]; lia.
Qed.

Lemma adjustLength_length (style : StyleVector) (chords : list ChordSymbol)
      (target key : Z) (rng : Rng) :
  0 <= target ->
  Z.of_nat (length (fst (adjustLength style chords target key rng))) = target.
Proof.
  intros Hpos. unfold adjustLength.
  destruct (Z.leb_spec target (Z.of_nat (length chords))) as [Hle|Hgt].
  - simpl. rewrite length_take. lia.
  - pose proof (padLoop_length style target key
                  (Z.to_nat (target - Z.of_nat (length chords))) chords rng
                  ltac:(lia) ltac:(lia)) as Hpad.
    destruct (padLoop (Z.to_nat (target - Z.of_nat (length chords)))
                      style target key chords rng) as [chords' rng'].
    simpl in Hpad.
    destruct (Z.ltb_spec target (Z.of_nat (length chords'))); [lia|].
    simpl. exact Hpad.
Qed.

(** ** The derivation returns *)

Lemma flat_terminal_rules_lookup (g : PCFG) (n : NonTerminal.t)
      (r : GrammarRule) :
  flat_terminal_rules g = true ->
  In r (rules_ g n) ->
  terminal_rule_is_flat r = true.
Proof.
  unfold flat_terminal_rules. intros Hflat Hin.
  rewrite forallb_forall in Hflat.
  assert (Hn : In n allNonTerminals) by (destruct n; simpl; tauto).
  specialize (Hflat n Hn). rewrite forallb_forall in Hflat.
  exact (Hflat r Hin).
Qed.

Lemma flat_terminal_rules_ext (g g' : PCFG) :
  rules_ g' = rules_ g -> flat_terminal_rules g' = flat_terminal_rules g.
Proof. unfold flat_terminal_rules. intros ->. reflexivity. Qed.

Lemma sampleRule_rules (g : PCFG) (n : NonTerminal.t) :
  rules_ (snd (sampleRule g n)) = rules_ g.
Proof.
  unfold sampleRule. destruct (getRules g n); [reflexivity|].
  destruct (Qeq_bool _ 0).
  - destruct (uniform_index _ _). reflexivity.
  - destruct (uniform_real _ _ _). reflexivity.
Qed.

Lemma uniform_index_lt (n : nat) (rng : Rng) :
  (0 < n)%nat -> (fst (uniform_index n rng) < n)%nat.
Proof. intros Hn. unfold uniform_index, canonical. simpl. lia. Qed.

Lemma derive_terminal (fuel : nat) (cfg : GeneratorConfig)
      (term : TerminalSymbol) (depth key : Z) (st : DeriveState) :
  derive (S fuel) cfg (SymT term) depth key st
  = Some (Node (SymT term) key [] None, st).
Proof. reflexivity. Qed.

(** The loop over a right-hand side returns when every recursive call it
    makes does; [Inv] is what the calls preserve of the state. *)
Lemma deriveChildren_total
      (rec : Symbol -> Z -> DeriveState -> option (DerivationNode * DeriveState))
      (Inv : DeriveState -> Prop) (Sel : Symbol -> Prop) (currentKey : Z) :
  (forall sym k s, Sel sym -> Inv s ->
                   exists node s', rec sym k s = Some (node, s') /\ Inv s') ->
  forall rhs st,
    Forall (fun sym => Sel (childSymOf (childKeyOf currentKey sym) sym)) rhs ->
    Inv st ->
    exists nodes st',
      deriveChildren rec currentKey rhs st = Some (nodes, st') /\ Inv st'.
Proof.
  intros Hrec. induction rhs as [|sym rest IH]; intros st Hsel Hinv.
  - exists [], st. split; [reflexivity | assumption].
  - apply Forall_cons in Hsel as [Hsym Hrest].
    destruct (Hrec _ (childKeyOf currentKey sym) st Hsym Hinv)
      as (node & s1 & Hnode & Hinv1).
    destruct (IH s1 Hrest Hinv1) as (nodes & s2 & Hnodes & Hinv2).
    exists (node :: nodes), s2. split; [|assumption].
    cbn [deriveChildren]. rewrite Hnode. simpl. rewrite Hnodes. reflexivity.
Qed.

Lemma childSymOf_terminal (k : Z) (sym : Symbol) :
  isTerminal sym = true -> isTerminal (childSymOf k sym) = true.
Proof. destruct sym; simpl; congruence. Qed.

(** Over a grammar whose terminal-kind rules are flat, [derive] returns as
    soon as the fuel covers the levels down to [maxDepth] and the two
    below it (the forced terminal rule and its leaves). *)
Lemma derive_total (cfg : GeneratorConfig) :
  forall fuel symbol depth key st,
    flat_terminal_rules (ds_grammar st) = true ->
    (Z.to_nat (maxDepth cfg - depth) + 2 <= fuel)%nat ->
    exists node st',
      derive fuel cfg symbol depth key st = Some (node, st')
      /\ flat_terminal_rules (ds_grammar st') = true.
Proof.
  induction fuel as [|fuel IH]; intros symbol depth key st Hflat Hfuel; [lia|].
  destruct symbol as [nts|term].
  2:{ eexists _, st. split; [reflexivity | assumption]. }
  destruct st as [g static]. simpl in Hflat.
  cbn [derive]. cbv zeta.
  set (currentKey := match nts_key nts with Some k => k | None => key end).
  destruct (Z.leb_spec (maxDepth cfg) depth) as [Hdeep|Hshallow].
  - (* depth limit: a terminal-kind rule, or the default *)
    cbn [ds_grammar ds_static].
    destruct (filter (fun r => RuleType.eqb (rule_type r) RuleType.TERMINAL = true)
                     (getRules g (nts_nt nts)))
      as [|r0 rs] eqn:Hfilter.
    { eexists _, _. split; [reflexivity | assumption]. }
    pose proof (uniform_index_lt (length (r0 :: rs)) static
                  ltac:(simpl; lia)) as Hidx.
    destruct (uniform_index (length (r0 :: rs)) static) as [idx rng'].
    simpl fst in Hidx.
    destruct (lookup_lt_is_Some_2 (r0 :: rs) idx Hidx) as [rule Hrule].
    rewrite Hrule.
    assert (Hin : rule ∈ filter
                    (fun r => RuleType.eqb (rule_type r) RuleType.TERMINAL = true)
                    (getRules g (nts_nt nts))).
    { rewrite Hfilter. eapply list_elem_of_lookup_2; eassumption. }
    apply list_elem_of_filter in Hin as [Hkind Hmem].
    apply list_elem_of_In in Hmem.
    pose proof (flat_terminal_rules_lookup g _ rule Hflat Hmem) as Hr.
    unfold terminal_rule_is_flat in Hr. rewrite Hkind in Hr. simpl in Hr.
    rewrite forallb_forall in Hr.
    destruct (deriveChildren_total
                (fun sym k s => derive fuel cfg sym (depth + 1) k s)
                (fun s => flat_terminal_rules (ds_grammar s) = true)
                (fun sym => isTerminal sym = true) currentKey)
      with (rhs := rule_rhs rule) (st := MkDeriveState g rng')
      as (nodes & st' & Hnodes & Hflat').
    + intros sym k s Hsym Hs. destruct sym as [?|t]; [discriminate|].
      destruct fuel as [|fuel']; [lia|].
      eexists _, s. split; [apply derive_terminal | assumption].
    + apply List.Forall_forall. intros sym Hsym.
      apply childSymOf_terminal, Hr, Hsym.
    + assumption.
    + rewrite Hnodes. simpl. eexists _, _. split; [reflexivity | assumption].
  - (* below the limit: a sampled rule, or the default *)
    cbn [ds_grammar ds_static].
    pose proof (sampleRule_rules g (nts_nt nts)) as Hsame.
    destruct (sampleRule g (nts_nt nts)) as [sampled g']. simpl in Hsame.
    assert (Hflat' : flat_terminal_rules g' = true)
      by (rewrite (flat_terminal_rules_ext g g' Hsame); assumption).
    destruct sampled as [rule|].
    2:{ eexists _, _. split; [reflexivity | assumption]. }
    destruct (deriveChildren_total
                (fun sym k s => derive fuel cfg sym (depth + 1) k s)
                (fun s => flat_terminal_rules (ds_grammar s) = true)
                (fun _ => True) currentKey)
      with (rhs := rule_rhs rule) (st := MkDeriveState g' static)
      as (nodes & st' & Hnodes & Hflat'').
    + intros sym k s _ Hs. apply IH; [assumption | lia].
    + apply List.Forall_forall. intros; exact I.
    + assumption.
    + rewrite Hnodes. simpl. eexists _, _. split; [reflexivity | assumption].
Qed.

(** ** The grammar of a style engine *)

Lemma forallb_map_same {A : Type} (p : A -> bool) (f : A -> A) (l : list A) :
  (forall x, p (f x) = p x) -> forallb p (map f l) = forallb p l.
Proof.
  intros Hf. induction l as [|x l IH]; simpl; [reflexivity|].
  rewrite Hf, IH. reflexivity.
Qed.

Lemma normalizeList_flat (l : list GrammarRule) :
  forallb terminal_rule_is_flat (normalizeList l)
  = forallb terminal_rule_is_flat l.
Proof.
  unfold normalizeList. destruct (Qlt_bool 0 (totalProb l)); [|reflexivity].
  apply forallb_map_same. reflexivity.
Qed.

Lemma normalize_flat (g : PCFG) :
  flat_terminal_rules (normalize g) = flat_terminal_rules g.
Proof.
  unfold flat_terminal_rules, normalize. simpl.
  rewrite !normalizeList_flat. reflexivity.
Qed.

Lemma reweigh_flat (g : PCFG) (n : NonTerminal.t)
      (f : GrammarRule -> GrammarRule) :
  (forall r, terminal_rule_is_flat (f r) = terminal_rule_is_flat r) ->
  flat_terminal_rules (reweigh g n f) = flat_terminal_rules g.
Proof.
  intros Hf. unfold flat_terminal_rules, reweigh. simpl.
  destruct n; simpl; rewrite forallb_map_same by assumption; reflexivity.
Qed.

Lemma createBaseGrammar_flat (entropy : Rng) :
  flat_terminal_rules (createBaseGrammar entropy) = true.
Proof. vm_compute. reflexivity. Qed.

Lemma styleToPCFG_flat (style : StyleVector) (entropy : Rng) :
  flat_terminal_rules (styleToPCFG style entropy) = true.
Proof.
  unfold styleToPCFG. rewrite normalize_flat.
  rewrite !reweigh_flat; [apply createBaseGrammar_flat | ..];
    intros r;
    repeat match goal with
           | |- context [if ?b then _ else _] => destruct b
           end; reflexivity.
Qed.

(** The constructors establish the invariant ... *)
Lemma newStyleEngine_ok (style : StyleVector) (entropy : Rng) :
  StyleEngine_ok (newStyleEngine style entropy) = true.
Proof. apply styleToPCFG_flat. Qed.

Lemma setStyle_ok (style : StyleVector) (entropy : Rng) :
  StyleEngine_ok (setStyle style entropy) = true.
Proof. apply styleToPCFG_flat. Qed.

(** ** The length contract *)

Lemma generatorGenerate_total (fuel : nat) (gen : HarmonyGenerator)
      (static : Rng) :
  flat_terminal_rules (grammar_ gen) = true ->
  (Z.to_nat (maxDepth (config_ gen)) + 2 <= fuel)%nat ->
  exists chords gen' static',
    generatorGenerate fuel gen static = Some (chords, gen', static')
    /\ flat_terminal_rules (grammar_ gen') = true.
Proof.
  intros Hflat Hfuel. unfold generatorGenerate.
  destruct (derive_total (config_ gen) fuel
              (SymNT (MkNTSymbol (startSymbol_ (grammar_ gen))
                                 (Some (cfg_key (config_ gen)))))
              0 (cfg_key (config_ gen))
              (MkDeriveState (grammar_ gen) static) Hflat)
    as (tree & st' & Hderive & Hflat').
  { rewrite Z.sub_0_r. exact Hfuel. }
  rewrite Hderive. simpl. eexists _, _, _. split; [reflexivity | exact Hflat'].
Qed.

(** C2. For every length of at least 1 (and every key), on every style
    engine, [StyleEngine::generate(length, key)] returns, and what it returns
    has exactly [length] chords, whatever the derivation produced and
    whichever substitutions fired.  Fuel 8 covers the deepest derivation
    [generate] asks for ([maxDepth] is at most 6). *)
Theorem generate_length_contract (fuel : nat) (e : StyleEngine)
        (length key : Z) (w : StaticRngs) :
  StyleEngine_ok e = true ->
  (8 <= fuel)%nat ->
  1 <= length ->
  exists chords e' w',
    generate fuel e length key w = Some (chords, e', w')
    /\ Z.of_nat (List.length chords) = length
    /\ StyleEngine_ok e' = true.
Proof.
  intros Hok Hfuel Hlen. unfold generate.
  destruct (generatorGenerate_total fuel
              (setMaxDepth (setKey (generator_ e) key)
                           (Z.min 6 (Z.quot length 2 + 2)))
              (derive_rng w))
    as (chords0 & gen' & dr & Hgen & Hflat).
  { exact Hok. }
  { simpl. lia. }
  rewrite Hgen. simpl.
  pose proof (adjustLength_length (style_ e) chords0 length key
                (adjustLength_rng w) ltac:(lia)) as Hadj.
  destruct (adjustLength (style_ e) chords0 length key (adjustLength_rng w))
    as [chords1 ar]. simpl in Hadj.
  pose proof (substitution_engine_length chords1 (style_ e)
                (MkStaticRngs dr ar (backdoor_rng w) (tritone_rng w)
                              (coltrane_rng w))) as Hsub.
  destruct (SubstitutionEngine.apply chords1 (style_ e) _) as [chords2 w2].
  simpl in Hsub.
  eexists _, _, _. split; [reflexivity|]. split; [|exact Hflat].
  set (chords3 := if Qlt_bool (5 # 10) (extensionLevel (style_ e))
                  then VoiceLeadingOptimizer.optimize chords2 50
                  else chords2).
  assert (H3 : List.length chords3 = List.length chords2).
  { unfold chords3. destruct (Qlt_bool _ _); [|reflexivity].
    rewrite optimize_unchanged. reflexivity. }
  destruct (Z.ltb_spec length (Z.of_nat (List.length chords3))).
  - rewrite length_take. lia.
  - lia.
Qed.

Lemma generate_length_contract_bebop :
  StyleEngine_ok (newStyleEngine StylePresets.BEBOP (constant_draws 0)) = true
  /\ (8 <= 8)%nat
  /\ 1 <= 4
  /\ exists chords e' w',
       generate 8 (newStyleEngine StylePresets.BEBOP (constant_draws 0)) 4 0
                (constant_statics 0)
       = Some (chords, e', w')
       /\ Z.of_nat (List.length chords) = 4
       /\ StyleEngine_ok e' = true.
Proof.
  split; [vm_compute; reflexivity|]. split; [lia|]. split; [lia|].
  apply (generate_length_contract 8
           (newStyleEngine StylePresets.BEBOP (constant_draws 0)) 4 0
           (constant_statics 0)); [vm_compute; reflexivity | lia | lia].
Defined.

(** ** Reproducibility under a seed *)

(** C1, evaluated on the code.  [generateProgression(1, 0, seed)] is called
    twice with the same seed (one whose first variates select
    "single_phrase" and then "plagal_cadence").  The subdominant is reached
    at the depth limit, where [derive] picks among the three terminal rules
    with its function-local static generator, which no seed reaches: the
    first call returns [Fmaj7], the second, which finds that generator one
    draw further, returns [Dm7]. *)
Theorem seeded_generation_not_reproducible :
  exists static1,
    generateProgression 8 1 0 (Some plagal_seed) (constant_draws 0)
                        derive_static_example
    = Some ([Fmaj7], static1)
    /\ fst <$> generateProgression 8 1 0 (Some plagal_seed) (constant_draws 0)
                                   static1
       = Some [Dm7]
    /\ [Fmaj7] <> [Dm7].
Proof.
  eexists. split; [vm_compute; reflexivity|].
  split; [vm_compute; reflexivity | discriminate].
Qed.

(** The same at the level of [StyleEngine::generate]: two engines in the
    same state (style, grammar, generator of the grammar), asked for the
    same length in the same key, return different progressions when the
    static generator of [adjustLength] stands at different draws. *)
Lemma styleEngine_padding_not_reproducible :
  let e := newStyleEngine StylePresets.BEBOP (constant_draws 0) in
  let w1 := constant_statics 0 in
  let w2 := MkStaticRngs (constant_draws 0) (constant_draws (9 # 10))
                         (constant_draws 0) (constant_draws 0)
                         (constant_draws 0) in
  (fun r => fst (fst r)) <$> generate 8 e 4 0 w1 = Some [Cmaj7; Dm7; Db7; Cmaj7]
  /\ (fun r => fst (fst r)) <$> generate 8 e 4 0 w2
     = Some [Cmaj7; Cmaj7; Cmaj7; Cmaj7].
Proof. split; vm_compute; reflexivity. Qed.

(** ** Normalisation, in exact arithmetic *)

Local Open Scope Q_scope.

Lemma fold_total_from (l : list GrammarRule) :
  forall a,
    fold_left (fun total rule => total + rule_prob rule) l a
    == a + totalProb l.
Proof.
  unfold totalProb. induction l as [|r l IH]; intros a; simpl.
  - ring.
  - rewrite (IH (a + rule_prob r)), (IH (0 + rule_prob r)). ring.
Qed.

Lemma totalProb_cons (r : GrammarRule) (l : list GrammarRule) :
  totalProb (r :: l) == rule_prob r + totalProb l.
Proof.
  unfold totalProb at 1. simpl. rewrite fold_total_from. ring.
Qed.

Lemma totalProb_nonneg (l : list GrammarRule) :
  Forall (fun r => 0 <= rule_prob r) l -> 0 <= totalProb l.
Proof.
  induction 1 as [|r l Hr _ IH]; [apply Qle_refl|].
  rewrite totalProb_cons.
  replace 0 with (0 + 0) by reflexivity. apply Qplus_le_compat; assumption.
Qed.

Lemma rule_prob_setProb (r : GrammarRule) (p : Q) :
  0 <= p -> p <= 1 -> rule_prob (setProb r p) == p.
Proof.
  intros H0 H1. simpl.
  rewrite (Q.min_r 1 p H1). apply Q.max_r. exact H0.
Qed.

(** Rescaling every weight of a list by a common [t] that bounds each of
    them rescales the total. *)
Lemma totalProb_rescaled (t : Q) (l : list GrammarRule) :
  0 < t ->
  Forall (fun r => 0 <= rule_prob r /\ rule_prob r <= t) l ->
  totalProb (map (fun rule => setProb rule (rule_prob rule / t)) l)
  == totalProb l / t.
Proof.
  intros Ht. induction 1 as [|r l [Hr0 Hrt] _ IH]; simpl.
  - unfold totalProb. simpl. field. intros E. rewrite E in Ht.
    exact (Qlt_irrefl 0 Ht).
  - rewrite !totalProb_cons, IH.
    rewrite rule_prob_setProb.
    + field. intros E. rewrite E in Ht. exact (Qlt_irrefl 0 Ht).
    + apply Qle_shift_div_l; [assumption|]. rewrite Qmult_0_l. assumption.
    + apply Qle_shift_div_r; [assumption|]. rewrite Qmult_1_l. assumption.
Qed.

Lemma rule_prob_le_total (l : list GrammarRule) :
  Forall (fun r => 0 <= rule_prob r) l ->
  Forall (fun r => 0 <= rule_prob r /\ rule_prob r <= totalProb l) l.
Proof.
  induction 1 as [|r l Hr Hl IH]; constructor.
  - split; [assumption|]. rewrite totalProb_cons.
    pose proof (totalProb_nonneg l Hl) as Hn.
    rewrite <- (Qplus_0_r (rule_prob r)) at 1.
    apply Qplus_le_compat; [apply Qle_refl | assumption].
  - eapply Forall_impl; [exact IH|]. intros x [Hx0 Hxt]. split; [assumption|].
    rewrite totalProb_cons. eapply Qle_trans; [exact Hxt|].
    rewrite <- (Qplus_0_l (totalProb l)) at 1.
    apply Qplus_le_compat; [assumption | apply Qle_refl].
Qed.

(** With weights taken as exact rationals, the rules of a non-terminal of
    positive total weight sum to exactly 1 after [normalize] ... *)
Lemma normalize_sums_to_one (g : PCFG) (n : NonTerminal.t) :
  Forall (fun r => 0 <= rule_prob r) (getRules g n) ->
  0 < totalProb (getRules g n) ->
  totalProb (getRules (normalize g) n) == 1.
Proof.
  unfold getRules, normalize. simpl. intros Hnonneg Hpos.
  unfold normalizeList.
  apply Qlt_bool_true in Hpos as Hb. rewrite Hb.
  rewrite totalProb_rescaled;
    [| assumption | apply rule_prob_le_total; assumption].
  field. intros E. rewrite E in Hpos. exact (Qlt_irrefl 0 Hpos).
Qed.

(** ... and the rules of a non-terminal whose total weight is not positive
    are left as they are. *)
Lemma normalize_zero_total (g : PCFG) (n : NonTerminal.t) :
  totalProb (getRules g n) == 0 ->
  getRules (normalize g) n = getRules g n.
Proof.
  unfold getRules, normalize. simpl. intros Hzero. unfold normalizeList.
  destruct (Qlt_bool 0 (totalProb (rules_ g n))) eqn:Hb; [|reflexivity].
  apply Qlt_bool_true in Hb. rewrite Hzero in Hb.
  destruct (Qlt_irrefl 0 Hb).
Qed.

(** * Further properties *)

Local Close Scope Q_scope.
Local Open Scope Z_scope.

(** ** Pitch-class arithmetic *)

Lemma wrap12_mod (v : Z) : wrap12 v = v mod 12.
Proof.
  unfold wrap12.
  destruct (Z.ltb_spec (Z.rem v 12) 0);
    Z.to_euclidean_division_equations; lia.
Qed.

Lemma mkPitch_value (p : PitchClass) : mkPitch (value p) = p.
Proof.
  apply PitchClass_eq. rewrite value_mkPitch.
  apply wrap12_small, value_range.
Qed.

Lemma transpose_transpose (p : PitchClass) (a b : Z) :
  transpose (transpose p a) b = transpose p (a + b).
Proof.
  apply PitchClass_eq. rewrite !value_transpose, !wrap12_mod.
  rewrite Zplus_mod_idemp_l. f_equal. lia.
Qed.

Lemma transpose_mod (p : PitchClass) (n : Z) :
  transpose p n = transpose p (n mod 12).
Proof.
  apply PitchClass_eq. rewrite !value_transpose, !wrap12_mod.
  rewrite Zplus_mod_idemp_r. reflexivity.
Qed.

Lemma transpose_zero (p : PitchClass) : transpose p 0 = p.
Proof.
  unfold transpose. rewrite Z.add_0_r. apply mkPitch_value.
Qed.

Lemma transpose_octaves (p : PitchClass) (k : Z) : transpose p (12 * k) = p.
Proof.
  rewrite transpose_mod.
  replace (12 * k) with (k * 12) by lia.
  rewrite Z_mod_mult. apply transpose_zero.
Qed.

(** X1. Transposition acts on pitch classes as addition modulo 12: two
    transpositions compose into the transposition by the sum, for
    semitone counts of either sign; transposing by 0 or by a number of
    octaves changes nothing; and the transposed value is the sum
    reduced into 0..11.  This holds for the semitone counts that can be
    added to a pitch-class value within the range of [int]. *)
Theorem transpose_action (p : PitchClass) (a b k : Z) :
  semitonesFit a ->
  semitonesFit b ->
  semitonesFit (a + b) ->
  semitonesFit (12 * k) ->
  transpose (transpose p a) b = transpose p (a + b)
  /\ transpose p 0 = p
  /\ transpose p (12 * k) = p
  /\ value (transpose p a) = (value p + a) mod 12.
Proof.
  intros _ _ _ _.
  split; [apply transpose_transpose|].
  split; [apply transpose_zero|].
  split; [apply transpose_octaves|].
  rewrite value_transpose. apply wrap12_mod.
Qed.

Lemma transpose_action_fifth_down :
  transpose (transpose Pitch.B 19) (-31) = transpose Pitch.B (19 + -31)
  /\ transpose Pitch.B 0 = Pitch.B
  /\ transpose Pitch.B (12 * -3) = Pitch.B
  /\ value (transpose Pitch.B 19) = (value Pitch.B + 19) mod 12.
Proof.
  apply (transpose_action Pitch.B 19 (-31) (-3));
    unfold semitonesFit, fitsInt, INT_MIN, INT_MAX; lia.
Defined.

Lemma intervalTo_mod (p q : PitchClass) :
  intervalTo p q = (value q - value p) mod 12.
Proof.
  unfold intervalTo.
  pose proof (value_range p). pose proof (value_range q).
  rewrite Z.rem_mod_nonneg by lia.
  replace (value q - value p + 12) with (value q - value p + 1 * 12) by lia.
  apply Z_mod_plus_full.
Qed.

Lemma intervalTo_of_transpose (p : PitchClass) (n : Z) :
  intervalTo p (transpose p n) = n mod 12.
Proof.
  rewrite intervalTo_mod, value_transpose, wrap12_mod.
  rewrite Zminus_mod_idemp_l. f_equal. lia.
Qed.

(** X2. [intervalTo] is the ascending interval: it lies in 0..11,
    transposing a pitch class by its interval to another reaches that
    other one, and the interval from a pitch class to its transposition
    by [n] is [n] modulo 12, for every [n] that can be added to a
    pitch-class value within the range of [int]. *)
Theorem intervalTo_transpose (p q : PitchClass) (n : Z) :
  semitonesFit n ->
  0 <= intervalTo p q < 12
  /\ transpose p (intervalTo p q) = q
  /\ intervalTo p (transpose p n) = n mod 12.
Proof.
  intros _. rewrite !intervalTo_mod. split; [apply Z.mod_pos_bound; lia|]. split.
  - apply PitchClass_eq. rewrite value_transpose, wrap12_mod.
    rewrite Zplus_mod_idemp_r.
    replace (value p + (value q - value p)) with (value q) by lia.
    apply Z.mod_small, value_range.
  - rewrite <- intervalTo_mod. apply intervalTo_of_transpose.
Qed.

Lemma intervalTo_transpose_B_down :
  0 <= intervalTo Pitch.B Pitch.D < 12
  /\ transpose Pitch.B (intervalTo Pitch.B Pitch.D) = Pitch.D
  /\ intervalTo Pitch.B (transpose Pitch.B (-17)) = -17 mod 12.
Proof.
  apply (intervalTo_transpose Pitch.B Pitch.D (-17)).
  unfold semitonesFit, fitsInt, INT_MIN, INT_MAX; lia.
Defined.



(** ** The guide-tone distance and cost *)

Lemma value_in_octaveValues (p : PitchClass) : In (value p) octaveValues.
Proof.
  pose proof (value_cases p) as Hv. unfold octaveValues.
  repeat (destruct Hv as [Hv | Hv]); rewrite Hv; simpl; tauto.
Qed.

Lemma circular_triangle_check :
  forallb (fun a => forallb (fun b => forallb (fun c =>
    circularDistance a c <=? circularDistance a b + circularDistance b c)
    octaveValues) octaveValues) octaveValues = true.
Proof. vm_compute. reflexivity. Qed.

Lemma minInterval_triangle (p q r : PitchClass) :
  minInterval p r <= minInterval p q + minInterval q r.
Proof.
  pose proof circular_triangle_check as H.
  rewrite forallb_forall in H.
  specialize (H _ (value_in_octaveValues p)).
  rewrite forallb_forall in H.
  specialize (H _ (value_in_octaveValues q)).
  rewrite forallb_forall in H.
  specialize (H _ (value_in_octaveValues r)).
  apply Z.leb_le in H. exact H.
Qed.

Lemma minInterval_sym (p q : PitchClass) : minInterval p q = minInterval q p.
Proof. unfold minInterval. apply Z.min_comm. Qed.

(** X4. [minInterval] is a distance on pitch classes: it is symmetric, lies
    between 0 and 6, is 0 exactly between equal pitch classes, and obeys the
    triangle inequality. *)
Theorem minInterval_metric (p q r : PitchClass) :
  minInterval p q = minInterval q p
  /\ 0 <= minInterval p q <= 6
  /\ (minInterval p q = 0 <-> p = q)
  /\ minInterval p r <= minInterval p q + minInterval q r.
Proof.
  split; [apply minInterval_sym|].
  split; [split; [apply minInterval_nonneg | apply minInterval_le_6]|].
  split; [apply minInterval_zero | apply minInterval_triangle].
Qed.

Lemma minInterval_transpose (p q : PitchClass) (n : Z) :
  minInterval (transpose p n) (transpose q n) = minInterval p q.
Proof.
  unfold minInterval. rewrite !value_transpose, !wrap12_mod.
  pose proof (value_range p). pose proof (value_range q).
  pose proof (Z.mod_pos_bound (value p + n) 12 ltac:(lia)).
  pose proof (Z.mod_pos_bound (value q + n) 12 ltac:(lia)).
  rewrite !Z.rem_mod_nonneg by lia.
  assert (E1 : ((value q + n) mod 12 - (value p + n) mod 12 + 12) mod 12
               = (value q - value p + 12) mod 12).
  { rewrite <- (Zplus_mod_idemp_l (_ - _)), <- Zminus_mod.
    rewrite Zplus_mod_idemp_l. f_equal. lia. }
  assert (E2 : ((value p + n) mod 12 - (value q + n) mod 12 + 12) mod 12
               = (value p - value q + 12) mod 12).
  { rewrite <- (Zplus_mod_idemp_l (_ - _)), <- Zminus_mod.
    rewrite Zplus_mod_idemp_l. f_equal. lia. }
  rewrite E1, E2. reflexivity.
Qed.

Lemma transpose_comm (p : PitchClass) (a b : Z) :
  transpose (transpose p a) b = transpose (transpose p b) a.
Proof. rewrite !transpose_transpose. f_equal. lia. Qed.

Lemma third_transposeChord (c : ChordSymbol) (n : Z) :
  third (transposeChord c n) = transpose (third c) n.
Proof. unfold third, transposeChord. simpl. apply transpose_comm. Qed.

Lemma seventh_transposeChord (c : ChordSymbol) (n : Z) :
  seventh (transposeChord c n) = transpose (seventh c) n.
Proof.
  unfold seventh, transposeChord. simpl.
  destruct (_ <? 4); apply transpose_comm.
Qed.

Lemma voiceLeadingCost_le_12 (a b : ChordSymbol) : voiceLeadingCost a b <= 12.
Proof.
  unfold voiceLeadingCost.
  pose proof (minInterval_le_6 (third a) (third b)).
  pose proof (minInterval_le_6 (seventh a) (seventh b)).
  lia.
Qed.

Lemma voiceLeadingCost_triangle (a b c : ChordSymbol) :
  voiceLeadingCost a c <= voiceLeadingCost a b + voiceLeadingCost b c.
Proof.
  unfold voiceLeadingCost. cbv zeta.
  pose proof (minInterval_triangle (third a) (third b) (third c)).
  pose proof (minInterval_triangle (seventh a) (seventh b) (seventh c)).
  pose proof (minInterval_triangle (third a) (third b) (seventh c)).
  pose proof (minInterval_triangle (seventh a) (seventh b) (third c)).
  pose proof (minInterval_triangle (third a) (seventh b) (seventh c)).
  pose proof (minInterval_triangle (seventh a) (third b) (third c)).
  pose proof (minInterval_triangle (third a) (seventh b) (third c)).
  pose proof (minInterval_triangle (seventh a) (third b) (seventh c)).
  lia.
Qed.

(** X5. The pairwise cost is symmetric, never exceeds 12, obeys the
    triangle inequality (going through a third chord never costs less than
    going directly), and does not depend on the key: transposing both
    chords by the same number of semitones ([ChordSymbol::transpose])
    leaves it unchanged, for every number of semitones that can be added
    to a pitch-class value within the range of [int]. *)
Theorem voiceLeadingCost_symmetric_invariant (a b c : ChordSymbol) (n : Z) :
  semitonesFit n ->
  voiceLeadingCost a b = voiceLeadingCost b a
  /\ voiceLeadingCost a b <= 12
  /\ voiceLeadingCost a c <= voiceLeadingCost a b + voiceLeadingCost b c
  /\ voiceLeadingCost (transposeChord a n) (transposeChord b n)
     = voiceLeadingCost a b.
Proof.
  intros _.
  split; [|split; [apply voiceLeadingCost_le_12|
                   split; [apply voiceLeadingCost_triangle|]]].
  - unfold voiceLeadingCost.
    rewrite (minInterval_sym (third a) (third b)),
            (minInterval_sym (seventh a) (seventh b)),
            (minInterval_sym (third a) (seventh b)),
            (minInterval_sym (seventh a) (third b)).
    lia.
  - unfold voiceLeadingCost.
    rewrite !third_transposeChord, !seventh_transposeChord,
            !minInterval_transpose.
    reflexivity.
Qed.

Lemma voiceLeadingCost_symmetric_invariant_ii_V_I :
  voiceLeadingCost Dm7 G7 = voiceLeadingCost G7 Dm7
  /\ voiceLeadingCost Dm7 G7 <= 12
  /\ voiceLeadingCost Dm7 Cmaj7
     <= voiceLeadingCost Dm7 G7 + voiceLeadingCost G7 Cmaj7
  /\ voiceLeadingCost (transposeChord Dm7 (-5)) (transposeChord G7 (-5))
     = voiceLeadingCost Dm7 G7.
Proof.
  apply (voiceLeadingCost_symmetric_invariant Dm7 G7 Cmaj7 (-5)).
  unfold semitonesFit, fitsInt, INT_MIN, INT_MAX; lia.
Defined.

(** X6. The voicing [findSmoothestVoicing] picks for a chord after the guide
    tones of its predecessor moves by exactly [voiceLeadingCost], and it
    never moves more than the other voicing would; it always consists of
    the chord's own third and seventh. *)
Theorem findSmoothestVoicing_cost (a b : ChordSymbol)
        (prev : PitchClass * PitchClass) :
  pairMotion (third a, seventh a)
             (findSmoothestVoicing b (third a, seventh a))
  = voiceLeadingCost a b
  /\ pairMotion prev (findSmoothestVoicing b prev)
     = Z.min (pairMotion prev (third b, seventh b))
             (pairMotion prev (seventh b, third b))
  /\ (findSmoothestVoicing b prev = (third b, seventh b)
      \/ findSmoothestVoicing b prev = (seventh b, third b)).
Proof.
  unfold findSmoothestVoicing, pairMotion, voiceLeadingCost. simpl.
  split; [|split].
  - destruct (Z.leb_spec
                (minInterval (third a) (third b)
                 + minInterval (seventh a) (seventh b))
                (minInterval (third a) (seventh b)
                 + minInterval (seventh a) (third b))); simpl; lia.
  - destruct (Z.leb_spec
                (minInterval (fst prev) (third b)
                 + minInterval (snd prev) (seventh b))
                (minInterval (fst prev) (seventh b)
                 + minInterval (snd prev) (third b))); simpl; lia.
  - destruct (_ <=? _); auto.
Qed.






(** ** Chord symbols *)

(** X8. For a dominant seventh, the chord [TritoneSubstitution::substitute]
    returns has the guide tones of the original, exchanged (its third is the
    original seventh and its seventh the original third), so its pairwise
    cost with any chord, on either side, is that of the original. *)
Theorem tritone_substitute_shares_guide_tones (c x : ChordSymbol) :
  TritoneSubstitution.isDominant c = true ->
  third (TritoneSubstitution.substitute c) = seventh c
  /\ seventh (TritoneSubstitution.substitute c) = third c
  /\ voiceLeadingCost x (TritoneSubstitution.substitute c)
     = voiceLeadingCost x c
  /\ voiceLeadingCost (TritoneSubstitution.substitute c) x
     = voiceLeadingCost c x.
Proof.
  intros Hd. destruct (substitute_guide_tones c Hd) as [Ht Hs].
  repeat split; auto using cost_substitute_r, cost_substitute_l.
Qed.

Lemma tritone_substitute_shares_guide_tones_G7 :
  TritoneSubstitution.isDominant G7 = true
  /\ third (TritoneSubstitution.substitute G7) = seventh G7
  /\ seventh (TritoneSubstitution.substitute G7) = third G7
  /\ voiceLeadingCost Cmaj7 (TritoneSubstitution.substitute G7)
     = voiceLeadingCost Cmaj7 G7
  /\ voiceLeadingCost (TritoneSubstitution.substitute G7) Cmaj7
     = voiceLeadingCost G7 Cmaj7.
Proof.
  split; [reflexivity|].
  apply (tritone_substitute_shares_guide_tones G7 Cmaj7). reflexivity.
Defined.

(** X9. [ChordSymbol::tritoneSubstitute] is an involution on whole chords
    (extensions, alterations and slash bass included); it moves the root
    as a transposition by 6 does but, unlike [ChordSymbol::transpose],
    leaves the slash bass where it is. [ChordSymbol::transpose] composes
    additively (for semitone counts that, like their sum, can be added to
    a pitch-class value within the range of [int]) and is the identity
    at 0. *)
Theorem chord_transposition (c : ChordSymbol) (a b : Z) :
  semitonesFit a ->
  semitonesFit b ->
  semitonesFit (a + b) ->
  tritoneSubstitute (tritoneSubstitute c) = c
  /\ root (tritoneSubstitute c) = root (transposeChord c 6)
  /\ bass (tritoneSubstitute c) = bass c
  /\ transposeChord (transposeChord c a) b = transposeChord c (a + b)
  /\ transposeChord c 0 = c.
Proof.
  intros _ _ _.
  destruct c as [r q e al bs]. unfold tritoneSubstitute, transposeChord.
  simpl. repeat split.
  - rewrite transpose_tritone_twice. reflexivity.
  - rewrite transpose_transpose. destruct bs; simpl;
      rewrite ?transpose_transpose; reflexivity.
  - rewrite transpose_zero. destruct bs; simpl;
      rewrite ?transpose_zero; reflexivity.
Qed.

Lemma chord_transposition_slash :
  tritoneSubstitute (tritoneSubstitute (G7overB))
  = G7overB
  /\ root (tritoneSubstitute (G7overB))
     = root (transposeChord (G7overB) 6)
  /\ bass (tritoneSubstitute (G7overB))
     = bass (G7overB)
  /\ transposeChord (transposeChord (G7overB) 7) (-14)
     = transposeChord (G7overB) (7 + -14)
  /\ transposeChord (G7overB) 0 = G7overB.
Proof.
  apply (chord_transposition (G7overB) 7 (-14));
    unfold semitonesFit, fitsInt, INT_MIN, INT_MAX; lia.
Defined.

(** X10. [getMIDINotes] gives the close root-position voicing: as many
    notes as the quality has intervals (three or four), strictly ascending
    from the root in the octave asked for, all within less than an octave
    of it, and note by note of the pitch classes [getPitchClasses] lists
    first.  This holds for the octaves whose notes stay within the range
    of [int]. *)
Theorem getMIDINotes_voicing (c : ChordSymbol) (baseOctave : Z) :
  octaveFits baseOctave ->
  let notes := getMIDINotes c baseOctave in
  let baseMidi := (baseOctave + 1) * 12 + value (root c) in
  (length notes = 3%nat \/ length notes = 4%nat)
  /\ head notes = Some baseMidi
  /\ StronglySorted Z.lt notes
  /\ Forall (fun n => baseMidi <= n < baseMidi + 12) notes
  /\ map (fun n => n mod 12) notes
     = map value (take (length notes) (getPitchClasses c)).
Proof.
  intros _.
  cbv zeta. unfold getMIDINotes, getPitchClasses.
  rewrite length_map, take_app_length'
    by (rewrite length_map; reflexivity).
  split; [destruct (quality c); cbn [qualityIntervals length]; auto|].
  split; [destruct (quality c); cbn [qualityIntervals map head]; f_equal; lia|].
  split.
  { destruct (quality c); cbn [qualityIntervals map];
      repeat first [ apply SSorted_nil | apply SSorted_cons
                   | apply List.Forall_nil | apply List.Forall_cons ]; lia. }
  split.
  { destruct (quality c); cbn [qualityIntervals map];
      repeat first [apply List.Forall_nil | apply List.Forall_cons]; lia. }
  rewrite !map_map. apply map_ext. intros i.
  rewrite value_transpose, wrap12_mod.
  replace ((baseOctave + 1) * 12 + value (root c) + i)
    with (value (root c) + i + (baseOctave + 1) * 12) by lia.
  apply Z_mod_plus_full.
Qed.

Lemma getMIDINotes_voicing_G7 :
  let notes := getMIDINotes G7 3 in
  let baseMidi := (3 + 1) * 12 + value (root G7) in
  (length notes = 3%nat \/ length notes = 4%nat)
  /\ head notes = Some baseMidi
  /\ StronglySorted Z.lt notes
  /\ Forall (fun n => baseMidi <= n < baseMidi + 12) notes
  /\ map (fun n => n mod 12) notes
     = map value (take (length notes) (getPitchClasses G7)).
Proof.
  apply (getMIDINotes_voicing G7 3).
  unfold octaveFits, fitsInt, INT_MIN, INT_MAX; lia.
Defined.

(** X11. The quality labels of grammar terminals and the display strings
    of qualities are different vocabularies: [stringToChordQuality] reads
    the display string of a quality back as that quality only for MAJ7,
    DOM7, HDIM7 and DIM7; for every other quality the display string is
    unknown to it and reads as the default MAJ7. *)
Theorem stringToChordQuality_of_display (q : ChordQuality.t) :
  (stringToChordQuality (qualityToString q) = q
   <-> In q [ChordQuality.MAJ7; ChordQuality.DOM7; ChordQuality.HDIM7;
             ChordQuality.DIM7])
  /\ (stringToChordQuality (qualityToString q) = q
      \/ stringToChordQuality (qualityToString q) = ChordQuality.MAJ7).
Proof.
  destruct q; vm_compute; split; try tauto;
    split; intros H; try discriminate H; try tauto;
    repeat (destruct H as [H | H]; try discriminate H); try tauto.
Qed.

Lemma roundtrip_check :
  forallb (fun r => forallb (fun q => forallb (fun b =>
    readsBackAs r q b (toString (slashChord r q b)))
    (shownBasses r)) allQualities) octaveValues = true.
Proof. vm_compute. reflexivity. Qed.

Lemma readsBackAs_eq (r : Z) (q : ChordQuality.t) (b : option Z)
      (text : string) :
  readsBackAs r q b text = true -> fromString text = slashChord r q b.
Proof.
  unfold readsBackAs, slashChord.
  destruct (fromString text) as [r' q' e al bs]. simpl.
  rewrite !andb_true_iff. intros [[[[Hr Hq] He] Hal] Hb].
  apply Z.eqb_eq in Hr.
  assert (q' = q) as -> by (destruct q', q; simpl in Hq; congruence).
  destruct e; [|discriminate].
  assert (al = ∅) as ->.
  { apply map_to_list_empty_iff. destruct (map_to_list al); congruence. }
  assert (r' = mkPitch r) as ->.
  { rewrite <- Hr. symmetry. apply mkPitch_value. }
  f_equal.
  destruct bs as [x|], b as [v|]; try discriminate; [|reflexivity].
  apply Z.eqb_eq in Hb. rewrite <- Hb. f_equal. symmetry. apply mkPitch_value.
Qed.

(** X12. Writing a chord and reading the text back returns the chord, for
    every chord that has no extensions and no alterations and whose slash
    bass, if it has one, differs from the root (all that [toString]
    shows of a bass). *)
Theorem fromString_toString (c : ChordSymbol) :
  extensions c = [] ->
  alterations c = ∅ ->
  bass c <> Some (root c) ->
  fromString (toString c) = c.
Proof.
  destruct c as [r q e al bs]. simpl. intros -> -> Hbass.
  set (b := match bs with Some x => Some (value x) | None => None end).
  assert (Hc : MkChord r q [] ∅ bs = slashChord (value r) q b).
  { unfold slashChord, b. rewrite mkPitch_value.
    destruct bs; [rewrite mkPitch_value|]; reflexivity. }
  rewrite Hc. apply readsBackAs_eq.
  pose proof roundtrip_check as H.
  rewrite forallb_forall in H.
  specialize (H _ (value_in_octaveValues r)).
  rewrite forallb_forall in H.
  assert (Hq : In q allQualities) by (destruct q; simpl; tauto).
  specialize (H _ Hq).
  rewrite forallb_forall in H. apply H.
  unfold shownBasses, b. destruct bs as [x|]; [|left; reflexivity].
  right. apply in_map. apply filter_In. split.
  - apply value_in_octaveValues.
  - apply negb_true_iff, Z.eqb_neq. intros E. apply Hbass.
    f_equal. apply PitchClass_eq. exact E.
Qed.

Lemma fromString_toString_slash :
  extensions (MkChord Pitch.D ChordQuality.MIN7 [] ∅ (Some Pitch.G)) = []
  /\ alterations (MkChord Pitch.D ChordQuality.MIN7 [] ∅ (Some Pitch.G)) = ∅
  /\ bass (MkChord Pitch.D ChordQuality.MIN7 [] ∅ (Some Pitch.G))
     <> Some (root (MkChord Pitch.D ChordQuality.MIN7 [] ∅ (Some Pitch.G)))
  /\ fromString (toString (MkChord Pitch.D ChordQuality.MIN7 [] ∅
                                   (Some Pitch.G)))
     = MkChord Pitch.D ChordQuality.MIN7 [] ∅ (Some Pitch.G).
Proof.
  split; [reflexivity|]. split; [reflexivity|].
  assert (H : bass (MkChord Pitch.D ChordQuality.MIN7 [] ∅ (Some Pitch.G))
              <> Some (root (MkChord Pitch.D ChordQuality.MIN7 [] ∅
                                     (Some Pitch.G))))
    by (simpl; intros E; discriminate E).
  split; [exact H|].
  apply (fromString_toString
           (MkChord Pitch.D ChordQuality.MIN7 [] ∅ (Some Pitch.G)));
    [reflexivity | reflexivity | exact H].
Defined.


(** ** Recognition of voicings and clustering of notes *)

Lemma qualityIntervals_shape (q : ChordQuality.t) :
  exists rest, qualityIntervals q = 0 :: rest /\ Forall (fun i => 0 <= i) rest.
Proof.
  destruct q; eexists; (split; [reflexivity|]);
    repeat first [apply List.Forall_nil | apply List.Forall_cons]; lia.
Qed.

Lemma fold_min_lowest (first : Z) (rest : list Z) :
  Forall (fun x => first <= x) rest -> fold_left Z.min rest first = first.
Proof.
  induction 1 as [|x rest Hx _ IH]; simpl; [reflexivity|].
  rewrite Z.min_l by lia. exact IH.
Qed.

Lemma rem_above_octaves (k x : Z) :
  0 <= k -> 0 <= x -> Z.rem (k * 12 + x) 12 = x mod 12.
Proof.
  intros Hk Hx. rewrite Z.rem_mod_nonneg by lia.
  rewrite Z.add_comm. apply Z_mod_plus_full.
Qed.

Lemma voicing_rems (k v : Z) (l : list Z) :
  0 <= k -> 0 <= v -> Forall (fun i => 0 <= i) l ->
  map (fun note => Z.rem note 12) (map (fun i => k * 12 + v + i) l)
  = map (fun i => (v + i) mod 12) l.
Proof.
  intros Hk Hv Hl. rewrite map_map. apply map_ext_in. intros i Hi.
  rewrite List.Forall_forall in Hl. specialize (Hl i Hi).
  rewrite <- Z.add_assoc. apply rem_above_octaves; lia.
Qed.

Lemma recognizeChord_voicing (k v : Z) (rest : list Z) :
  0 <= k -> 0 <= v -> Forall (fun i => 0 <= i) rest ->
  recognizeChord (map (fun i => k * 12 + v + i) (0 :: rest))
  = recognizeFrom (list_to_set (map (fun i => (v + i) mod 12) (0 :: rest)))
                  (v mod 12).
Proof.
  intros Hk Hv Hrest.
  pose proof (voicing_rems k v (0 :: rest) Hk Hv
                (List.Forall_cons _ _ _ (Z.le_refl 0) Hrest)) as Hrems.
  unfold recognizeChord. cbn [map]. cbn [map] in Hrems.
  injection Hrems as Hhead Htail. rewrite Hhead, Htail.
  rewrite fold_min_lowest.
  - rewrite <- (Z.add_assoc (k * 12) v 0).
    rewrite (rem_above_octaves k (v + 0)) by lia.
    rewrite !Z.add_0_r. reflexivity.
  - apply List.Forall_forall. intros x Hx. apply in_map_iff in Hx.
    destruct Hx as (i & <- & Hi).
    rewrite List.Forall_forall in Hrest. specialize (Hrest i Hi). lia.
Qed.

(** The recognition of the voicing of a chord does not depend on the
    octave, from octave -1 (MIDI note 0) upwards. *)
Lemma recognize_voicing_octave (c : ChordSymbol) (baseOctave : Z) :
  -1 <= baseOctave ->
  recognizeChord (getMIDINotes c baseOctave)
  = recognizeChord (getMIDINotes c (-1)).
Proof.
  intros Ho. unfold getMIDINotes.
  destruct (qualityIntervals_shape (quality c)) as (rest & -> & Hrest).
  pose proof (value_range (root c)) as Hv.
  rewrite (recognizeChord_voicing (baseOctave + 1)) by (assumption || lia).
  rewrite (recognizeChord_voicing (-1 + 1)) by (assumption || lia).
  reflexivity.
Qed.

Lemma recognisedBack_check :
  forallb (fun r => forallb (recognisedBack r) allQualities) octaveValues
  = true.
Proof. vm_compute. reflexivity. Qed.

Lemma single_note_check :
  forallb (fun k =>
             let c := recognizeFrom {[ k ]} k in
             (value (root c) =? k)
             && ChordQuality.eqb (quality c) ChordQuality.DOM7)
          octaveValues = true.
Proof. vm_compute. reflexivity. Qed.

Lemma chord_of_view (c : ChordSymbol) (r : Z) (q : ChordQuality.t)
      (e : list Z) (al : gmap Z Z) (bs : option PitchClass) :
  extensions c = e -> alterations c = al -> bass c = bs ->
  (value (root c) =? r) && ChordQuality.eqb (quality c) q = true ->
  c = MkChord (mkPitch r) q e al bs.
Proof.
  destruct c as [r' q' e' al' bs']. simpl. intros -> -> -> H.
  apply andb_prop in H as [Hr Hq]. apply Z.eqb_eq in Hr.
  assert (q' = q) as -> by (destruct q', q; simpl in Hq; congruence).
  rewrite <- Hr, mkPitch_value. reflexivity.
Qed.

Lemma recognizeChord_plain (l : list Z) :
  extensions (recognizeChord l) = [] /\ alterations (recognizeChord l) = ∅
  /\ bass (recognizeChord l) = None.
Proof.
  unfold recognizeChord. destruct l; [repeat split|].
  unfold recognizeFrom.
  destruct (fold_left _ octaveValues _) as [[? ?] ?]. repeat split.
Qed.

(** X13. Recognition inverts voicing: the notes [getMIDINotes] gives for a
    chord, in any octave from -1 (MIDI note 0) upwards whose notes stay
    within the range of [int], are recognised by [recognizeChord] as the
    chord with that root and quality, for all twelve roots and all eleven
    qualities. No notes are read as C major seventh, and a single note
    (a non-negative [int]) as the dominant seventh on it. *)
Theorem recognizeChord_getMIDINotes (c : ChordSymbol) (baseOctave note : Z) :
  -1 <= baseOctave ->
  octaveFits baseOctave ->
  0 <= note ->
  fitsInt note ->
  recognizeChord (getMIDINotes c baseOctave) = mkChord (root c) (quality c)
  /\ recognizeChord [] = Cmaj7
  /\ recognizeChord [note] = mkChord (mkPitch note) ChordQuality.DOM7.
Proof.
  intros Ho _ Hn _. split; [|split; [reflexivity|]].
  - rewrite recognize_voicing_octave by assumption.
    assert (Hsame : getMIDINotes c (-1)
                    = getMIDINotes (mkChord (mkPitch (value (root c)))
                                            (quality c)) (-1)).
    { unfold getMIDINotes. simpl. rewrite mkPitch_value. reflexivity. }
    rewrite Hsame.
    pose proof recognisedBack_check as H.
    rewrite forallb_forall in H.
    specialize (H _ (value_in_octaveValues (root c))).
    rewrite forallb_forall in H.
    assert (Hq : In (quality c) allQualities)
      by (destruct (quality c); simpl; tauto).
    specialize (H _ Hq). unfold recognisedBack in H.
    destruct (recognizeChord_plain
                (getMIDINotes (mkChord (mkPitch (value (root c))) (quality c))
                              (-1))) as (He & Ha & Hb).
    rewrite (chord_of_view _ _ _ _ _ _ He Ha Hb H).
    unfold mkChord. rewrite mkPitch_value. reflexivity.
  - unfold recognizeChord. cbn [map fold_left].
    rewrite Z.rem_mod_nonneg by lia.
    assert (Hset : (list_to_set [note mod 12] : gset Z) = {[ note mod 12 ]})
      by (cbn [list_to_set foldr]; apply (right_id_L (∅ : gset Z) (∪))).
    rewrite Hset.
    pose proof (Z.mod_pos_bound note 12 ltac:(lia)) as Hb.
    assert (Hin : In (note mod 12) octaveValues)
      by (unfold octaveValues; cbn [In]; lia).
    pose proof single_note_check as H.
    rewrite forallb_forall in H. specialize (H _ Hin). cbv zeta in H.
    assert (Hp : extensions (recognizeFrom {[ note mod 12 ]} (note mod 12)) = []
                 /\ alterations (recognizeFrom {[ note mod 12 ]} (note mod 12)) = ∅
                 /\ bass (recognizeFrom {[ note mod 12 ]} (note mod 12)) = None).
    { unfold recognizeFrom.
      destruct (fold_left _ octaveValues _) as [[? ?] ?]. repeat split. }
    destruct Hp as (He & Ha & Hbs).
    rewrite (chord_of_view _ _ _ _ _ _ He Ha Hbs H).
    unfold mkChord. f_equal. apply PitchClass_eq.
    rewrite !value_mkPitch, !wrap12_mod. apply Z.mod_mod. lia.
Qed.

Lemma recognizeChord_getMIDINotes_G7 :
  -1 <= 3
  /\ 0 <= 60
  /\ recognizeChord (getMIDINotes G7 3) = mkChord (root G7) (quality G7)
  /\ recognizeChord [] = Cmaj7
  /\ recognizeChord [60] = mkChord (mkPitch 60) ChordQuality.DOM7.
Proof.
  split; [lia|]. split; [lia|].
  apply (recognizeChord_getMIDINotes G7 3 60);
    unfold octaveFits, fitsInt, INT_MIN, INT_MAX; lia.
Defined.

Lemma clusterLoop_nil (toleranceTicks : Q) (current : NoteCluster)
      (clusters : list NoteCluster) :
  cluster_notes current <> [] ->
  clusterLoop [] toleranceTicks current clusters = clusters ++ [current].
Proof.
  intros Hcur. cbn [clusterLoop].
  destruct (cluster_notes current); [congruence | reflexivity].
Qed.

Lemma clusterLoop_partition (toleranceTicks : Q) :
  forall notes current clusters,
    cluster_notes current <> [] ->
    Forall (fun cl => cluster_notes cl <> []) clusters ->
    concat (map cluster_notes
                (clusterLoop notes toleranceTicks current clusters))
    = concat (map cluster_notes clusters) ++ cluster_notes current
      ++ map midiNote notes
    /\ Forall (fun cl => cluster_notes cl <> [])
              (clusterLoop notes toleranceTicks current clusters)
    /\ (length (clusterLoop notes toleranceTicks current clusters)
        <= length clusters + 1 + length notes)%nat
    /\ (length clusters + 1
        <= length (clusterLoop notes toleranceTicks current clusters))%nat.
Proof.
  induction notes as [|note rest IH]; intros current clusters Hcur Hcls.
  - rewrite clusterLoop_nil by assumption.
    rewrite map_app, concat_app, length_app. cbn [map concat length].
    rewrite !app_nil_r.
    split; [reflexivity|]. split; [|lia].
    apply Forall_app. split; [assumption|]. constructor; [assumption|constructor].
  - cbn [clusterLoop]. cbv zeta.
    destruct (Qle_bool _ toleranceTicks).
    + destruct (IH (MkNoteCluster (cluster_notes current ++ [midiNote note])
                      (cluster_startTick current)
                      (if Qlt_bool (cluster_endTick current) (endTick note)
                       then endTick note else cluster_endTick current))
                   clusters) as (H1 & H2 & H3 & H4).
      { cbn [cluster_notes]. destruct (cluster_notes current); discriminate. }
      { assumption. }
      cbn [cluster_notes] in H1. rewrite H1.
      cbn [map length] in *. rewrite <- !app_assoc. cbn [app].
      split; [reflexivity|]. split; [assumption|]. lia.
    + destruct (IH (MkNoteCluster [midiNote note] (startTick note)
                                  (endTick note))
                   (clusters ++ [current])) as (H1 & H2 & H3 & H4).
      { cbn [cluster_notes]. discriminate. }
      { apply Forall_app. split; [assumption|].
        constructor; [assumption|constructor]. }
      cbn [cluster_notes] in H1. rewrite H1.
      rewrite map_app, concat_app. cbn [map concat].
      rewrite length_app in H3, H4. cbn [map length] in *.
      rewrite app_nil_r, <- !app_assoc. cbn [app].
      split; [reflexivity|]. split; [assumption|]. lia.
Qed.

(** X14. [clusterNotes] cuts the note sequence into consecutive runs: the
    notes of the clusters, concatenated, are the notes of the input in
    order; no cluster is empty; there are at most as many clusters as
    notes, and none exactly when there are no notes. This holds for any
    tolerance and any time stamps. *)
Theorem clusterNotes_partition (notes : list NoteEvent) (toleranceTicks : Q) :
  let clusters := clusterNotes notes toleranceTicks in
  concat (map cluster_notes clusters) = map midiNote notes
  /\ Forall (fun cl => cluster_notes cl <> []) clusters
  /\ (length clusters <= length notes)%nat
  /\ (clusters = [] <-> notes = []).
Proof.
  unfold clusterNotes. destruct notes as [|first rest].
  - cbn. repeat split; auto.
  - destruct (clusterLoop_partition toleranceTicks rest
                (MkNoteCluster [midiNote first] (startTick first)
                               (endTick first)) [])
      as (H1 & H2 & H3 & H4); [cbn; discriminate | constructor |].
    cbv zeta. cbn [cluster_notes map concat length app] in *.
    split; [exact H1|]. split; [exact H2|]. split; [lia|].
    split; [|discriminate].
    intros E. rewrite E in H4. cbn in H4. lia.
Qed.


(** ** The substitution passes, chord by chord *)

Lemma last_cons_cons {A : Type} (x y : A) (l : list A) :
  last (x :: y :: l) = last (y :: l).
Proof. reflexivity. Qed.

Lemma tritone_apply_frame (probability : Q) :
  forall progression rng,
    Forall2
      (fun cn c' =>
         c' = fst cn
         \/ (TritoneSubstitution.isDominant (fst cn) = true
             /\ (exists next,
                    snd cn = Some next
                    /\ (intervalTo (root (fst cn)) (root next) = 5
                        \/ intervalTo (root (fst cn)) (root next) = 7))
             /\ c' = TritoneSubstitution.substitute (fst cn)))
      (withNext progression)
      (fst (TritoneSubstitution.apply progression probability rng)).
Proof.
  induction progression as [|chord rest IH]; intros rng; [constructor|].
  cbn [TritoneSubstitution.apply withNext].
  destruct (TritoneSubstitution.isDominant chord) eqn:Hd.
  - destruct (shouldSubstitute probability rng) as [fire rng1].
    specialize (IH rng1).
    destruct (TritoneSubstitution.apply rest probability rng1) as [out rng2].
    destruct fire; simpl; constructor; auto.
    destruct rest as [|next rest']; [left; reflexivity|].
    destruct ((Z.rem (value (root next) - value (root chord) + 12) 12 =? 5)
              || (Z.rem (value (root next) - value (root chord) + 12) 12 =? 7))
      eqn:Hres; [|left; reflexivity].
    right. cbn [fst snd head]. split; [exact Hd|]. split; [|reflexivity].
    exists next. split; [reflexivity|]. unfold intervalTo.
    apply orb_prop in Hres as [H|H]; apply Z.eqb_eq in H; auto.
  - specialize (IH rng).
    destruct (TritoneSubstitution.apply rest probability rng) as [out rng1].
    simpl. constructor; auto.
Qed.

Lemma tritone_apply_last (probability : Q) :
  forall progression rng,
    last (fst (TritoneSubstitution.apply progression probability rng))
    = last progression.
Proof.
  induction progression as [|chord rest IH]; intros rng; [reflexivity|].
  destruct rest as [|next rest'].
  - cbn [TritoneSubstitution.apply].
    destruct (TritoneSubstitution.isDominant chord); [|reflexivity].
    destruct (shouldSubstitute probability rng) as [[|] rng1]; reflexivity.
  - rewrite last_cons_cons.
    assert (Hgen : forall rng0 x,
               last (x :: fst (TritoneSubstitution.apply (next :: rest')
                                                         probability rng0))
               = last (next :: rest')).
    { intros rng0 x. rewrite <- (IH rng0).
      pose proof (tritone_apply_length probability (next :: rest') rng0) as Hl.
      destruct (fst (TritoneSubstitution.apply (next :: rest')
                                               probability rng0));
        [discriminate Hl | reflexivity]. }
    remember (next :: rest') as tl.
    cbn [TritoneSubstitution.apply].
    destruct (TritoneSubstitution.isDominant chord).
    + destruct (shouldSubstitute probability rng) as [fire rng1].
      destruct fire.
      * pose proof (Hgen rng1) as H.
        destruct (TritoneSubstitution.apply tl probability rng1).
        simpl in *. apply H.
      * pose proof (Hgen rng1) as H.
        destruct (TritoneSubstitution.apply tl probability rng1).
        simpl in *. apply H.
    + pose proof (Hgen rng) as H.
      destruct (TritoneSubstitution.apply tl probability rng).
      simpl in *. apply H.
Qed.

(** X15. The tritone pass works chord by chord: the output has the length
    of the input; each output chord is the input chord at that position,
    or its tritone substitute, and the latter only for a dominant seventh
    whose successor's root lies a fourth or a fifth above its own; the
    last chord is never changed. *)
Theorem tritone_pass_frame (progression : list ChordSymbol)
        (probability : Q) (rng : Rng) :
  let out := fst (TritoneSubstitution.apply progression probability rng) in
  length out = length progression
  /\ Forall2
       (fun cn c' =>
          c' = fst cn
          \/ (TritoneSubstitution.isDominant (fst cn) = true
              /\ (exists next,
                     snd cn = Some next
                     /\ (intervalTo (root (fst cn)) (root next) = 5
                         \/ intervalTo (root (fst cn)) (root next) = 7))
              /\ c' = TritoneSubstitution.substitute (fst cn)))
       (withNext progression) out
  /\ last out = last progression.
Proof.
  cbv zeta. split; [apply tritone_apply_length|].
  split; [apply tritone_apply_frame | apply tritone_apply_last].
Qed.

Lemma backdoor_apply_frame (probability : Q) :
  forall progression rng,
    Forall2
      (fun cn c' =>
         c' = fst cn
         \/ (exists next,
                snd cn = Some next
                /\ BackdoorSubstitution.canApplyBackdoor (fst cn) next = true
                /\ c' = BackdoorSubstitution.createBackdoor (root next)))
      (withNext progression)
      (fst (BackdoorSubstitution.apply progression probability rng)).
Proof.
  induction progression as [|chord rest IH]; intros rng; [constructor|].
  cbn [BackdoorSubstitution.apply withNext].
  destruct rest as [|nextChord rest'].
  - simpl. constructor; [left; reflexivity | constructor].
  - remember (nextChord :: rest') as tl.
    destruct (BackdoorSubstitution.canApplyBackdoor chord nextChord) eqn:Hcan.
    + destruct (shouldSubstitute probability rng) as [fire rng1].
      specialize (IH rng1).
      destruct (BackdoorSubstitution.apply tl probability rng1) as [out rng2].
      simpl. constructor; [|exact IH].
      destruct fire; [|left; reflexivity].
      right. exists nextChord. subst tl. simpl. auto.
    + specialize (IH rng).
      destruct (BackdoorSubstitution.apply tl probability rng) as [out rng1].
      simpl. constructor; [left; reflexivity | exact IH].
Qed.

Lemma backdoor_apply_cons (chord next : ChordSymbol)
      (rest : list ChordSymbol) (probability : Q) (rng : Rng) :
  BackdoorSubstitution.apply (chord :: next :: rest) probability rng
  = if BackdoorSubstitution.canApplyBackdoor chord next then
      let (fire, rng1) := shouldSubstitute probability rng in
      let (out, rng2) :=
        BackdoorSubstitution.apply (next :: rest) probability rng1 in
      ((if fire then BackdoorSubstitution.createBackdoor (root next)
        else chord) :: out, rng2)
    else
      let (out, rng1) :=
        BackdoorSubstitution.apply (next :: rest) probability rng in
      (chord :: out, rng1).
Proof. reflexivity. Qed.

Lemma backdoor_apply_last (probability : Q) :
  forall progression rng,
    last (fst (BackdoorSubstitution.apply progression probability rng))
    = last progression.
Proof.
  induction progression as [|chord rest IH]; intros rng; [reflexivity|].
  destruct rest as [|next rest']; [reflexivity|].
  rewrite last_cons_cons.
  assert (Hgen : forall rng0 x,
             last (x :: fst (BackdoorSubstitution.apply (next :: rest')
                                                        probability rng0))
             = last (next :: rest')).
  { intros rng0 x. rewrite <- (IH rng0).
    pose proof (backdoor_apply_length probability (next :: rest') rng0) as Hl.
    destruct (fst (BackdoorSubstitution.apply (next :: rest')
                                              probability rng0));
      [discriminate Hl | reflexivity]. }
  rewrite backdoor_apply_cons.
  destruct (BackdoorSubstitution.canApplyBackdoor chord next).
  - destruct (shouldSubstitute probability rng) as [fire rng1].
    pose proof (Hgen rng1) as H.
    destruct (BackdoorSubstitution.apply (next :: rest') probability rng1).
    apply H.
  - pose proof (Hgen rng) as H.
    destruct (BackdoorSubstitution.apply (next :: rest') probability rng).
    apply H.
Qed.

Lemma createBackdoor_below (t : PitchClass) :
  intervalTo (root (BackdoorSubstitution.createBackdoor t)) t = 2.
Proof.
  unfold BackdoorSubstitution.createBackdoor. simpl.
  rewrite intervalTo_mod, value_transpose, wrap12_mod.
  pose proof (value_cases t) as Hv.
  repeat (destruct Hv as [Hv | Hv]); rewrite Hv; reflexivity.
Qed.

(** X16. The backdoor pass works chord by chord: the output has the length
    of the input; each output chord is the input chord at that position or,
    only where that chord is the dominant seventh a fifth above a following
    major-seventh or major-sixth chord, the backdoor dominant of that
    following chord; the last chord is never changed. A backdoor dominant
    is a dominant seventh rooted a whole tone below its target. *)
Theorem backdoor_pass_frame (progression : list ChordSymbol)
        (probability : Q) (rng : Rng) (tonicRoot : PitchClass) :
  let out := fst (BackdoorSubstitution.apply progression probability rng) in
  length out = length progression
  /\ Forall2
       (fun cn c' =>
          c' = fst cn
          \/ (exists next,
                 snd cn = Some next
                 /\ BackdoorSubstitution.canApplyBackdoor (fst cn) next = true
                 /\ c' = BackdoorSubstitution.createBackdoor (root next)))
       (withNext progression) out
  /\ last out = last progression
  /\ quality (BackdoorSubstitution.createBackdoor tonicRoot)
     = ChordQuality.DOM7
  /\ intervalTo (root (BackdoorSubstitution.createBackdoor tonicRoot))
                tonicRoot = 2.
Proof.
  cbv zeta. split; [apply backdoor_apply_length|].
  split; [apply backdoor_apply_frame|].
  split; [apply backdoor_apply_last|].
  split; [reflexivity | apply createBackdoor_below].
Qed.


(** ** Where the passes have nothing to do *)

Lemma canApplyBackdoor_dominant_next (c next : ChordSymbol) :
  quality next = ChordQuality.DOM7 ->
  BackdoorSubstitution.canApplyBackdoor c next = false.
Proof.
  intros Hq. unfold BackdoorSubstitution.canApplyBackdoor,
               BackdoorSubstitution.isTonic.
  rewrite Hq. simpl. destruct (negb _); [reflexivity|].
  apply andb_false_r.
Qed.

Lemma canApplyBackdoor_of_backdoor (next : ChordSymbol) :
  BackdoorSubstitution.canApplyBackdoor
    (BackdoorSubstitution.createBackdoor (root next)) next = false.
Proof.
  unfold BackdoorSubstitution.canApplyBackdoor,
         BackdoorSubstitution.createBackdoor. simpl.
  rewrite value_transpose.
  pose proof (value_cases (root next)) as Hv.
  repeat (destruct Hv as [Hv | Hv]); rewrite Hv; reflexivity.
Qed.

Lemma backdoor_no_site (probability : Q) :
  forall progression rng,
    hasBackdoorSite progression = false ->
    BackdoorSubstitution.apply progression probability rng
    = (progression, rng).
Proof.
  induction progression as [|chord rest IH]; intros rng Hno; [reflexivity|].
  destruct rest as [|next rest']; [reflexivity|].
  rewrite backdoor_apply_cons.
  cbn [hasBackdoorSite] in Hno. apply orb_false_elim in Hno as [Hcan Hrest].
  rewrite Hcan, (IH rng Hrest). reflexivity.
Qed.

Lemma backdoor_apply_head (probability : Q) (next : ChordSymbol)
      (rest : list ChordSymbol) (rng : Rng) :
  exists h out,
    fst (BackdoorSubstitution.apply (next :: rest) probability rng) = h :: out
    /\ (h = next \/ quality h = ChordQuality.DOM7).
Proof.
  pose proof (backdoor_apply_frame probability (next :: rest) rng) as H.
  remember (fst (BackdoorSubstitution.apply (next :: rest) probability rng))
    as o eqn:Ho. clear Ho.
  cbn [withNext] in H. destruct o as [|h out]; [inversion H|].
  apply Forall2_cons_1 in H as [Hh _].
  exists h, out. split; [reflexivity|].
  destruct Hh as [-> | (n & _ & _ & ->)]; [left | right]; reflexivity.
Qed.

Lemma backdoor_certain_no_site :
  forall progression rng,
    (forall n, (rng n < 1)%Q) ->
    hasBackdoorSite (fst (BackdoorSubstitution.apply progression 1 rng))
    = false.
Proof.
  induction progression as [|chord rest IH]; intros rng Hrng; [reflexivity|].
  destruct rest as [|next rest']; [reflexivity|].
  rewrite backdoor_apply_cons.
  assert (Htail : forall n, ((fun n => rng (S n)) n < 1)%Q)
    by (intros n; apply Hrng).
  destruct (BackdoorSubstitution.canApplyBackdoor chord next) eqn:Hcan.
  - rewrite (shouldSubstitute_certain rng (Hrng O)).
    specialize (IH (fun n => rng (S n)) Htail).
    destruct (backdoor_apply_head 1 next rest' (fun n => rng (S n)))
      as (h & out & Hout & Hh).
    destruct (BackdoorSubstitution.apply (next :: rest') 1
                                         (fun n => rng (S n))) as [o r].
    cbn [fst] in Hout, IH. subst o. cbv beta iota. cbn [fst].
    cbn [hasBackdoorSite] in IH |- *. rewrite IH.
    rewrite orb_false_r.
    destruct Hh as [-> | Hq];
      [apply canApplyBackdoor_of_backdoor
      | apply canApplyBackdoor_dominant_next, Hq].
  - specialize (IH rng Hrng).
    destruct (backdoor_apply_head 1 next rest' rng)
      as (h & out & Hout & Hh).
    destruct (BackdoorSubstitution.apply (next :: rest') 1 rng) as [o r].
    cbn [fst] in Hout, IH. subst o. cbv beta iota. cbn [fst].
    cbn [hasBackdoorSite] in IH |- *. rewrite IH.
    rewrite orb_false_r.
    destruct Hh as [-> | Hq];
      [exact Hcan | apply canApplyBackdoor_dominant_next, Hq].
Qed.

(** X17. The backdoor pass is idempotent once it has fired everywhere: in
    the output of a pass run with probability 1 (every draw being below 1)
    no chord is the V of a following tonic chord any more, so a second
    pass, with any probability and any draws, returns that output unchanged
    and draws nothing. More generally the pass is the identity, without
    drawing, on any progression that has no such site. *)
Theorem backdoor_pass_idempotent (progression : list ChordSymbol)
        (rng rng' : Rng) (probability : Q) :
  (forall n, (rng n < 1)%Q) ->
  let once := fst (BackdoorSubstitution.apply progression 1 rng) in
  hasBackdoorSite once = false
  /\ BackdoorSubstitution.apply once probability rng' = (once, rng').
Proof.
  intros Hrng. cbv zeta.
  pose proof (backdoor_certain_no_site progression rng Hrng) as Hno.
  split; [exact Hno | apply backdoor_no_site, Hno].
Qed.

Lemma backdoor_pass_idempotent_ii_V_I :
  (forall n, (constant_draws 0 n < 1)%Q)
  /\ BackdoorSubstitution.apply
       (fst (BackdoorSubstitution.apply [Dm7; G7; Cmaj7] 1 (constant_draws 0)))
       (1 # 2) (constant_draws 0)
     = ([Dm7; Bb7; Cmaj7], constant_draws 0).
Proof.
  assert (H : forall n, (constant_draws 0 n < 1)%Q) by (intros n; reflexivity).
  split; [exact H|].
  apply (backdoor_pass_idempotent [Dm7; G7; Cmaj7] (constant_draws 0)
                                  (constant_draws 0) (1 # 2) H).
Defined.

Lemma coltrane_apply_cons3 (chord next1 next2 : ChordSymbol)
      (rest : list ChordSymbol) (probability : Q) (rng : Rng) :
  ColtraneSubstitution.apply (chord :: next1 :: next2 :: rest) probability rng
  = let (fire, rng1) := shouldSubstitute probability rng in
    if fire && ColtraneSubstitution.isIiVI chord next1 next2 then
      let (out, rng2) := ColtraneSubstitution.apply rest probability rng1 in
      (ColtraneSubstitution.substituteIiVI chord next1 next2 ++ out, rng2)
    else
      let (out, rng2) :=
        ColtraneSubstitution.apply (next1 :: next2 :: rest) probability rng1 in
      (chord :: out, rng2).
Proof. reflexivity. Qed.

Lemma coltrane_no_window (probability : Q) :
  forall progression rng,
    hasIiVIWindow progression = false ->
    fst (ColtraneSubstitution.apply progression probability rng)
    = progression.
Proof.
  induction progression as [|chord rest IH]; intros rng Hno; [reflexivity|].
  destruct rest as [|next1 [|next2 rest']]; [reflexivity | reflexivity |].
  rewrite coltrane_apply_cons3.
  cbn [hasIiVIWindow] in Hno. apply orb_false_elim in Hno as [Hw Hrest].
  destruct (shouldSubstitute probability rng) as [fire rng1].
  rewrite Hw, andb_false_r.
  specialize (IH rng1 Hrest).
  destruct (ColtraneSubstitution.apply (next1 :: next2 :: rest')
                                       probability rng1).
  simpl in *. rewrite IH. reflexivity.
Qed.

(** X18. Non-match safety of the Coltrane pass: on a progression in which
    no three consecutive chords form a ii-V-I (minor seventh, dominant
    seventh, major seventh or sixth, on the second, fifth and first
    degree), the pass returns the progression unchanged, whatever the
    probability and the draws. *)
Theorem coltrane_pass_no_match (progression : list ChordSymbol)
        (probability : Q) (rng : Rng) :
  hasIiVIWindow progression = false ->
  fst (ColtraneSubstitution.apply progression probability rng) = progression.
Proof. apply coltrane_no_window. Qed.

Lemma coltrane_pass_no_match_dominant_end :
  hasIiVIWindow [Dm7; G7; C7] = false
  /\ fst (ColtraneSubstitution.apply [Dm7; G7; C7] 1 (constant_draws 0))
     = [Dm7; G7; C7].
Proof.
  split; [reflexivity|].
  apply (coltrane_pass_no_match [Dm7; G7; C7] 1 (constant_draws 0)).
  reflexivity.
Defined.

Lemma coltrane_apply_ends (probability : Q) :
  forall n progression rng,
    (length progression <= n)%nat ->
    let out := fst (ColtraneSubstitution.apply progression probability rng) in
    head out = head progression
    /\ last out = last progression
    /\ exists k, length out = (length progression + 4 * k)%nat.
Proof.
  induction n as [|n IH]; intros progression rng Hn.
  - destruct progression; [|simpl in Hn; lia].
    cbn. repeat split. exists 0%nat. reflexivity.
  - destruct progression as [|chord rest].
    { cbn. repeat split. exists 0%nat. reflexivity. }
    destruct rest as [|next1 [|next2 rest']].
    + cbn. repeat split. exists 0%nat. reflexivity.
    + cbn. repeat split. exists 0%nat. reflexivity.
    + cbv zeta. rewrite coltrane_apply_cons3.
      destruct (shouldSubstitute probability rng) as [fire rng1].
      destruct (fire && ColtraneSubstitution.isIiVI chord next1 next2).
      * destruct (IH rest' rng1 ltac:(simpl in Hn; lia)) as (Hh & Hl & k & Hk).
        destruct (ColtraneSubstitution.apply rest' probability rng1)
          as [out rng2].
        cbv zeta in Hh, Hl, Hk. cbn [fst] in Hh, Hl, Hk |- *.
        split; [reflexivity|]. split.
        -- change (chord :: next1 :: next2 :: rest')
             with ([chord; next1; next2] ++ rest').
           rewrite !last_app, Hl. destruct (last rest'); reflexivity.
        -- exists (S k).
           unfold ColtraneSubstitution.substituteIiVI.
           rewrite length_app. cbn [length]. rewrite Hk. lia.
      * destruct (IH (next1 :: next2 :: rest') rng1
                   ltac:(cbn [length] in *; lia))
          as (Hh & Hl & k & Hk).
        destruct (ColtraneSubstitution.apply (next1 :: next2 :: rest')
                                             probability rng1) as [out rng2].
        cbv zeta in Hh, Hl, Hk. cbn [fst] in Hh, Hl, Hk |- *.
        split; [reflexivity|]. split.
        -- rewrite last_cons_cons, <- Hl.
           destruct out as [|o out']; [|reflexivity].
           cbn [length] in Hk. lia.
        -- exists k. cbn [length] in *. lia.
Qed.

(** X19. The Coltrane pass never changes how a progression begins or ends:
    the first and the last chord of the output are those of the input; and
    it only ever inserts four chords at a time: the output is longer than
    the input by a multiple of 4. *)
Theorem coltrane_pass_ends (progression : list ChordSymbol)
        (probability : Q) (rng : Rng) :
  let out := fst (ColtraneSubstitution.apply progression probability rng) in
  head out = head progression
  /\ last out = last progression
  /\ exists k, length out = (length progression + 4 * k)%nat.
Proof.
  apply (coltrane_apply_ends probability (length progression)). lia.
Qed.


(** ** The Coltrane cycle and the substitution engine *)

Lemma fifth_above_is_V (p : PitchClass) :
  BackdoorSubstitution.canApplyBackdoor
    (mkChord (transpose p 7) ChordQuality.DOM7) (mkChord p ChordQuality.MAJ7)
  = true.
Proof.
  unfold BackdoorSubstitution.canApplyBackdoor. simpl.
  rewrite value_transpose.
  pose proof (value_cases p) as Hv.
  repeat (destruct Hv as [Hv | Hv]); rewrite Hv; reflexivity.
Qed.

Lemma major_third_up (p : PitchClass) : intervalTo p (transpose p 4) = 4.
Proof. apply intervalTo_of_transpose. Qed.

(** X20. [generateColtrane] returns six chords in three dominant-to-major
    pairs: each dominant seventh is the V of the major seventh after it
    (a fifth above it); the three major sevenths lie a major third apart,
    the third of them being the tonic, from which a further major third
    leads back to the first: the cycle closes. The four chords
    [substituteIiVI] inserts between the ii and the original V are the
    first four of this cycle on the root of the I. *)
Theorem generateColtrane_cycle (tonicRoot : PitchClass)
        (ii v i : ChordSymbol) :
  exists d1 m1 d2 m2 d3 m3,
    generateColtrane tonicRoot = [d1; m1; d2; m2; d3; m3]
    /\ BackdoorSubstitution.canApplyBackdoor d1 m1 = true
    /\ BackdoorSubstitution.canApplyBackdoor d2 m2 = true
    /\ BackdoorSubstitution.canApplyBackdoor d3 m3 = true
    /\ m3 = mkChord tonicRoot ChordQuality.MAJ7
    /\ intervalTo (root m3) (root m1) = 4
    /\ intervalTo (root m1) (root m2) = 4
    /\ intervalTo (root m2) (root m3) = 4
    /\ ColtraneSubstitution.substituteIiVI ii v i
       = ii :: take 4 (generateColtrane (root i)) ++ [v; i].
Proof.
  unfold generateColtrane. do 6 eexists.
  split; [reflexivity|].
  split; [apply fifth_above_is_V|].
  split; [apply fifth_above_is_V|].
  split; [apply fifth_above_is_V|].
  split; [reflexivity|]. simpl root.
  split; [apply major_third_up|].
  split.
  { replace (transpose tonicRoot 8)
      with (transpose (transpose tonicRoot 4) 4)
      by (rewrite transpose_transpose; reflexivity).
    apply major_third_up. }
  split; [|reflexivity].
  pose proof (intervalTo_of_transpose (transpose tonicRoot 8) 4) as H.
  rewrite transpose_transpose in H.
  change (8 + 4) with (12 * 1) in H.
  rewrite transpose_octaves in H. exact H.
Qed.

Lemma coltrane_apply_last (probability : Q) (progression : list ChordSymbol)
      (rng : Rng) :
  last (fst (ColtraneSubstitution.apply progression probability rng))
  = last progression.
Proof.
  apply (coltrane_apply_ends probability (length progression)). lia.
Qed.

Lemma coltrane_apply_grows (probability : Q)
      (progression : list ChordSymbol) (rng : Rng) :
  exists k,
    length (fst (ColtraneSubstitution.apply progression probability rng))
    = (length progression + 4 * k)%nat.
Proof.
  apply (coltrane_apply_ends probability (length progression)). lia.
Qed.

(** X21. The substitution engine as a whole never changes the last chord of
    a progression, and changes its length only by the four-chord
    insertions of the Coltrane stage; of the static generators it advances
    only those of its three stages. All this holds for every style, that is
    whichever of the three gates are open. *)
Theorem substitution_engine_frame (progression : list ChordSymbol)
        (style : StyleVector) (w : StaticRngs) :
  let out := fst (SubstitutionEngine.apply progression style w) in
  let w' := snd (SubstitutionEngine.apply progression style w) in
  last out = last progression
  /\ (exists k, length out = (length progression + 4 * k)%nat)
  /\ derive_rng w' = derive_rng w
  /\ adjustLength_rng w' = adjustLength_rng w.
Proof.
  unfold SubstitutionEngine.apply.
  destruct (if Qlt_bool (2 # 10) (modalInterchange style)
            then BackdoorSubstitution.apply progression
                   (modalInterchange style * (3 # 10))%Q (backdoor_rng w)
            else (progression, backdoor_rng w)) as [r1 bd] eqn:E1.
  assert (H1 : length r1 = length progression /\ last r1 = last progression).
  { destruct (Qlt_bool (2 # 10) (modalInterchange style)).
    - rewrite <- (backdoor_apply_length
                    (modalInterchange style * (3 # 10))%Q progression
                    (backdoor_rng w)).
      rewrite <- (backdoor_apply_last
                    (modalInterchange style * (3 # 10))%Q progression
                    (backdoor_rng w)).
      rewrite E1. split; reflexivity.
    - injection E1 as <- _. split; reflexivity. }
  destruct (if Qlt_bool (1 # 10) (tritoneSubProb style)
            then TritoneSubstitution.apply r1 (tritoneSubProb style)
                                           (tritone_rng w)
            else (r1, tritone_rng w)) as [r2 tr] eqn:E2.
  assert (H2 : length r2 = length r1 /\ last r2 = last r1).
  { destruct (Qlt_bool (1 # 10) (tritoneSubProb style)).
    - rewrite <- (tritone_apply_length (tritoneSubProb style) r1
                                       (tritone_rng w)).
      rewrite <- (tritone_apply_last (tritoneSubProb style) r1
                                     (tritone_rng w)).
      rewrite E2. split; reflexivity.
    - injection E2 as <- _. split; reflexivity. }
  destruct (if (4 <=? dominantChainDepth style)
               && Qlt_bool (4 # 10) (chromaticApproach style)
            then ColtraneSubstitution.apply r2
                   (chromaticApproach style * (15 # 100))%Q (coltrane_rng w)
            else (r2, coltrane_rng w)) as [r3 ct] eqn:E3.
  assert (H3 : (exists k, length r3 = (length r2 + 4 * k)%nat)
               /\ last r3 = last r2).
  { destruct ((4 <=? dominantChainDepth style)
              && Qlt_bool (4 # 10) (chromaticApproach style)).
    - pose proof (coltrane_apply_grows
                    (chromaticApproach style * (15 # 100))%Q r2
                    (coltrane_rng w)) as Hg.
      pose proof (coltrane_apply_last
                    (chromaticApproach style * (15 # 100))%Q r2
                    (coltrane_rng w)) as Hl.
      rewrite E3 in Hg, Hl. split; assumption.
    - injection E3 as <- _. split; [exists 0%nat; lia | reflexivity]. }
  cbv zeta. cbn [fst snd derive_rng adjustLength_rng].
  destruct H1 as [L1 T1], H2 as [L2 T2], H3 as [[k L3] T3].
  split; [congruence|]. split; [exists k; lia|]. split; reflexivity.
Qed.


(** ** The grammar table *)

Lemma clamped_prob_range (lhs : NonTerminal.t) (rhs : list Symbol) (prob : Q)
      (type : RuleType.t) (name : string) :
  (0 <= rule_prob (mkGrammarRule lhs rhs prob type name) <= 1)%Q.
Proof.
  unfold mkGrammarRule. simpl.
  destruct (Qlt_bool prob 0) eqn:H0.
  - change (Qlt_bool 1 0) with false. cbv iota. split; discriminate.
  - destruct (Qlt_bool 1 prob) eqn:H1.
    + split; discriminate.
    + split.
      * apply Qnot_lt_le. intros H. apply Qlt_bool_true in H. congruence.
      * apply Qnot_lt_le. intros H. apply Qlt_bool_true in H. congruence.
Qed.

Lemma clamped_prob_value (lhs : NonTerminal.t) (rhs : list Symbol) (prob : Q)
      (type : RuleType.t) (name : string) :
  (prob < 0 /\ rule_prob (mkGrammarRule lhs rhs prob type name) = 0)%Q
  \/ (1 < prob /\ rule_prob (mkGrammarRule lhs rhs prob type name) = 1)%Q
  \/ (0 <= prob <= 1
      /\ rule_prob (mkGrammarRule lhs rhs prob type name) = prob)%Q.
Proof.
  unfold mkGrammarRule. cbn [rule_prob].
  destruct (Qlt_bool prob 0) eqn:H0.
  - left. split; [apply Qlt_bool_true; exact H0 | reflexivity].
  - assert (Hge : (0 <= prob)%Q).
    { apply Qnot_lt_le. intros H. apply Qlt_bool_true in H. congruence. }
    destruct (Qlt_bool 1 prob) eqn:H1.
    + right. left. split; [apply Qlt_bool_true; exact H1 | reflexivity].
    + right. right. split; [|reflexivity]. split; [exact Hge|].
      apply Qnot_lt_le. intros H. apply Qlt_bool_true in H. congruence.
Qed.

Lemma getRuleCount_from (g : PCFG) (l : list NonTerminal.t) (a : nat) :
  fold_left (fun count n => (count + length (rules_ g n))%nat) l a
  = (a + fold_left (fun count n => (count + length (rules_ g n))%nat) l O)%nat.
Proof.
  revert a. induction l as [|n l IH]; intros a; simpl; [lia|].
  rewrite (IH (a + _)%nat), (IH (length _)). lia.
Qed.

(** X22. [addRule] appends: afterwards the rules of the left-hand
    non-terminal are the earlier ones followed by the new rule, the rules
    of every other non-terminal are untouched, [getRuleCount] is one more,
    and the stored weight is the given one clamped into [0,1]: 0 for a
    negative weight, 1 for a weight above 1, the given weight otherwise. *)
Theorem addRule_getRules (g : PCFG) (lhs other : NonTerminal.t)
        (rhs : list Symbol) (prob : Q) (type : RuleType.t) (name : string) :
  other <> lhs ->
  let g' := addRule g lhs rhs prob type name in
  getRules g' lhs = getRules g lhs ++ [mkGrammarRule lhs rhs prob type name]
  /\ getRules g' other = getRules g other
  /\ getRuleCount g' = S (getRuleCount g)
  /\ (0 <= rule_prob (mkGrammarRule lhs rhs prob type name) <= 1)%Q
  /\ ((prob < 0 /\ rule_prob (mkGrammarRule lhs rhs prob type name) = 0)%Q
      \/ (1 < prob /\ rule_prob (mkGrammarRule lhs rhs prob type name) = 1)%Q
      \/ (0 <= prob <= 1
          /\ rule_prob (mkGrammarRule lhs rhs prob type name) = prob)%Q)
  /\ ruleShape (mkGrammarRule lhs rhs prob type name)
     = (lhs, rhs, type, name).
Proof.
  intros Hne. cbv zeta. unfold getRules, addRule. cbn [rules_].
  split; [destruct lhs; reflexivity|].
  split; [destruct other, lhs; try reflexivity; congruence|].
  split; [|split; [apply clamped_prob_range
                  | split; [apply clamped_prob_value | reflexivity]]].
  unfold getRuleCount. cbn [rules_].
  destruct lhs; cbn [allNonTerminals fold_left NonTerminal.eqb];
    rewrite ?length_app; cbn [length]; lia.
Qed.

Lemma addRule_getRules_base :
  NonTerminal.PHRASE <> NonTerminal.T
  /\ getRuleCount (addRule (createBaseGrammar (constant_draws 0))
                           NonTerminal.T [tmsym "I" "maj6"] (3 # 2)
                           RuleType.TERMINAL "t_sixth")
     = 23%nat
  /\ getRules (addRule (createBaseGrammar (constant_draws 0))
                       NonTerminal.T [tmsym "I" "maj6"] (3 # 2)
                       RuleType.TERMINAL "t_sixth") NonTerminal.PHRASE
     = [].
Proof.
  assert (H : NonTerminal.PHRASE <> NonTerminal.T) by discriminate.
  split; [exact H|].
  destruct (addRule_getRules (createBaseGrammar (constant_draws 0))
              NonTerminal.T NonTerminal.PHRASE [tmsym "I" "maj6"] (3 # 2)
              RuleType.TERMINAL "t_sixth" H) as (_ & H2 & H3 & _).
  split; [exact H3 | exact H2].
Defined.

Lemma pickCumulative_In (r : Q) :
  forall ruleList cumsum rule,
    pickCumulative r cumsum ruleList = Some rule -> In rule ruleList.
Proof.
  induction ruleList as [|x l IH]; intros cumsum rule; simpl; [discriminate|].
  destruct (Qle_bool r (cumsum + rule_prob x)).
  - intros [= <-]. left. reflexivity.
  - intros H. right. exact (IH _ _ H).
Qed.

Lemma last_In {A : Type} (l : list A) (x : A) : last l = Some x -> In x l.
Proof.
  intros H. apply list_elem_of_In. apply last_Some in H as [l' ->].
  apply elem_of_app. right. constructor.
Qed.

Lemma sampleRule_In (g : PCFG) (n : NonTerminal.t) (rule : GrammarRule) :
  fst (sampleRule g n) = Some rule -> In rule (getRules g n).
Proof.
  unfold sampleRule.
  destruct (getRules g n) as [|r0 rs] eqn:Hrules; [discriminate|].
  destruct (Qeq_bool (totalProb (r0 :: rs)) 0).
  - pose proof (uniform_index_lt (length (r0 :: rs)) (rng_ g)
                  ltac:(cbn [length]; lia)) as Hidx.
    destruct (uniform_index (length (r0 :: rs)) (rng_ g)) as [idx rng'].
    cbn [fst snd] in *. intros H.
    apply list_elem_of_In. eapply list_elem_of_lookup_2. exact H.
  - destruct (uniform_real 0 (totalProb (r0 :: rs)) (rng_ g)) as [r rng'].
    cbn [fst].
    destruct (pickCumulative r 0 (r0 :: rs)) as [picked|] eqn:Hpick.
    + intros [= <-]. eapply pickCumulative_In; eassumption.
    + apply last_In.
Qed.

Lemma sampleRule_None (g : PCFG) (n : NonTerminal.t) :
  fst (sampleRule g n) = None -> getRules g n = [] /\ snd (sampleRule g n) = g.
Proof.
  unfold sampleRule.
  destruct (getRules g n) as [|r0 rs] eqn:Hrules; [split; reflexivity|].
  destruct (Qeq_bool (totalProb (r0 :: rs)) 0).
  - pose proof (uniform_index_lt (length (r0 :: rs)) (rng_ g)
                  ltac:(cbn [length]; lia)) as Hidx.
    destruct (uniform_index (length (r0 :: rs)) (rng_ g)) as [idx rng'].
    cbn [fst snd] in *. intros H.
    apply lookup_ge_None in H. lia.
  - destruct (uniform_real 0 (totalProb (r0 :: rs)) (rng_ g)) as [r rng'].
    cbn [fst].
    destruct (pickCumulative r 0 (r0 :: rs)) as [picked|] eqn:Hpick;
      [discriminate|].
    intros H. apply last_None in H. discriminate.
Qed.

(** X23. [sampleRule] never invents a rule and never touches the table: it
    returns the null pointer exactly when the non-terminal has no rules
    (and then leaves the generator where it was), and otherwise one of the
    rules listed for that non-terminal, whatever the weights (all zero
    included) and the draw; rules and start symbol are unchanged. *)
Theorem sampleRule_member (g : PCFG) (n : NonTerminal.t) :
  let sampled := fst (sampleRule g n) in
  let g' := snd (sampleRule g n) in
  match sampled with
  | None => getRules g n = [] /\ g' = g
  | Some rule => In rule (getRules g n)
  end
  /\ (sampled = None <-> getRules g n = [])
  /\ rules_ g' = rules_ g
  /\ startSymbol_ g' = startSymbol_ g.
Proof.
  cbv zeta.
  pose proof (sampleRule_In g n) as HIn.
  pose proof (sampleRule_None g n) as HNone.
  split; [|split; [|split]].
  - destruct (fst (sampleRule g n)) as [rule|]; auto.
  - split; [intros H; apply HNone, H|].
    intros H. destruct (fst (sampleRule g n)) as [rule|]; [|reflexivity].
    specialize (HIn rule eq_refl). rewrite H in HIn. destruct HIn.
  - apply sampleRule_rules.
  - unfold sampleRule. destruct (getRules g n); [reflexivity|].
    destruct (Qeq_bool _ 0).
    + destruct (uniform_index _ _). reflexivity.
    + destruct (uniform_real _ _ _). reflexivity.
Qed.

Lemma normalizeList_shape (l : list GrammarRule) :
  map ruleShape (normalizeList l) = map ruleShape l.
Proof.
  unfold normalizeList. destruct (Qlt_bool 0 (totalProb l)); [|reflexivity].
  rewrite map_map. reflexivity.
Qed.

Lemma reweigh_shape (g : PCFG) (n n' : NonTerminal.t)
      (f : GrammarRule -> GrammarRule) :
  (forall r, ruleShape (f r) = ruleShape r) ->
  map ruleShape (rules_ (reweigh g n f) n') = map ruleShape (rules_ g n').
Proof.
  intros Hf. unfold reweigh. cbn [rules_].
  destruct (NonTerminal.eqb n' n); [|reflexivity].
  rewrite map_map. apply map_ext. exact Hf.
Qed.

Lemma styleToPCFG_shape (style : StyleVector) (entropy : Rng)
      (n : NonTerminal.t) :
  map ruleShape (getRules (styleToPCFG style entropy) n)
  = map ruleShape (getRules (createBaseGrammar entropy) n).
Proof.
  unfold getRules, styleToPCFG, normalize. cbn [rules_].
  rewrite normalizeList_shape.
  rewrite !reweigh_shape; [reflexivity | ..];
    intros r;
    repeat match goal with
           | |- context [if ?b then _ else _] => destruct b
           end; reflexivity.
Qed.

Lemma setProb_range (r : GrammarRule) (p : Q) :
  (0 <= rule_prob (setProb r p) <= 1)%Q.
Proof.
  simpl. split; [apply Q.le_max_l|].
  apply Q.max_lub; [discriminate | apply Q.le_min_l].
Qed.


(** ** What a derivation tree looks like *)

Lemma deriveChildren_Forall2
      (rec : Symbol -> Z -> DeriveState -> option (DerivationNode * DeriveState))
      (Inv : DeriveState -> Prop) (Q : Symbol -> DerivationNode -> Prop)
      (currentKey : Z) :
  (forall sym k s node s',
      Inv s -> rec sym k s = Some (node, s') -> Q sym node /\ Inv s') ->
  forall rhs st nodes st',
    Inv st ->
    deriveChildren rec currentKey rhs st = Some (nodes, st') ->
    Forall2 (fun sym node => Q (childSymOf (childKeyOf currentKey sym) sym) node)
            rhs nodes
    /\ Inv st'.
Proof.
  intros Hrec. induction rhs as [|sym rest IH]; intros st nodes st' Hinv.
  - cbn [deriveChildren]. intros [= <- <-]. split; [constructor | assumption].
  - cbn [deriveChildren]. cbv zeta.
    destruct (rec (childSymOf (childKeyOf currentKey sym) sym)
                  (childKeyOf currentKey sym) st) as [[node s1]|] eqn:Hnode;
      [|discriminate].
    cbn [mbind option_bind].
    destruct (deriveChildren rec currentKey rest s1) as [[nodes' s2]|] eqn:Hrest;
      [|discriminate].
    cbn [mbind option_bind]. intros [= <- <-].
    destruct (Hrec _ _ _ _ _ Hinv Hnode) as [Hq Hinv1].
    destruct (IH _ _ _ Hinv1 Hrest) as [Hall Hinv2].
    split; [constructor; assumption | assumption].
Qed.

Lemma fold_max_le (B : Z) (l : list Z) (a : Z) :
  a <= B -> Forall (fun x => x <= B) l -> fold_left Z.max l a <= B.
Proof.
  revert a. induction l as [|x l IH]; intros a Ha Hl; simpl; [assumption|].
  apply Forall_cons in Hl as [Hx Hl]. apply IH; [lia | assumption].
Qed.

Lemma nodeDepth_le (B : Z) (symbol : Symbol) (key : Z)
      (children : list DerivationNode) (ruleUsed : option GrammarRule) :
  0 <= B ->
  Forall (fun c => nodeDepth c <= B) children ->
  nodeDepth (Node symbol key children ruleUsed) <= 1 + B.
Proof.
  intros HB Hall. cbn [nodeDepth]. destruct children as [|c cs]; [lia|].
  assert (fold_left Z.max (map nodeDepth (c :: cs)) 0 <= B); [|lia].
  apply fold_max_le; [assumption|].
  apply Forall_fmap. exact Hall.
Qed.

Lemma known_terminals_lookup (g : PCFG) (n : NonTerminal.t) (r : GrammarRule) :
  known_terminals g = true ->
  In r (rules_ g n) ->
  forallb symbolKnown (rule_rhs r) = true.
Proof.
  unfold known_terminals. intros Hall Hin.
  rewrite forallb_forall in Hall.
  assert (Hn : In n allNonTerminals) by (destruct n; simpl; tauto).
  specialize (Hall n Hn). rewrite forallb_forall in Hall.
  exact (Hall r Hin).
Qed.

Lemma nonempty_rhs_lookup (g : PCFG) (n : NonTerminal.t) (r : GrammarRule) :
  nonempty_rhs g = true ->
  In r (rules_ g n) ->
  rule_rhs r <> [].
Proof.
  unfold nonempty_rhs. intros Hall Hin.
  rewrite forallb_forall in Hall.
  assert (Hn : In n allNonTerminals) by (destruct n; simpl; tauto).
  specialize (Hall n Hn). rewrite forallb_forall in Hall.
  specialize (Hall r Hin). destruct (rule_rhs r); [discriminate | discriminate].
Qed.

Lemma symbolKnown_childSymOf (k : Z) (sym : Symbol) :
  symbolKnown (childSymOf k sym) = symbolKnown sym.
Proof. destruct sym; reflexivity. Qed.

Lemma getDefaultTerminal_known (n : NonTerminal.t) :
  terminalKnown (getDefaultTerminal n) = true.
Proof. destruct n; vm_compute; reflexivity. Qed.

Lemma children_leaves (P : TerminalSymbol * Z -> Prop)
      (children : list DerivationNode) :
  Forall (fun c => Forall P (getTerminals c)) children ->
  Forall P (flat_map getTerminals children).
Proof.
  induction 1 as [|c cs Hc _ IH]; simpl; [constructor|].
  apply Forall_app. split; assumption.
Qed.

(** The tree [derive] builds over the rule table of [g0]: the table is
    left as it is; a terminal gives a leaf; the tree is no deeper than the
    levels left down to [maxDepth] plus the forced terminal rule; it has a
    leaf when no right-hand side is empty; its leaves are terminals of the
    table or defaults. *)
Lemma derive_invariants (cfg : GeneratorConfig) (g0 : PCFG) :
  forall fuel symbol depth key st node st',
    rules_ (ds_grammar st) = rules_ g0 ->
    derive fuel cfg symbol depth key st = Some (node, st') ->
    rules_ (ds_grammar st') = rules_ g0
    /\ (isTerminal symbol = true -> nodeDepth node = 0)
    /\ (flat_terminal_rules g0 = true ->
        nodeDepth node <= Z.max 0 (maxDepth cfg - depth) + 1)
    /\ (nonempty_rhs g0 = true -> getTerminals node <> [])
    /\ (known_terminals g0 = true -> symbolKnown symbol = true ->
        leavesKnown node).
Proof.
  induction fuel as [|fuel IH]; intros symbol depth key st node st' Hrules;
    [discriminate|].
  destruct symbol as [nts|term].
  2:{ cbn [derive]. intros [= <- <-].
      split; [assumption|]. split; [reflexivity|].
      split; [intros _; cbn [nodeDepth]; lia|].
      split; [discriminate|].
      intros _ Hk. constructor; [exact Hk | constructor]. }
  destruct st as [g static]. cbn [ds_grammar] in Hrules.
  cbn [derive]. cbv zeta.
  set (currentKey := match nts_key nts with Some k => k | None => key end).
  assert (Hdefault :
            forall s, rules_ (ds_grammar s) = rules_ g0 ->
              rules_ (ds_grammar s) = rules_ g0
              /\ (isTerminal (SymNT nts) = true ->
                  nodeDepth (defaultNode (SymNT nts) (nts_nt nts) currentKey) = 0)
              /\ (flat_terminal_rules g0 = true ->
                  nodeDepth (defaultNode (SymNT nts) (nts_nt nts) currentKey)
                  <= Z.max 0 (maxDepth cfg - depth) + 1)
              /\ (nonempty_rhs g0 = true ->
                  getTerminals (defaultNode (SymNT nts) (nts_nt nts) currentKey)
                  <> [])
              /\ (known_terminals g0 = true -> symbolKnown (SymNT nts) = true ->
                  leavesKnown (defaultNode (SymNT nts) (nts_nt nts) currentKey))).
  { intros s Hs. split; [assumption|]. split; [discriminate|].
    split; [intros _; cbn; lia|]. split; [discriminate|].
    intros _ _. unfold leavesKnown. cbn.
    constructor; [apply getDefaultTerminal_known | constructor]. }
  assert (Hexpand :
            forall rule s children s',
              rules_ (ds_grammar s) = rules_ g0 ->
              In rule (rules_ g0 (nts_nt nts)) ->
              (flat_terminal_rules g0 = true -> maxDepth cfg <= depth ->
               forallb isTerminal (rule_rhs rule) = true) ->
              deriveChildren
                (fun sym k s0 => derive fuel cfg sym (depth + 1) k s0)
                currentKey (rule_rhs rule) s = Some (children, s') ->
              rules_ (ds_grammar s') = rules_ g0
              /\ (isTerminal (SymNT nts) = true ->
                  nodeDepth (Node (SymNT nts) currentKey children (Some rule)) = 0)
              /\ (flat_terminal_rules g0 = true ->
                  nodeDepth (Node (SymNT nts) currentKey children (Some rule))
                  <= Z.max 0 (maxDepth cfg - depth) + 1)
              /\ (nonempty_rhs g0 = true ->
                  getTerminals (Node (SymNT nts) currentKey children (Some rule))
                  <> [])
              /\ (known_terminals g0 = true -> symbolKnown (SymNT nts) = true ->
                  leavesKnown (Node (SymNT nts) currentKey children (Some rule)))).
  { intros rule s children s' Hs Hin Hflatrule Hchildren.
    destruct (deriveChildren_Forall2
                (fun sym k s0 => derive fuel cfg sym (depth + 1) k s0)
                (fun s0 => rules_ (ds_grammar s0) = rules_ g0)
                (fun sym child =>
                   (isTerminal sym = true -> nodeDepth child = 0)
                   /\ (flat_terminal_rules g0 = true ->
                       nodeDepth child
                       <= Z.max 0 (maxDepth cfg - (depth + 1)) + 1)
                   /\ (nonempty_rhs g0 = true -> getTerminals child <> [])
                   /\ (known_terminals g0 = true -> symbolKnown sym = true ->
                       leavesKnown child))
                currentKey) with (rhs := rule_rhs rule) (st := s)
                                 (nodes := children) (st' := s')
      as [Hall Hs'].
    { intros sym k s0 child s1 Hs0 Hchild.
      destruct (IH _ _ _ _ _ _ Hs0 Hchild) as (H1 & H2 & H3 & H4 & H5).
      repeat split; assumption. }
    { exact Hs. }
    { exact Hchildren. }
    split; [assumption|]. split; [discriminate|].
    split; [|split].
    - intros Hflat.
      destruct (Z.le_gt_cases (maxDepth cfg) depth) as [Hdeep|Hshallow].
      + specialize (Hflatrule Hflat Hdeep).
        rewrite forallb_forall in Hflatrule.
        assert (H0 : Forall (fun c => nodeDepth c <= 0) children).
        { clear - Hall Hflatrule. induction Hall as [|sym c rhs cs Hc _ IHall];
            [constructor|].
          constructor.
          - destruct Hc as [Hc _]. rewrite Hc; [lia|].
            apply childSymOf_terminal, Hflatrule. left. reflexivity.
          - apply IHall. intros x Hx. apply Hflatrule. right. exact Hx. }
        pose proof (nodeDepth_le 0 (SymNT nts) currentKey children (Some rule)
                      ltac:(lia) H0).
        lia.
      + assert (H0 : Forall (fun c => nodeDepth c <= maxDepth cfg - depth)
                            children).
        { clear - Hall Hflat Hshallow.
          induction Hall as [|sym c rhs cs Hc _ IHall]; constructor.
          - destruct Hc as (_ & Hc & _). specialize (Hc Hflat). lia.
          - exact IHall. }
        pose proof (nodeDepth_le (maxDepth cfg - depth) (SymNT nts) currentKey
                      children (Some rule) ltac:(lia) H0).
        lia.
    - intros Hne. pose proof (nonempty_rhs_lookup g0 _ rule Hne Hin) as Hrhs.
      cbn [getTerminals].
      destruct Hall as [|sym c rhs cs Hc _]; [congruence|].
      destruct Hc as (_ & _ & Hc & _). specialize (Hc Hne).
      cbn [flat_map]. destruct (getTerminals c); [congruence | discriminate].
    - intros Hknown _.
      pose proof (known_terminals_lookup g0 _ rule Hknown Hin) as Hrhs.
      rewrite forallb_forall in Hrhs.
      unfold leavesKnown. cbn [getTerminals]. apply children_leaves.
      clear - Hall Hrhs Hknown.
      induction Hall as [|sym c rhs cs Hc _ IHall]; constructor.
      + destruct Hc as (_ & _ & _ & Hc). apply Hc; [assumption|].
        rewrite symbolKnown_childSymOf. apply Hrhs. left. reflexivity.
      + apply IHall. intros x Hx. apply Hrhs. right. exact Hx. }
  destruct (Z.leb_spec (maxDepth cfg) depth) as [Hdeep|Hshallow].
  - cbn [ds_grammar ds_static].
    destruct (filter (fun r => RuleType.eqb (rule_type r) RuleType.TERMINAL = true)
                     (getRules g (nts_nt nts)))
      as [|r0 rs] eqn:Hfilter.
    { intros [= <- <-]. apply Hdefault. exact Hrules. }
    destruct (uniform_index (length (r0 :: rs)) static) as [idx rng'].
    destruct ((r0 :: rs) !! idx) as [rule|] eqn:Hrule; [|discriminate].
    assert (Hin : rule ∈ filter
                    (fun r => RuleType.eqb (rule_type r) RuleType.TERMINAL = true)
                    (getRules g (nts_nt nts))).
    { rewrite Hfilter. eapply list_elem_of_lookup_2; eassumption. }
    apply list_elem_of_filter in Hin as [Hkind Hmem].
    apply list_elem_of_In in Hmem. unfold getRules in Hmem.
    rewrite Hrules in Hmem.
    destruct (deriveChildren
                (fun sym k s => derive fuel cfg sym (depth + 1) k s)
                currentKey (rule_rhs rule) (MkDeriveState g rng'))
      as [[children s']|] eqn:Hchildren; [|discriminate].
    cbn [mbind option_bind]. intros [= <- <-].
    destruct (Hexpand rule (MkDeriveState g rng') children s' Hrules Hmem)
      as (H1 & H2 & H3 & H4 & H5); [|exact Hchildren|].
    2:{ repeat split; assumption. }
    intros Hflat _.
    pose proof (flat_terminal_rules_lookup g0 _ rule Hflat Hmem) as Hr.
    unfold terminal_rule_is_flat in Hr. rewrite Hkind in Hr. exact Hr.
  - cbn [ds_grammar ds_static].
    pose proof (sampleRule_rules g (nts_nt nts)) as Hsame.
    pose proof (sampleRule_In g (nts_nt nts)) as Hin.
    destruct (sampleRule g (nts_nt nts)) as [sampled g']. cbn [fst snd] in *.
    assert (Hrules' : rules_ g' = rules_ g0) by congruence.
    destruct sampled as [rule|].
    2:{ intros [= <- <-]. apply Hdefault. exact Hrules'. }
    specialize (Hin rule eq_refl). unfold getRules in Hin. rewrite Hrules in Hin.
    destruct (deriveChildren
                (fun sym k s => derive fuel cfg sym (depth + 1) k s)
                currentKey (rule_rhs rule) (MkDeriveState g' static))
      as [[children s']|] eqn:Hchildren; [|discriminate].
    cbn [mbind option_bind]. intros [= <- <-].
    apply (Hexpand rule (MkDeriveState g' static) children s' Hrules' Hin);
      [|exact Hchildren].
    intros _ Hdeep. lia.
Qed.


Lemma forallb_shape (P : GrammarRule -> bool) :
  (forall r r', ruleShape r = ruleShape r' -> P r = P r') ->
  forall l l', map ruleShape l = map ruleShape l' -> forallb P l = forallb P l'.
Proof.
  intros HP. induction l as [|r l IH]; intros [|r' l']; simpl;
    try discriminate; [reflexivity|].
  intros [= Hr Hl]. rewrite (HP r r'), (IH l'); try assumption; [reflexivity|].
  unfold ruleShape. congruence.
Qed.

Lemma forallb_pointwise {A : Type} (p q : A -> bool) (l : list A) :
  (forall x, p x = q x) -> forallb p l = forallb q l.
Proof.
  intros H. induction l as [|x l IH]; simpl; [reflexivity|].
  rewrite H, IH. reflexivity.
Qed.

Lemma ruleShape_fields (r r' : GrammarRule) :
  ruleShape r = ruleShape r' ->
  rule_rhs r = rule_rhs r' /\ rule_type r = rule_type r'.
Proof. unfold ruleShape. intros [= _ H1 H2 _]. split; assumption. Qed.

Lemma createBaseGrammar_invariants (entropy : Rng) :
  nonempty_rhs (createBaseGrammar entropy) = true
  /\ known_terminals (createBaseGrammar entropy) = true.
Proof. split; vm_compute; reflexivity. Qed.

Lemma nonempty_rhs_shape (g g' : PCFG) :
  (forall n, map ruleShape (rules_ g n) = map ruleShape (rules_ g' n)) ->
  nonempty_rhs g = nonempty_rhs g'.
Proof.
  intros Hshape. unfold nonempty_rhs.
  apply forallb_pointwise. intros n.
  apply (forallb_shape
           (fun r => match rule_rhs r with [] => false | _ => true end));
    [|apply Hshape].
  intros r r' Hr. apply ruleShape_fields in Hr as [Hr _]. rewrite Hr. reflexivity.
Qed.

Lemma known_terminals_shape (g g' : PCFG) :
  (forall n, map ruleShape (rules_ g n) = map ruleShape (rules_ g' n)) ->
  known_terminals g = known_terminals g'.
Proof.
  intros Hshape. unfold known_terminals.
  apply forallb_pointwise. intros n.
  apply (forallb_shape (fun r => forallb symbolKnown (rule_rhs r)));
    [|apply Hshape].
  intros r r' Hr. apply ruleShape_fields in Hr as [Hr _]. rewrite Hr. reflexivity.
Qed.

Lemma styleToPCFG_invariants (style : StyleVector) (entropy : Rng) :
  nonempty_rhs (styleToPCFG style entropy) = true
  /\ known_terminals (styleToPCFG style entropy) = true.
Proof.
  destruct (createBaseGrammar_invariants entropy) as [Hne Hknown].
  pose proof (styleToPCFG_shape style entropy) as Hshape.
  unfold getRules in Hshape.
  split.
  - etransitivity; [|exact Hne]. apply nonempty_rhs_shape. exact Hshape.
  - etransitivity; [|exact Hknown]. apply known_terminals_shape. exact Hshape.
Qed.

Lemma createBaseGrammar_count (entropy : Rng) :
  getRuleCount (createBaseGrammar entropy) = 22%nat.
Proof. vm_compute. reflexivity. Qed.

Lemma getRuleCount_lengths (g g' : PCFG) :
  (forall m, length (rules_ g m) = length (rules_ g' m)) ->
  getRuleCount g = getRuleCount g'.
Proof.
  intros Hlen. unfold getRuleCount. cbn [allNonTerminals fold_left].
  rewrite (Hlen NonTerminal.S), (Hlen NonTerminal.T), (Hlen NonTerminal.D),
    (Hlen NonTerminal.SD), (Hlen NonTerminal.PROL), (Hlen NonTerminal.PREP),
    (Hlen NonTerminal.PHRASE).
  reflexivity.
Qed.

(** X24. A style only reweights the built-in grammar, it never restructures
    it: for every style, [styleToPCFG] has, under every non-terminal, the
    rules of [createBaseGrammar] in the same order with the same left-hand
    side, right-hand side, kind and name, and the same start symbol; so no
    rule has an empty right-hand side, every rule of kind TERMINAL has only
    terminals, and every terminal has a degree of the degree table (a
    secondary dominant also a target of the table) and one of the seven
    quality labels [stringToChordQuality] knows. *)
Theorem styleToPCFG_keeps_structure (style : StyleVector) (entropy : Rng)
        (n : NonTerminal.t) :
  map ruleShape (getRules (styleToPCFG style entropy) n)
  = map ruleShape (getRules (createBaseGrammar entropy) n)
  /\ startSymbol_ (styleToPCFG style entropy) = NonTerminal.S
  /\ getRuleCount (styleToPCFG style entropy) = 22%nat
  /\ nonempty_rhs (styleToPCFG style entropy) = true
  /\ flat_terminal_rules (styleToPCFG style entropy) = true
  /\ known_terminals (styleToPCFG style entropy) = true.
Proof.
  pose proof (styleToPCFG_shape style entropy) as H.
  destruct (styleToPCFG_invariants style entropy) as [Hne Hknown].
  split; [apply H|]. split; [reflexivity|].
  split; [|split; [exact Hne | split; [apply styleToPCFG_flat | exact Hknown]]].
  rewrite <- (createBaseGrammar_count entropy).
  apply getRuleCount_lengths. intros m.
  specialize (H m). unfold getRules in H.
  apply (f_equal (@length _)) in H.
  rewrite !length_map in H. exact H.
Qed.

(** X25. Over a grammar whose TERMINAL rules are flat, [derive] returns
    once the fuel covers the levels down to [maxDepth] and two more, and
    the tree it builds is at most [max(0, maxDepth - depth) + 1] deep
    ([DerivationNode::depth]): the depth limit holds, with one level for
    the forced terminal rule.  The rule table is left as it was. *)
Theorem derive_tree_depth (cfg : GeneratorConfig) (fuel : nat)
        (symbol : Symbol) (depth key : Z) (st : DeriveState) :
  flat_terminal_rules (ds_grammar st) = true ->
  (Z.to_nat (maxDepth cfg - depth) + 2 <= fuel)%nat ->
  exists node st',
    derive fuel cfg symbol depth key st = Some (node, st')
    /\ nodeDepth node <= Z.max 0 (maxDepth cfg - depth) + 1
    /\ rules_ (ds_grammar st') = rules_ (ds_grammar st).
Proof.
  intros Hflat Hfuel.
  destruct (derive_total cfg fuel symbol depth key st Hflat Hfuel)
    as (node & st' & Hderive & _).
  exists node, st'. split; [exact Hderive|].
  destruct (derive_invariants cfg (ds_grammar st) fuel symbol depth key st
              node st' eq_refl Hderive) as (H1 & _ & H3 & _).
  split; [apply H3, Hflat | exact H1].
Qed.

Lemma derive_tree_depth_base :
  exists node st',
    derive 8 defaultConfig (SymNT (MkNTSymbol NonTerminal.S (Some 0))) 0 0
           (MkDeriveState (createBaseGrammar (constant_draws 0))
                          (constant_draws 0))
    = Some (node, st')
    /\ nodeDepth node <= Z.max 0 (maxDepth defaultConfig - 0) + 1
    /\ rules_ (ds_grammar st')
       = rules_ (ds_grammar
                   (MkDeriveState (createBaseGrammar (constant_draws 0))
                                  (constant_draws 0))).
Proof.
  apply (derive_tree_depth defaultConfig 8
           (SymNT (MkNTSymbol NonTerminal.S (Some 0))) 0 0
           (MkDeriveState (createBaseGrammar (constant_draws 0))
                          (constant_draws 0))).
  - vm_compute. reflexivity.
  - vm_compute. lia.
Defined.

Lemma generatorGenerate_of_tree (fuel : nat) (gen : HarmonyGenerator)
      (static : Rng) :
  generatorGenerate fuel gen static
  = match generateWithTree fuel gen static with
    | Some (chords, _, gen', static') => Some (chords, gen', static')
    | None => None
    end.
Proof.
  unfold generatorGenerate, generateWithTree.
  destruct (derive fuel (config_ gen) _ 0 (cfg_key (config_ gen)) _)
    as [[tree st]|]; reflexivity.
Qed.

(** X26. On a grammar with flat TERMINAL rules, no empty right-hand side
    and known terminals (every grammar a style engine builds),
    [HarmonyGenerator::generateWithTree] returns a tree and the chords of
    its leaves, which [generate] returns; there is at least one chord, and
    for every leaf of the tree each lookup made for it finds its key (the
    degree and the quality label in [terminalToChord], the target of a
    secondary dominant in [derive]), so none of the fall-backs is taken.
    Rules and configuration are unchanged. *)
Theorem generatorGenerate_chords (fuel : nat) (gen : HarmonyGenerator)
        (static : Rng) :
  flat_terminal_rules (grammar_ gen) = true ->
  nonempty_rhs (grammar_ gen) = true ->
  known_terminals (grammar_ gen) = true ->
  (Z.to_nat (maxDepth (config_ gen)) + 2 <= fuel)%nat ->
  exists tree gen' static',
    generateWithTree fuel gen static
    = Some (terminalsToChords (getTerminals tree), tree, gen', static')
    /\ generatorGenerate fuel gen static
       = Some (terminalsToChords (getTerminals tree), gen', static')
    /\ terminalsToChords (getTerminals tree) <> []
    /\ Forall (fun leaf => terminalKnown (fst leaf) = true)
              (getTerminals tree)
    /\ rules_ (grammar_ gen') = rules_ (grammar_ gen)
    /\ config_ gen' = config_ gen.
Proof.
  intros Hflat Hne Hknown Hfuel.
  rewrite generatorGenerate_of_tree. unfold generateWithTree.
  destruct (derive_total (config_ gen) fuel
              (SymNT (MkNTSymbol (startSymbol_ (grammar_ gen))
                                 (Some (cfg_key (config_ gen)))))
              0 (cfg_key (config_ gen))
              (MkDeriveState (grammar_ gen) static) Hflat)
    as (tree & st' & Hderive & _).
  { rewrite Z.sub_0_r. exact Hfuel. }
  rewrite Hderive. cbn [mbind option_bind].
  destruct (derive_invariants (config_ gen) (grammar_ gen) fuel _ _ _
              (MkDeriveState (grammar_ gen) static)
              tree st' eq_refl Hderive) as (H1 & _ & _ & H4 & H5).
  exists tree, (MkHarmonyGenerator (ds_grammar st') (config_ gen)),
    (ds_static st').
  split; [reflexivity|]. split; [reflexivity|].
  split.
  { specialize (H4 Hne). unfold terminalsToChords.
    destruct (getTerminals tree); [congruence | discriminate]. }
  split; [apply H5; [assumption | reflexivity]|].
  split; [exact H1 | reflexivity].
Qed.

Lemma generatorGenerate_chords_bebop :
  exists tree gen' static',
    generateWithTree 8
      (generator_ (newStyleEngine StylePresets.BEBOP (constant_draws 0)))
      (constant_draws 0)
    = Some (terminalsToChords (getTerminals tree), tree, gen', static')
    /\ generatorGenerate 8
         (generator_ (newStyleEngine StylePresets.BEBOP (constant_draws 0)))
         (constant_draws 0)
       = Some (terminalsToChords (getTerminals tree), gen', static')
    /\ terminalsToChords (getTerminals tree) <> []
    /\ Forall (fun leaf => terminalKnown (fst leaf) = true)
              (getTerminals tree)
    /\ rules_ (grammar_ gen')
       = rules_ (grammar_
                   (generator_
                      (newStyleEngine StylePresets.BEBOP (constant_draws 0))))
    /\ config_ gen'
       = config_ (generator_
                    (newStyleEngine StylePresets.BEBOP (constant_draws 0))).
Proof.
  apply (generatorGenerate_chords 8
           (generator_ (newStyleEngine StylePresets.BEBOP (constant_draws 0)))
           (constant_draws 0)).
  - vm_compute. reflexivity.
  - vm_compute. reflexivity.
  - vm_compute. reflexivity.
  - vm_compute. lia.
Defined.


(** ** Secondary dominants *)

Lemma substring_all (s : string) : String.substring 0 (String.length s) s = s.
Proof. induction s as [|a s IH]; simpl; [reflexivity|]. rewrite IH. reflexivity. Qed.

Lemma prefix_empty (s : string) : String.prefix "" s = true.
Proof. destruct s; reflexivity. Qed.

Lemma childKeyOf_secondary (key : Z) (target qual : string) :
  childKeyOf key (SymT (mkTerminal (String "V" (String "/" target)) qual))
  = Z.rem (key + degreeToSemitones target) 12.
Proof.
  unfold childKeyOf, mkTerminal. cbn [term_degree].
  cbn [String.index String.prefix].
  destruct (ascii_dec "V" "V") as [_|Hne]; [|congruence].
  destruct (ascii_dec "/" "/") as [_|Hne]; [|congruence].
  destruct (ascii_dec "/" "V") as [Heq|_]; [discriminate|].
  rewrite !prefix_empty.
  cbn [String.length Nat.add Nat.sub String.substring].
  rewrite Nat.sub_0_r, substring_all. reflexivity.
Qed.

Lemma terminalToChord_secondary (key : Z) (target qual : string) :
  terminalToChord (mkTerminal (String "V" (String "/" target)) qual) key
  = mkChord (mkPitch (wrap12 (key + 7))) (stringToChordQuality qual).
Proof.
  unfold terminalToChord, mkTerminal. cbn [term_degree term_quality].
  cbn [String.index String.prefix].
  destruct (ascii_dec "/" "V") as [Heq|_]; [discriminate|].
  destruct (ascii_dec "/" "/") as [_|Hne]; [|congruence].
  rewrite !prefix_empty. cbv zeta.
  change (degreeToSemitones "V") with 7. reflexivity.
Qed.

Lemma rem_mod_12 (x : Z) : Z.rem x 12 mod 12 = x mod 12.
Proof. Z.to_euclidean_division_equations; lia. Qed.

(** X27. A secondary dominant V/x is derived in two steps, the key moved
    to the target degree by [derive] and the chord built on the fifth of
    that key by [terminalToChord]; for every key to which a table entry
    can be added within the range of [int] (negative keys included),
    every target label and every quality label the chord's root is
    [key + degreeToSemitones(x) + 7] modulo 12, an unknown target counting
    as the tonic, and for V/V, V/ii and V/IV this is the entry the degree
    table itself lists. *)
Theorem secondary_dominant_root (key : Z) (target qual : string) :
  semitonesFit key ->
  let t := mkTerminal (String "V" (String "/" target)) qual in
  let chord := terminalToChord t (childKeyOf key (SymT t)) in
  value (root chord) = (key + degreeToSemitones target + 7) mod 12
  /\ quality chord = stringToChordQuality qual
  /\ Forall (fun label =>
               degreeToSemitones (String "V" (String "/" label))
               = (degreeToSemitones label + 7) mod 12)
            [ "V"; "ii"; "IV" ]%string.
Proof.
  intros _.
  cbv zeta. rewrite childKeyOf_secondary, terminalToChord_secondary.
  split; [|split; [reflexivity | repeat constructor]].
  cbn [root mkChord]. rewrite value_mkPitch, !wrap12_mod.
  rewrite Z.mod_mod by lia.
  rewrite Z.add_mod by lia. rewrite rem_mod_12.
  rewrite <- Z.add_mod by lia. reflexivity.
Qed.

Lemma secondary_dominant_root_of_ii :
  let t := mkTerminal (String "V" (String "/" "ii")) "7" in
  let chord := terminalToChord t (childKeyOf (-3) (SymT t)) in
  value (root chord) = (-3 + degreeToSemitones "ii" + 7) mod 12
  /\ quality chord = stringToChordQuality "7"
  /\ Forall (fun label =>
               degreeToSemitones (String "V" (String "/" label))
               = (degreeToSemitones label + 7) mod 12)
            [ "V"; "ii"; "IV" ]%string.
Proof.
  apply (secondary_dominant_root (-3) "ii" "7").
  unfold semitonesFit, fitsInt, INT_MIN, INT_MAX; lia.
Defined.


(** ** The convenience function *)

Lemma generatorGenerate_nonempty (fuel : nat) (gen : HarmonyGenerator)
      (static : Rng) :
  flat_terminal_rules (grammar_ gen) = true ->
  nonempty_rhs (grammar_ gen) = true ->
  (Z.to_nat (maxDepth (config_ gen)) + 2 <= fuel)%nat ->
  exists chords gen' static',
    generatorGenerate fuel gen static = Some (chords, gen', static')
    /\ chords <> [].
Proof.
  intros Hflat Hne Hfuel. unfold generatorGenerate.
  destruct (derive_total (config_ gen) fuel
              (SymNT (MkNTSymbol (startSymbol_ (grammar_ gen))
                                 (Some (cfg_key (config_ gen)))))
              0 (cfg_key (config_ gen))
              (MkDeriveState (grammar_ gen) static) Hflat)
    as (tree & st' & Hderive & _).
  { rewrite Z.sub_0_r. exact Hfuel. }
  rewrite Hderive. cbn [mbind option_bind].
  destruct (derive_invariants (config_ gen) (grammar_ gen) fuel _ _ _
              (MkDeriveState (grammar_ gen) static)
              tree st' eq_refl Hderive) as (_ & _ & _ & H4 & _).
  eexists _, _, _. split; [reflexivity|].
  specialize (H4 Hne). unfold terminalsToChords.
  destruct (getTerminals tree); [congruence | discriminate].
Qed.

Lemma newHarmonyGenerator_rules (grammar : PCFG) (config : GeneratorConfig) :
  rules_ (grammar_ (newHarmonyGenerator grammar config)) = rules_ grammar.
Proof. unfold newHarmonyGenerator. destruct (cfg_seed config); reflexivity. Qed.

Lemma newHarmonyGenerator_config (grammar : PCFG) (config : GeneratorConfig) :
  config_ (newHarmonyGenerator grammar config) = config.
Proof. unfold newHarmonyGenerator. destruct (cfg_seed config); reflexivity. Qed.

Lemma mkPitch_rem (v : Z) : mkPitch (Z.rem v 12) = mkPitch v.
Proof.
  apply PitchClass_eq. rewrite !value_mkPitch, !wrap12_mod.
  apply rem_mod_12.
Qed.

(** X28. For every length from 0 up to half the largest [int], every key
    and every seed, [generateProgression(length, key, seed)] returns
    exactly [length] chords: the chords its generator (the base grammar
    under the configuration made from [length], the key and the seed)
    derives, of which there is at least one, cut to [length] or followed
    by as many major-seventh chords on the key as are missing.  Fuel 8
    covers the derivation ([maxDepth] is at most 6). *)
Theorem generateProgression_length (fuel : nat) (length keyPitchClass : Z)
        (seed : option Rng) (entropy static : Rng) :
  0 <= length ->
  fitsInt (length * 2) ->
  (8 <= fuel)%nat ->
  exists derived gen' static',
    generatorGenerate fuel
      (newHarmonyGenerator (createBaseGrammar entropy)
         (MkGeneratorConfig (Z.min 6 (Z.quot length 2 + 2)) length
                            (length * 2) (Z.rem keyPitchClass 12) seed))
      static
    = Some (derived, gen', static')
    /\ derived <> []
    /\ generateProgression fuel length keyPitchClass seed entropy static
       = Some (take (Z.to_nat length)
                    (derived
                     ++ replicate (Z.to_nat length)
                          (mkChord (mkPitch keyPitchClass) ChordQuality.MAJ7)),
               static')
    /\ Z.of_nat
         (List.length
            (take (Z.to_nat length)
                  (derived
                   ++ replicate (Z.to_nat length)
                        (mkChord (mkPitch keyPitchClass) ChordQuality.MAJ7))))
       = length.
Proof.
  intros Hlen _ Hfuel. unfold generateProgression. cbv zeta.
  rewrite (mkPitch_rem keyPitchClass).
  set (config := MkGeneratorConfig (Z.min 6 (Z.quot length 2 + 2)) length
                   (length * 2) (Z.rem keyPitchClass 12) seed).
  destruct (generatorGenerate_nonempty fuel
              (newHarmonyGenerator (createBaseGrammar entropy) config) static)
    as (derived & gen' & static' & Hgen & Hne).
  { rewrite (flat_terminal_rules_ext (createBaseGrammar entropy));
      [apply createBaseGrammar_flat | apply newHarmonyGenerator_rules]. }
  { rewrite (nonempty_rhs_shape _ (createBaseGrammar entropy));
      [apply createBaseGrammar_invariants|].
    intros n. rewrite newHarmonyGenerator_rules. reflexivity. }
  { rewrite newHarmonyGenerator_config. unfold config. cbn [maxDepth]. lia. }
  exists derived, gen', static'.
  split; [exact Hgen|]. split; [exact Hne|].
  rewrite Hgen. cbn [mbind option_bind].
  destruct (Z.ltb_spec length (Z.of_nat (List.length derived))) as [Hlt|Hge].
  - rewrite take_app_le by lia.
    split; [reflexivity | rewrite length_take; lia].
  - rewrite take_app_ge by lia. rewrite take_replicate.
    replace ((Z.to_nat length - List.length derived)
             `min` Z.to_nat length)%nat
      with (Z.to_nat (length - Z.of_nat (List.length derived))) by lia.
    split; [reflexivity|].
    rewrite length_app, length_replicate. lia.
Qed.

Lemma generateProgression_length_eight :
  exists derived gen' static',
    generatorGenerate 8
      (newHarmonyGenerator (createBaseGrammar (constant_draws 0))
         (MkGeneratorConfig (Z.min 6 (Z.quot 8 2 + 2)) 8 (8 * 2) (Z.rem 0 12)
                            None))
      (constant_draws 0)
    = Some (derived, gen', static')
    /\ derived <> []
    /\ generateProgression 8 8 0 None (constant_draws 0) (constant_draws 0)
       = Some (take (Z.to_nat 8)
                    (derived
                     ++ replicate (Z.to_nat 8)
                          (mkChord (mkPitch 0) ChordQuality.MAJ7)),
               static')
    /\ Z.of_nat
         (List.length
            (take (Z.to_nat 8)
                  (derived
                   ++ replicate (Z.to_nat 8)
                        (mkChord (mkPitch 0) ChordQuality.MAJ7))))
       = 8.
Proof.
  apply (generateProgression_length 8 8 0 None (constant_draws 0)
                                    (constant_draws 0));
    unfold fitsInt, INT_MIN, INT_MAX; lia.
Defined.


(** ** Padding and truncation *)

Lemma padLoop_appends (style : StyleVector) (target key : Z) :
  forall passes chords rng,
  exists pad,
    fst (padLoop passes style target key chords rng) = chords ++ pad
    /\ Forall (fun c => c = mkChord (mkPitch key) ChordQuality.MAJ7
                        \/ c = mkChord (transpose (mkPitch key) 2)
                                       ChordQuality.MIN7
                        \/ c = mkChord (transpose (mkPitch key) 7)
                                       ChordQuality.DOM7) pad.
Proof.
  induction passes as [|passes IH]; intros chords rng.
  - exists []. split; [cbn [padLoop fst]; rewrite app_nil_r; reflexivity|].
    constructor.
  - cbn [padLoop].
    destruct (Z.of_nat (length chords) <? target).
    2:{ exists []. split; [cbn [fst]; rewrite app_nil_r; reflexivity|].
        constructor. }
    destruct (uniform_real 0 1 rng) as [u rng1].
    destruct (Qlt_bool u (turnaroundProb style)
              && (Z.of_nat (length chords) <? target - 1)).
    + cbv zeta.
      destruct (Z.of_nat
                  (length (chords ++ [mkChord (transpose (mkPitch key) 2)
                                              ChordQuality.MIN7]))
                <? target).
      * destruct (IH ((chords ++ [mkChord (transpose (mkPitch key) 2)
                                          ChordQuality.MIN7])
                      ++ [mkChord (transpose (mkPitch key) 7)
                                  ChordQuality.DOM7]) rng1)
          as (pad & Hpad & Hall).
        exists (mkChord (transpose (mkPitch key) 2) ChordQuality.MIN7
                :: mkChord (transpose (mkPitch key) 7) ChordQuality.DOM7
                :: pad).
        split.
        { rewrite Hpad, <- !app_assoc. reflexivity. }
        constructor; [right; left; reflexivity|].
        constructor; [right; right; reflexivity | exact Hall].
      * destruct (IH (chords ++ [mkChord (transpose (mkPitch key) 2)
                                         ChordQuality.MIN7]) rng1)
          as (pad & Hpad & Hall).
        exists (mkChord (transpose (mkPitch key) 2) ChordQuality.MIN7 :: pad).
        split.
        { rewrite Hpad, <- !app_assoc. reflexivity. }
        constructor; [right; left; reflexivity | exact Hall].
    + destruct (IH (chords ++ [mkChord (mkPitch key) ChordQuality.MAJ7]) rng1)
        as (pad & Hpad & Hall).
      exists (mkChord (mkPitch key) ChordQuality.MAJ7 :: pad).
      split.
      { rewrite Hpad, <- !app_assoc. reflexivity. }
      constructor; [left; reflexivity | exact Hall].
Qed.

(** X29. [adjustLength] never reorders or rewrites the chords it is given:
    its result is the first [target] chords of the input followed by a
    padding, and the padding holds only the major seventh on the key, the
    minor seventh a tone above it and the dominant seventh a fifth above
    it.  When the input is already long enough nothing is drawn from the
    random generator. *)
Theorem adjustLength_keeps_input (style : StyleVector)
        (chords : list ChordSymbol) (target key : Z) (rng : Rng) :
  0 <= target ->
  exists pad,
    fst (adjustLength style chords target key rng)
    = take (Z.to_nat target) (chords ++ pad)
    /\ Forall (fun c => c = mkChord (mkPitch key) ChordQuality.MAJ7
                        \/ c = mkChord (transpose (mkPitch key) 2)
                                       ChordQuality.MIN7
                        \/ c = mkChord (transpose (mkPitch key) 7)
                                       ChordQuality.DOM7) pad
    /\ (Z.of_nat (length chords) < target
        \/ (pad = [] /\ snd (adjustLength style chords target key rng) = rng)).
Proof.
  intros Hpos. unfold adjustLength.
  destruct (Z.leb_spec target (Z.of_nat (length chords))) as [Hle|Hgt].
  - exists []. rewrite app_nil_r. split; [reflexivity|].
    split; [constructor|]. right. split; reflexivity.
  - destruct (padLoop_appends style target key
                (Z.to_nat (target - Z.of_nat (length chords))) chords rng)
      as (pad & Hpad & Hall).
    exists pad.
    destruct (padLoop (Z.to_nat (target - Z.of_nat (length chords)))
                      style target key chords rng) as [chords' rng'].
    cbn [fst] in Hpad. subst chords'.
    split; [|split; [exact Hall | left; exact Hgt]].
    destruct (Z.ltb_spec target (Z.of_nat (length (chords ++ pad))));
      cbn [fst]; [reflexivity|].
    rewrite take_ge by lia. reflexivity.
Qed.

Lemma adjustLength_keeps_input_truncation :
  exists pad,
    fst (adjustLength StylePresets.BEBOP [Dm7; G7; Cmaj7] 2 0
                      (constant_draws 0))
    = take (Z.to_nat 2) ([Dm7; G7; Cmaj7] ++ pad)
    /\ Forall (fun c => c = mkChord (mkPitch 0) ChordQuality.MAJ7
                        \/ c = mkChord (transpose (mkPitch 0) 2)
                                       ChordQuality.MIN7
                        \/ c = mkChord (transpose (mkPitch 0) 7)
                                       ChordQuality.DOM7) pad
    /\ (Z.of_nat (length [Dm7; G7; Cmaj7]) < 2
        \/ (pad = []
            /\ snd (adjustLength StylePresets.BEBOP [Dm7; G7; Cmaj7] 2 0
                                 (constant_draws 0))
               = constant_draws 0)).
Proof.
  apply (adjustLength_keeps_input StylePresets.BEBOP [Dm7; G7; Cmaj7] 2 0
                                  (constant_draws 0)).
  lia.
Defined.


(** ** Passing chords *)

Lemma insertLoop_no_suggestion (key : PitchClass) :
  (forall a b, suggestConnectingChord a b key = None) ->
  forall rest prev result, insertLoop prev rest key result = result ++ rest.
Proof.
  intros Hnone. induction rest as [|curr rest IH]; intros prev result.
  - cbn [insertLoop]. rewrite app_nil_r. reflexivity.
  - cbn [insertLoop]. rewrite Hnone. cbv zeta. rewrite IH, <- app_assoc.
    reflexivity.
Qed.

Lemma suggestConnectingChord_none (chord1 chord2 : ChordSymbol)
      (key : PitchClass) :
  suggestConnectingChord chord1 chord2 key = None.
Proof.
  unfold suggestConnectingChord. cbv zeta.
  destruct (voiceLeadingCost chord1 chord2 <=? 2); [reflexivity|].
  pose proof (voiceLeadingCost_triangle chord1
                (mkChord (transpose (root chord1) 1) ChordQuality.DIM7) chord2).
  pose proof (voiceLeadingCost_triangle chord1
                (mkChord (transpose (root chord2) 7) ChordQuality.DOM7) chord2).
  pose proof (voiceLeadingCost_triangle chord1
                (mkChord (transpose (root chord2) 2) ChordQuality.MIN7) chord2).
  repeat match goal with
         | |- context [?x <? ?y] =>
             destruct (Z.ltb_spec x y); [lia|]
         end.
  reflexivity.
Qed.

(** X30. [suggestConnectingChord] never suggests a chord: the pairwise cost
    obeys the triangle inequality, so the detour over the passing
    diminished chord, the secondary dominant or the ii of the target costs
    at least as much as the direct move and none of the three is ever
    accepted as a candidate. Hence [insertPassingChords] returns the
    progression it was given, for every progression and key. *)
Theorem insertPassingChords_identity (chords : list ChordSymbol)
        (chord1 chord2 : ChordSymbol) (key : PitchClass) :
  suggestConnectingChord chord1 chord2 key = None
  /\ insertPassingChords chords key = chords.
Proof.
  split; [apply suggestConnectingChord_none|].
  unfold insertPassingChords.
  destruct chords as [|first [|second rest]]; try reflexivity.
  rewrite insertLoop_no_suggestion; [reflexivity|].
  intros a b. apply suggestConnectingChord_none.
Qed.

(** ** Binary32 arithmetic: rounding error of [+] and [/] *)

Section PowersOfTwo.

Local Open Scope Z_scope.

Lemma pow2_pos (e : Z) : (0 < pow2 e)%Q.
Proof. apply Qpower_0_lt. reflexivity. Qed.



Lemma pow2_le (a b : Z) : a <= b -> (pow2 a <= pow2 b)%Q.
Proof. intros H. apply Qpower_le_compat_l; [exact H | discriminate]. Qed.

Lemma pow2_lt (a b : Z) : a < b -> (pow2 a < pow2 b)%Q.
Proof. intros H. apply Qpower_lt_compat_l; [exact H | reflexivity]. Qed.




(** digits *)
Lemma digits2_pos_bounds (m : positive) :
  2 ^ (Zpos (digits2_pos m) - 1) <= Zpos m < 2 ^ Zpos (digits2_pos m).
Proof.
  induction m as [m IH|m IH|]; cbn [digits2_pos].
  - rewrite Pos2Z.inj_succ.
    replace (Z.succ (Zpos (digits2_pos m)) - 1) with (Zpos (digits2_pos m)) by lia.
    rewrite Z.pow_succ_r by lia.
    replace (Zpos (digits2_pos m)) with (Zpos (digits2_pos m) - 1 + 1) at 1 by lia.
    rewrite Z.pow_add_r by lia. lia.
  - rewrite Pos2Z.inj_succ.
    replace (Z.succ (Zpos (digits2_pos m)) - 1) with (Zpos (digits2_pos m)) by lia.
    rewrite Z.pow_succ_r by lia.
    replace (Zpos (digits2_pos m)) with (Zpos (digits2_pos m) - 1 + 1) at 1 by lia.
    rewrite Z.pow_add_r by lia. lia.
  - simpl. lia.
Qed.





End PowersOfTwo.

Section Locations.

Local Open Scope Z_scope.






End Locations.

Section Shifting.

Local Open Scope Z_scope.





Lemma fexp32_eq (e : Z) : fexp32 e = Z.max (e - 24) (-149).
Proof. reflexivity. Qed.




End Shifting.

Section Finishing.

Local Open Scope Z_scope.





End Finishing.

Section RoundAux.

Local Open Scope Z_scope.





End RoundAux.

Section BinaryRound.

Local Open Scope Z_scope.





Lemma good_exponent (m : positive) (e : Z) :
  bounded 24 128 m e = true ->
  e = fexp32 (Zpos (digits2_pos m) + e) /\ -149 <= e <= 104.
Proof.
  unfold bounded, canonical_mantissa. intros H.
  apply andb_prop in H as [H1 H2].
  apply Z.eqb_eq in H1. apply Z.leb_le in H2.
  fold (fexp32 (Zpos (digits2_pos m) + e)) in H1.
  split; [lia|]. rewrite fexp32_eq in H1. lia.
Qed.


Lemma u32_pow2 : (u32 == pow2 (-24))%Q.
Proof. reflexivity. Qed.



End BinaryRound.

Section Addition.

Local Open Scope Z_scope.





End Addition.

Section Quotient.

Local Open Scope Z_scope.




End Quotient.

Section DivisionCore.

Local Open Scope Z_scope.






End DivisionCore.

Section Division.

Local Open Scope Z_scope.




End Division.

Section Clamp.

Local Open Scope Z_scope.

Lemma good_mantissa (m : positive) (e : Z) :
  bounded 24 128 m e = true ->
  Zpos m < 2 ^ 24 /\ (-149 < e -> 2 ^ 23 <= Zpos m).
Proof.
  intros H. destruct (good_exponent m e H) as [Hc He].
  destruct (digits2_pos_bounds m) as [Hlo Hhi].
  rewrite fexp32_eq in Hc.
  assert (Hd : 1 <= Zpos (digits2_pos m) <= 24) by lia.
  split.
  - assert (2 ^ Zpos (digits2_pos m) <= 2 ^ 24)
      by (apply Z.pow_le_mono_r; lia). lia.
  - intros Hn. assert (Hd24 : Zpos (digits2_pos m) = 24) by lia.
    rewrite Hd24 in Hlo. exact Hlo.
Qed.

Lemma B2Q_one : (B2Q f32_one == 1)%Q.
Proof. reflexivity. Qed.



End Clamp.

Section RunningTotal.

Local Open Scope Z_scope.

Local Open Scope Q_scope.






Lemma sumQ_weights_le_length (ws : list spec_float) :
  Forall weight_ok ws ->
  sumQ (map B2Q ws) <= inject_Z (Z.of_nat (length ws)).
Proof.
  induction 1 as [|w ws [_ Hw] _ IH].
  - cbn [map sumQ fold_right length]. change (inject_Z (Z.of_nat 0)) with 0. lra.
  - cbn [map sumQ fold_right length]. fold (sumQ (map B2Q ws)).
    rewrite Nat2Z.inj_succ. unfold Z.succ. rewrite inject_Z_plus.
    change (inject_Z 1) with 1. lra.
Qed.



End RunningTotal.

Section Rescale.

Local Open Scope Z_scope.

Local Open Scope Q_scope.






End Rescale.

Section NormalizeWeights.

Local Open Scope Z_scope.

Local Open Scope Q_scope.







End NormalizeWeights.

(** ** [PCFG::normalize] over binary32 *)

Section Normalize32.

Local Open Scope Q_scope.







Lemma not_above_one (m : positive) (e : Z) :
  bounded 24 128 m e = true ->
  SFltb f32_one (S754_finite false m e) = false ->
  B2Q (S754_finite false m e) <= 1.
Proof.
  intros Hp. destruct (good_mantissa m e Hp) as [Hlt Hnorm].
  destruct (good_exponent m e Hp) as [_ He].
  unfold f32_one, SFltb. cbn [SFcompare].
  rewrite (Z.compare_antisym e (-23)).
  destruct (Z.compare_spec e (-23)) as [Heq|Hl|Hg]; cbn [CompOpp].
  - subst e. specialize (Hnorm ltac:(lia)).
    rewrite Pos.compare_cont_spec. cbn [Pos.switch_Eq].
    destruct (Pos.compare_spec 8388608 m) as [Hmeq|Hmlt|Hmgt].
    + subst m. intros _. rewrite B2Q_one. apply Qle_refl.
    + discriminate.
    + apply Pos2Z.pos_lt_pos in Hmgt.
      change (2 ^ 23)%Z with 8388608%Z in Hnorm. clear - Hnorm Hmgt. lia.
  - intros _. cbn [B2Q cond_Zopp]. unfold F2Q.
    assert (Hpe' : pow2 e <= pow2 (-24)) by (apply pow2_le; lia).
    change (pow2 (-24)) with (1 # 16777216) in Hpe'.
    pose proof (pow2_pos e) as Hpe.
    assert (Hm' : inject_Z (Zpos m) <= inject_Z (2 ^ 24))
      by (rewrite <- Zle_Qle; lia).
    change (inject_Z (2 ^ 24)) with 16777216 in Hm'.
    assert (Hm : 0 < inject_Z (Zpos m)) by (rewrite <- (Zlt_Qlt 0); lia).
    assert (H1 : inject_Z (Zpos m) * pow2 e
                 <= inject_Z (Zpos m) * (1 # 16777216)).
    { rewrite !(Qmult_comm (inject_Z (Zpos m))).
      apply Qmult_le_compat_r; lra. }
    lra.
  - discriminate.
Qed.

(** The constructor stores a weight in [0,1] for every binary32 argument
    in canonical form that is not a NaN. *)
Lemma mkGrammarRule32_weight_ok (lhs : NonTerminal.t) (rhs : list Symbol)
      (prob : spec_float) (type : RuleType.t) (name : string) :
  valid_binary 24 128 prob = true ->
  prob <> S754_nan ->
  weight_ok (rule32_prob (mkGrammarRule32 lhs rhs prob type name)).
Proof.
  intros Hv Hnan. unfold mkGrammarRule32. cbn [rule32_prob].
  destruct prob as [s|[|]| |[|] m e].
  - destruct s; (split; [exact I | apply Qle_bool_iff; reflexivity]).
  - split; [exact I | apply Qle_bool_iff; reflexivity].
  - split; [reflexivity | apply Qle_bool_iff; reflexivity].
  - congruence.
  - split; [exact I | apply Qle_bool_iff; reflexivity].
  - cbn [valid_binary] in Hv.
    change (if SFltb (S754_finite false m e) f32_zero then f32_zero
            else S754_finite false m e) with (S754_finite false m e).
    destruct (SFltb f32_one (S754_finite false m e)) eqn:H1.
    + split; [reflexivity | apply Qle_bool_iff; reflexivity].
    + split; [exact Hv | exact (not_above_one m e Hv H1)].
Qed.

(** Three rules of weight [0.1f]: each is rescaled to [0x3EAAAAAA], the
    exact sum of the three is [1 - 2^-24], and so is their sum recomputed
    in binary32; neither is 1. *)
Lemma normalize32_three_tenths :
  map rule32_prob (getRules32 (normalize32 threeRules32) NonTerminal.T)
  = [S754_finite false 11184810 (-25); S754_finite false 11184810 (-25);
     S754_finite false 11184810 (-25)]
  /\ totalProb32 (getRules32 (normalize32 threeRules32) NonTerminal.T)
     = S754_finite false 16777215 (-24)
  /\ weightSum (getRules32 (normalize32 threeRules32) NonTerminal.T)
     == 1 - u32.
Proof. split; [|split]; vm_compute; reflexivity. Qed.



End Normalize32.

